(** * Roadtrip: a verification development for the route planner

    The development embeds, definition by definition, the parts of the
    TypeScript sources that the specification talks about:

    - [lib/costCalculator.ts]   fuel cost arithmetic on IEEE doubles,
    - [lib/routing.ts]          the directions client [fetchRoute],
    - [hooks/useRoute.ts]       the React effect that resolves a route,
    - [hooks/useWaypoints.ts]   the in-memory waypoint store,
    - [lib/mapboxSearch.ts]     the autocomplete client [getSuggestions],
      [retrieveSearchResult], [searchBoxReverseGeocode] and
      [generateSessionToken],
    - [lib/geocoding.ts]        the reverse geocoder [reverseGeocode],
    - [hooks/useSearch.ts]      the debounced search hook,
    - [lib/db/repositories/*.ts] and the three generations of the tRPC
      router [lib/trpc/routes.ts] (anonymous Supabase, owner-checked
      Supabase, Drizzle repositories).

    ECMAScript numbers are IEEE 754 binary64 values; they are modelled by
    the Standard Library's [spec_float] with [prec = 53] and [emax = 1024],
    whose operations are plain Gallina functions and therefore compute. *)

From Stdlib Require Import ZArith QArith Qround Qabs Qpower List String Ascii Bool Lia Lqa.
From Stdlib Require Import Sorting.Sorted Sorting.Permutation.
From Stdlib Require Import DecimalString DecimalN.
From Stdlib Require Import Floats.SpecFloat.
From Stdlib Require HexadecimalString.
Import ListNotations.
Set Warnings "-register-all".
Open Scope Z_scope.

(** ** ECMAScript values *)

Module JS.

(** Exceptions a computation can complete with. *)
Inductive exn :=
| RangeError
| TypeError
| SyntaxError
| NetworkFailure
| Error (message : string)
| TRPCError (code message : string)
| PostgresError (condition : string).

(** A completion record: a normal value or a thrown exception (for an
    [async] function: the promise is fulfilled or rejected). *)
Inductive completion (A : Type) :=
| Normal (a : A)
| Throw (e : exn).
Arguments Normal {A} a.
Arguments Throw {A} e.

Definition bind {A B} (c : completion A) (k : A -> completion B) : completion B :=
  match c with
  | Normal a => k a
  | Throw e => Throw e
  end.

Definition throws {A} (c : completion A) : Prop := exists e, c = Throw e.

(** *** Numbers: IEEE 754 binary64 *)

Definition prec : Z := 53.
Definition emax : Z := 1024.
Definition number : Type := spec_float.

Definition div : number -> number -> number := SFdiv prec emax.
Definition mul : number -> number -> number := SFmul prec emax.
Definition sub : number -> number -> number := SFsub prec emax.
Definition ltb : number -> number -> bool := SFltb.
Definition eqb : number -> number -> bool := SFeqb.

Definition NaN : number := S754_nan.
Definition Infinity : number := S754_infinity false.
Definition zero : number := S754_zero false.

Definition is_finite (x : number) : bool :=
  match x with
  | S754_zero _ | S754_finite _ _ _ => true
  | S754_infinity _ | S754_nan => false
  end.

Definition is_zero (x : number) : bool :=
  match x with
  | S754_zero _ => true
  | _ => false
  end.

(** The real number a finite double stands for (0 for the others, which
    no caller below asks for). *)
Definition to_Q (x : number) : Q :=
  match x with
  | S754_finite s m e =>
      ((if s then - (1) else 1) * inject_Z (Zpos m) * 2 ^ e)%Q
  | _ => 0%Q
  end.

(** The double nearest to the decimal [(-1)^neg * n / 10^f], ties to even:
    what reading a decimal literal gives (StringToNumber, and the numeric
    literals of the source text). *)
Definition of_decimal (neg : bool) (n : Z) (f : Z) : number :=
  match n with
  | Zpos _ =>
      let '(mz, ez, lz) := SFdiv_core_binary prec emax n 0 (10 ^ f) 0 in
      binary_round_aux prec emax neg mz ez lz
  | _ => S754_zero neg
  end.

(** The double nearest to an integer (exact below 2^53). *)
Definition of_Z (n : Z) : number := binary_normalize prec emax n 0 false.

(** *** Strings that denote numbers

    [Number.prototype.toFixed] returns a string and [Number(...)] reads it
    back.  The strings that can occur are kept in structured form. *)
Inductive numeric_string :=
| StrNaN
| StrInfinity (neg : bool)
(** an optional minus sign, then the decimal digits of [n] with a point
    before the last [f] of them, as in "14.00" for [n = 1400], [f = 2] *)
| StrDecimal (neg : bool) (n : Z) (f : Z)
(** Number::toString(x), the shortest text that reads back as [x] *)
| StrShortest (x : number).

(** Number.prototype.toFixed (fractionDigits), ECMA-262 21.1.3.3:
    step 5 throws a RangeError outside 0..100; step 6 prints a non-finite
    value by Number::toString; from 10^21 on the result is ToString(x);
    otherwise [n] is the integer for which [n / 10^f - x] is as close to
    zero as possible, the larger one when there are two. *)
Definition toFixed (x : number) (fractionDigits : Z) : completion numeric_string :=
  if (fractionDigits <? 0) || (100 <? fractionDigits) then Throw RangeError
  else
    match x with
    | S754_nan => Normal StrNaN
    | S754_infinity s => Normal (StrInfinity s)
    | S754_zero _ => Normal (StrDecimal false 0 fractionDigits)
    | S754_finite s m e =>
        let ax := to_Q (S754_finite false m e) in
        if Qle_bool (10 ^ 21)%Q ax then Normal (StrShortest x)
        else
          Normal (StrDecimal s
                    (Qfloor (ax * inject_Z (10 ^ fractionDigits) + (1 # 2))%Q)
                    fractionDigits)
    end.

(** The characters of those strings.  [NumberToString] is Number::toString,
    needed only from 10^21 on. *)
Fixpoint zeros (k : nat) : string :=
match k with
| O => EmptyString
| S k' => String "0" (zeros k')
end.

Definition digits_of (n : N) : string :=
DecimalString.NilEmpty.string_of_uint (N.to_uint n).

Definition decimal_text (n : Z) (f : Z) : string :=
let k := Z.to_nat f in
let digits := digits_of (Z.to_N n) in
let padded := (zeros (S k - String.length digits) ++ digits)%string in
let whole := (String.length padded - k)%nat in
if f =? 0 then padded
else (substring 0 whole padded ++ "." ++ substring whole k padded)%string.

Definition numeric_text (NumberToString : number -> string) (s : numeric_string)
  : string :=
match s with
| StrNaN => "NaN"
| StrInfinity neg => if neg then "-Infinity" else "Infinity"
| StrDecimal neg n f =>
    ((if neg then "-" else "") ++ decimal_text n f)%string
| StrShortest x => NumberToString x
end.

(** [Number(s)] for the strings above. *)
Definition Number (s : numeric_string) : number :=
  match s with
  | StrNaN => S754_nan
  | StrInfinity neg => S754_infinity neg
  | StrDecimal neg n f => of_decimal neg n f
  | StrShortest x => x
  end.

(** *** Values produced by JSON.parse *)

Inductive value :=
| VUndefined
| VNull
| VBool (b : bool)
| VNumber (x : number)
| VString (s : string)
| VArray (elements : list value)
| VObject (fields : list (string * value)).

(** ToBoolean *)
Definition ToBoolean (v : value) : bool :=
match v with
| VUndefined | VNull => false
| VBool b => b
| VNumber x =>
    match x with
    | S754_zero _ | S754_nan => false
    | _ => true
    end
| VString s => negb (String.eqb s EmptyString)
| VArray _ | VObject _ => true
end.

Fixpoint own_property (key : string) (fields : list (string * value)) : value :=
match fields with
| [] => VUndefined
| (k, v) :: rest => if String.eqb k key then v else own_property key rest
end.

(** [v.key] for a key that no built-in prototype defines, apart from
    [length] on arrays and strings: reading a property of [undefined] or
    [null] throws a TypeError, a missing property reads as [undefined]. *)
Definition get (v : value) (key : string) : completion value :=
match v with
| VUndefined | VNull => Throw TypeError
| VObject fields => Normal (own_property key fields)
| VArray elements =>
    if String.eqb key "length"
    then Normal (VNumber (of_Z (Z.of_nat (List.length elements))))
    else Normal VUndefined
| VString s =>
    if String.eqb key "length"
    then Normal (VNumber (of_Z (Z.of_nat (String.length s))))
    else Normal VUndefined
| VBool _ | VNumber _ => Normal VUndefined
end.

(** [v[0]] *)
Definition get_first (v : value) : completion value :=
match v with
| VUndefined | VNull => Throw TypeError
| VObject fields => Normal (own_property "0" fields)
| VArray elements => Normal (List.hd VUndefined elements)
| VString s =>
    match s with
    | EmptyString => Normal VUndefined
    | String c _ => Normal (VString (String c EmptyString))
    end
| VBool _ | VNumber _ => Normal VUndefined
end.

(** ToNumber on the primitive values whose conversion is immediate; the
    conversion of strings, arrays and objects (StringToNumber after
    ToPrimitive) is a parameter [to_number_other] of the callers. *)
Definition ToNumber (to_number_other : value -> number) (v : value) : number :=
match v with
| VUndefined => NaN
| VNull => zero
| VBool b => if b then of_Z 1 else zero
| VNumber x => x
| VString _ | VArray _ | VObject _ => to_number_other v
end.

(** *** fetch *)

(** What a [Response] offers to the callers below: [response.ok],
    [response.statusText] and the completion of [response.json()]. *)
Record Response := {
  ok : bool;
  statusText : string;
  json : completion value;
}.

(** Observable effects of a call, in program order. *)
Inductive effect :=
| Fetch (url : string)
| ConsoleError (message : string).

(** An [async] function of the client: the effects it has performed and the
    completion of its promise. *)
Definition IO (A : Type) : Type := (list effect * completion A)%type.

Definition pure {A} (c : completion A) : IO A := ([], c).

Definition io_bind {A B} (c : IO A) (k : A -> IO B) : IO B :=
match c with
| (log, Normal a) => let '(log', r) := k a in (log ++ log', r)
| (log, Throw e) => (log, Throw e)
end.

(** [try { body } catch (error) { handler }] *)
Definition try_catch {A} (body : IO A) (handler : exn -> IO A) : IO A :=
match body with
| (log, Normal a) => (log, Normal a)
| (log, Throw e) => let '(log', r) := handler e in (log ++ log', r)
end.

(** [console.error(message, ...)] *)
Definition console_error (message : string) : IO unit :=
([ConsoleError message], Normal tt).

(** [await fetch(url)] against the network [net]. *)
Definition fetch_from (net : string -> completion Response) (url : string)
  : IO Response :=
([Fetch url], net url).

End JS.

Notation "x <- c1 ;; c2" := (JS.bind c1 (fun x => c2))
(at level 61, c1 at next level, right associativity).

Notation "'await' x <- c1 ;; c2" := (JS.io_bind c1 (fun x => c2))
(at level 61, x name, c1 at next level, right associativity).

(** ** lib/costCalculator.ts *)

Module CostCalculator.
Import JS.

(** [interface CostSettings] of types/travel.ts *)
Record CostSettings := {
  mpg : number;
  pricePerGallon : number;
}.

(** [calculateFuelCost(distanceInMiles, settings)] *)
Definition calculateFuelCost (distanceInMiles : number) (settings : CostSettings)
  : completion number :=
  let gallonsNeeded := div distanceInMiles (mpg settings) in
  let totalCost := mul gallonsNeeded (pricePerGallon settings) in
  s <- toFixed totalCost 2 ;;
  Normal (Number s).

(** [calculateGallonsNeeded(distanceInMiles, mpg)] *)
Definition calculateGallonsNeeded (distanceInMiles : number) (mpg : number)
  : completion number :=
  s <- toFixed (div distanceInMiles mpg) 2 ;;
  Normal (Number s).

(** What the specification calls "rounded to 2 decimal places": [r] is a
    rounding of [x] when [x] is not finite and [r] is [x] itself, or when
    [r] reads the decimal numeral [n / 100] carrying the sign of [x], where
    [n] is an integer nearest to [100 * |x|] (on a tie the one away from
    zero).  A finite double of magnitude 10^21 or more is an integer and is
    its own rounding. *)
Inductive rounded_2dp (x : number) : number -> Prop :=
| rounded_not_finite :
    is_finite x = false -> rounded_2dp x x
| rounded_huge :
    is_finite x = true -> (10 ^ 21 <= Qabs (to_Q x))%Q -> rounded_2dp x x
| rounded_decimal (neg : bool) (n : Z) :
    is_finite x = true ->
    (Qabs (to_Q x) < 10 ^ 21)%Q ->
    (neg = true -> (to_Q x < 0)%Q) ->
    (neg = false -> (to_Q x < 0)%Q -> False) ->
    (Qabs (inject_Z n - 100 * Qabs (to_Q x)) <= 1 # 2)%Q ->
    (inject_Z n - 100 * Qabs (to_Q x) == - (1 # 2) -> False)%Q ->
    rounded_2dp x (of_decimal neg n 2).

(** The literals of the specification's examples. *)
Definition lit_100 : number := of_Z 100.
Definition lit_25 : number := of_Z 25.
Definition lit_50 : number := of_Z 50.
Definition lit_3_5 : number := of_decimal false 35 1.
Definition lit_7_0 : number := of_decimal false 70 1.
Definition lit_14_0 : number := of_decimal false 140 1.
Definition lit_28_0 : number := of_decimal false 280 1.
Definition lit_4_0 : number := of_decimal false 40 1.

(** A configuration with [mpg = 0] and the default price. *)
Definition zero_mpg_settings : CostSettings :=
  {| mpg := zero; pricePerGallon := lit_3_5 |}.

End CostCalculator.

(** ** types/travel.ts *)

Module Travel.
Import JS.

(** [interface Waypoint] *)
Record Waypoint := {
  id : string;
  lng : number;
  lat : number;
  name : option string;
}.

(** [interface RouteData]; the three fields are copied unchecked out of the
    provider's JSON answer, so they are JSON values here. *)
Record RouteData := {
  distance : value;
  duration : value;
  geometry : value;
}.

End Travel.

(** ** lib/routing.ts *)

Module Routing.
Import JS Travel.

Section FetchRoute.

(** Number::toString, used by the template literal that prints a
    coordinate. *)
Variable NumberToString : number -> string.
(** ToNumber on strings, arrays and objects. *)
Variable to_number_other : value -> number.
(** [process.env.NEXT_PUBLIC_MAPBOX_TOKEN] *)
Variable token : option string.
(** The network: the completion of [fetch(url)]. *)
Variable fetch : string -> completion Response.

Definition template_of_env (v : option string) : string :=
match v with
| Some s => s
| None => "undefined"
end.

(** "lng,lat;lng,lat;..." *)
Definition coordinates (waypoints : list Waypoint) : string :=
String.concat ";"
  (map (fun w => NumberToString (lng w) ++ "," ++ NumberToString (lat w))%string
     waypoints).

Definition directions_url (waypoints : list Waypoint) : string :=
("https://api.mapbox.com/directions/v5/mapbox/driving/"
   ++ coordinates waypoints
   ++ "?geometries=geojson&overview=full&access_token="
   ++ template_of_env token)%string.

(** What the [try] block does with the parsed body. *)
Definition first_route (data : value) : completion (option RouteData) :=
routes <- get data "routes" ;;
nonempty <- (if ToBoolean routes
             then len <- get routes "length" ;;
                  Normal (ltb zero (ToNumber to_number_other len))
             else Normal false) ;;
if nonempty : bool then
  route <- get_first routes ;;
  distance <- get route "distance" ;;
  duration <- get route "duration" ;;
  geometry <- get route "geometry" ;;
  Normal (Some {| distance := distance;
                  duration := duration;
                  geometry := geometry |})
else Normal None.

(** [fetchRoute(waypoints)]: the effects it performs and the completion of
    the promise it returns ([None] is [null]). *)
Definition fetchRoute (waypoints : list Waypoint) : IO (option RouteData) :=
if (List.length waypoints <? 2)%nat then pure (Normal None)
else
  let url := directions_url waypoints in
  try_catch
    (await response <- fetch_from fetch url ;;
     await data <- pure (json response) ;;
     pure (first_route data))
    (fun error =>
       await _ <- console_error "Error fetching route:" ;;
       pure (Normal None)).

End FetchRoute.

Definition is_console_error (e : effect) : Prop :=
  match e with
  | ConsoleError _ => True
  | Fetch _ => False
  end.

(** A concrete answer of the provider. *)
Definition sample_route : value :=
  VObject [("distance", VNumber (of_Z 1609));
           ("duration", VNumber (of_Z 60));
           ("geometry", VObject [("type", VString "LineString")])]%string.

Definition sample_routes : list (string * value) :=
  [("routes", VArray [sample_route])]%string.

Definition sample_printer (x : number) : string := "0".
Definition sample_to_number (v : value) : number := NaN.

Definition sample_fetch (body : completion value) (url : string)
  : completion Response :=
  Normal {| ok := true; statusText := "OK"; json := body |}.

(** [metersToMiles(meters)] *)
Definition metersToMiles (meters : number) : number :=
mul meters (of_decimal false 621371 9).

End Routing.

(** ** hooks/useRoute.ts

    React runs the effect of [useEffect(..., [waypoints])] after the first
    render and after every render in which [waypoints] is a new array, and
    before each re-run it calls the cleanup function the previous run
    returned.  Each run of the effect that starts a request creates one
    closure holding its own [cancelled] variable; the promise of that
    request settles later, at most once, in any order relative to the other
    events.  By [Routing.fetchRoute] the promise is always fulfilled, with a
    route or with [null]. *)

Module UseRoute.
Import JS Travel.

(** One call of [getRoute]: the waypoints it was started for, its
    [cancelled] variable, and whether its [await] has already resumed. *)
Record Invocation := {
  inv_waypoints : list Waypoint;
  cancelled : bool;
  settled : bool;
}.

Record State := {
  route : option RouteData;          (* useState<RouteData | null>(null) *)
  loading : bool;                    (* useState(false) *)
  cleanup : option nat;              (* the cleanup returned by the last run:
                                        the invocation whose flag it sets *)
  invocations : list Invocation;     (* in order of creation *)
}.

Inductive event :=
(** a render with a new [waypoints] array: cleanup, then the effect *)
| Render (waypoints : list Waypoint)
(** [await fetchRoute(waypoints)] of invocation [k] resumes with [routeData] *)
| Settle (k : nat) (routeData : option RouteData)
(** the component unmounts: React calls the last cleanup *)
| Unmount.

Definition initial : State :=
{| route := None; loading := false; cleanup := None; invocations := [] |}.

Fixpoint update_nth {A} (k : nat) (f : A -> A) (l : list A) : list A :=
match l, k with
| [], _ => []
| x :: rest, O => f x :: rest
| x :: rest, S k' => x :: update_nth k' f rest
end.

Definition cancel (i : Invocation) : Invocation :=
{| inv_waypoints := inv_waypoints i; cancelled := true; settled := settled i |}.

Definition settle (i : Invocation) : Invocation :=
{| inv_waypoints := inv_waypoints i; cancelled := cancelled i; settled := true |}.

(** [return () => { cancelled = true; }] *)
Definition run_cleanup (s : State) : State :=
match cleanup s with
| Some k =>
    {| route := route s; loading := loading s; cleanup := None;
       invocations := update_nth k cancel (invocations s) |}
| None => s
end.

(** The effect body. *)
Definition run_effect (waypoints : list Waypoint) (s : State) : State :=
if (List.length waypoints <? 2)%nat then
  (* setRoute(null); return; *)
  {| route := None; loading := loading s; cleanup := None;
     invocations := invocations s |}
else
  (* let cancelled = false; getRoute() runs up to its await:
     setLoading(true); fetchRoute(waypoints) is called *)
  {| route := route s; loading := true;
     cleanup := Some (List.length (invocations s));
     invocations :=
       invocations s
         ++ [{| inv_waypoints := waypoints; cancelled := false;
                settled := false |}] |}.

(** The continuation of [getRoute] after its [await]. *)
Definition resume (k : nat) (routeData : option RouteData) (s : State) : State :=
match nth_error (invocations s) k with
| Some i =>
    if settled i then s
    else if negb (cancelled i) then
      (* setRoute(routeData); setLoading(false); *)
      {| route := routeData; loading := false; cleanup := cleanup s;
         invocations := update_nth k settle (invocations s) |}
    else
      {| route := route s; loading := loading s; cleanup := cleanup s;
         invocations := update_nth k settle (invocations s) |}
| None => s
end.

Definition step (s : State) (e : event) : State :=
match e with
| Render waypoints => run_effect waypoints (run_cleanup s)
| Settle k routeData => resume k routeData s
| Unmount => run_cleanup s
end.

Definition run (trace : list event) : State := fold_left step trace initial.

(** The first settlement of invocation [k] in a trace. *)
Fixpoint first_settle (k : nat) (trace : list event) : option (option RouteData) :=
match trace with
| [] => None
| Settle j routeData :: rest =>
    if Nat.eqb j k then Some routeData else first_settle k rest
| _ :: rest => first_settle k rest
end.

Definition is_settle (e : event) : Prop :=
match e with
| Settle _ _ => True
| _ => False
end.

(** What the hook returns: [{ route, loading }]. *)
Definition displayed (s : State) : option RouteData * bool := (route s, loading s).

(** Invocation [k] exists and its flag is raised. *)
Definition is_cancelled (s : State) (k : nat) : Prop :=
  exists i, nth_error (invocations s) k = Some i /\ cancelled i = true.

(** Every invocation other than the one the pending cleanup refers to has
    its flag raised, and that one has it lowered. *)
Definition supersede_inv (s : State) : Prop :=
  (forall j, j < List.length (invocations s) -> cleanup s <> Some j ->
             is_cancelled s j)%nat
  /\ (forall k, cleanup s = Some k ->
                exists i, nth_error (invocations s) k = Some i
                          /\ cancelled i = false).

(** All invocations but [k] are cancelled. *)
Definition quiet (s : State) (k : nat) : Prop :=
  forall j, (j < List.length (invocations s))%nat -> j <> k -> is_cancelled s j.

(** Invocation [k] no longer acts: it has settled or it is cancelled. *)
Definition spent (s : State) (k : nat) : Prop :=
  forall i, nth_error (invocations s) k = Some i ->
            settled i = true \/ cancelled i = true.

(** The scenario of the specification: sequence A of two points, then
    sequence B of three points, with one answer of the provider for each. *)
Definition point (n : N) : Waypoint :=
{| id := "waypoint-" ++ DecimalString.NilEmpty.string_of_uint (N.to_uint n);
   lng := of_Z (Z.of_N n); lat := of_Z (Z.of_N n); name := None |}.
Definition sequence_A : list Waypoint := [point 1; point 2].
Definition sequence_B : list Waypoint := [point 1; point 2; point 3].
Definition answer (meters : Z) : option RouteData :=
Some {| distance := VNumber (of_Z meters);
        duration := VNumber (of_Z 60);
        geometry := VNull |}.

End UseRoute.

(** ** hooks/useWaypoints.ts

    Every operation goes through [setWaypoints(prev => ...)], so each is a
    function from the previous sequence to the next one.  [addWaypoint] is
    [async]: it appends at once and renames the waypoint later, when
    [reverseGeocode] has settled. *)

Module UseWaypoints.
Import JS.

(** A [Waypoint] as the state holds it at run time.  The interface
    declares [id: string; lng: number; lat: number; name?: string], but
    [{ ...w, ...updates }] copies every own key of [updates], also a key
    whose value is [undefined], so each field of a stored waypoint can be
    [undefined] ([None]). *)
Record Waypoint := {
  id : option string;
  lng : option number;
  lat : option number;
  name : option string;
}.

(** A key of a [Partial<Waypoint>]: the object does not have it, or it has
    it with a value, which can be [undefined]. *)
Inductive key (A : Type) :=
| Absent
| Present (v : option A).
Arguments Absent {A}.
Arguments Present {A} v.

(** [Partial<Waypoint>] *)
Record PartialWaypoint := {
  u_id : key string;
  u_lng : key number;
  u_lat : key number;
  u_name : key string;
}.

(** One field of [{ ...w, ...updates }]: an own key of [updates] wins,
    whatever its value. *)
Definition merge {A} (old : option A) (k : key A) : option A :=
match k with
| Absent => old
| Present v => v
end.

(** [{ ...w, ...updates }] *)
Definition spread (w : Waypoint) (updates : PartialWaypoint) : Waypoint :=
{| id := merge (id w) (u_id updates);
   lng := merge (lng w) (u_lng updates);
   lat := merge (lat w) (u_lat updates);
   name := merge (name w) (u_name updates) |}.

(** [{ ...w, name: n }] *)
Definition rename (w : Waypoint) (n : string) : Waypoint :=
{| id := id w; lng := lng w; lat := lat w; name := Some n |}.

(** [w.id === id] for a string [id]. *)
Definition has_id (i : string) (w : Waypoint) : bool :=
match id w with
| Some x => String.eqb x i
| None => false
end.

(** [`waypoint-${Date.now()}`]: [Date.now()] is a whole number of
    milliseconds, printed in decimal. *)
Definition waypoint_id (now : N) : string :=
("waypoint-" ++ digits_of now)%string.

Section Store.

Variable NumberToString : number -> string.

(** [addWaypoint(lng, lat)] up to its [await], with [Date.now()] read as
    [now]. *)
Definition addWaypoint (now : N) (lng lat : number) (prev : list Waypoint)
  : list Waypoint :=
let id := waypoint_id now in
let newWaypoint := {| id := Some id; lng := Some lng; lat := Some lat;
                      name := Some "..."%string |} in
prev ++ [newWaypoint].

(** [`Location at ${lat.toFixed(2)}, ${lng.toFixed(2)}`] *)
Definition fallback_name (lng lat : number) : completion string :=
a <- toFixed lat 2 ;;
b <- toFixed lng 2 ;;
Normal ("Location at " ++ numeric_text NumberToString a ++ ", "
          ++ numeric_text NumberToString b)%string.

(** [addWaypoint] after its [await]: [reverseGeocode] fulfilled with a name
    or was rejected. *)
Definition addWaypoint_resume (now : N) (lng lat : number)
           (geocoded : completion string) (prev : list Waypoint)
  : list Waypoint :=
let id := waypoint_id now in
match geocoded with
| Normal locationName =>
    map (fun w => if has_id id w then rename w locationName else w) prev
| Throw _ =>
    match fallback_name lng lat with
    | Normal n =>
        map (fun w => if has_id id w then rename w n else w) prev
    | Throw _ => prev
    end
end.

(** [removeWaypoint(id)] *)
Definition removeWaypoint (id : string) (prev : list Waypoint) : list Waypoint :=
filter (fun w => negb (has_id id w)) prev.

(** [clearWaypoints()] *)
Definition clearWaypoints (prev : list Waypoint) : list Waypoint := [].

(** [updateWaypoint(id, updates)] *)
Definition updateWaypoint (id : string) (updates : PartialWaypoint)
           (prev : list Waypoint) : list Waypoint :=
map (fun w => if has_id id w then spread w updates else w) prev.

Inductive operation :=
| Add (now : N) (lng lat : number)
| Geocoded (now : N) (lng lat : number) (geocoded : completion string)
| Remove (id : string)
| Clear
| Update (id : string) (updates : PartialWaypoint).

Definition apply (prev : list Waypoint) (o : operation) : list Waypoint :=
match o with
| Add now lng lat => addWaypoint now lng lat prev
| Geocoded now lng lat g => addWaypoint_resume now lng lat g prev
| Remove id => removeWaypoint id prev
| Clear => clearWaypoints prev
| Update id updates => updateWaypoint id updates prev
end.

(** The sequence after a history of operations, from [useState([])]. *)
Definition run (history : list operation) : list Waypoint :=
fold_left apply history [].

(** An operation that does not bring the id of clock reading [now] into
    the sequence: it is not an add at that reading, and it is not an update
    that carries that id as the value of its [id] key. *)
Definition keeps_fresh (now : N) (o : operation) : Prop :=
match o with
| Add t _ _ => t <> now
| Update _ updates => u_id updates <> Present (Some (waypoint_id now))
| _ => True
end.

End Store.

(** No waypoint of the sequence carries the id [i]. *)
Definition absent (i : string) (l : list Waypoint) : Prop :=
Forall (fun w => id w <> Some i) l.

(** A stand-in for Number::toString where no number is printed. *)
Definition sample_printer (x : number) : string := "1e+21".

(** An update that copies the id of a later clock reading onto a
    waypoint, and one that carries [name: undefined]. *)
Definition take_id (now : N) : PartialWaypoint :=
{| u_id := Present (Some (waypoint_id now)); u_lng := Absent; u_lat := Absent;
   u_name := Absent |}.

Definition erase_name : PartialWaypoint :=
{| u_id := Absent; u_lng := Absent; u_lat := Absent; u_name := Present None |}.

(** A clock reading, and two clicks. *)
Definition some_millisecond : N := 1700000000000.
Definition click_1 : number * number := (of_Z 10, of_Z 50).
Definition click_2 : number * number := (of_Z 11, of_Z 51).

End UseWaypoints.

(** ** lib/mapboxSearch.ts *)

Module MapboxSearch.
Import JS.

(** [interface SearchSuggestion]; the fields are copied unchecked out of
    the provider's JSON answer. *)
Record SearchSuggestion := {
  name : value;
  mapboxId : value;
  placeFormatted : value;
  featureType : value;
}.

(** The [options] argument. *)
Record Options := {
  limit : option number;
  proximity : option (number * number);      (* { lng, lat } *)
  country : option (list string);
}.

(** An element of [rawSuggestions]. *)
Record Raw := {
  suggestion : SearchSuggestion;
  originalIndex : nat;
}.

(** The same with its [priority]: a number, or the member of
    Object.prototype that the key happens to name. *)
Record Ranked := {
  raw : Raw;
  priority : value + string;
}.

Definition MAX_SAFE_INTEGER : number := of_Z 9007199254740991.

(** Names that every object inherits from Object.prototype. *)
Definition object_prototype_keys : list string :=
["constructor"; "hasOwnProperty"; "isPrototypeOf"; "propertyIsEnumerable";
 "toLocaleString"; "toString"; "valueOf"; "__proto__"; "__defineGetter__";
 "__defineSetter__"; "__lookupGetter__"; "__lookupSetter__"]%string.

(** [typePriority[key] ?? Number.MAX_SAFE_INTEGER] *)
Definition typePriority (key : string) : value + string :=
if String.eqb key "place" then inl (VNumber (of_Z 0))
else if String.eqb key "region" then inl (VNumber (of_Z 1))
else if String.eqb key "postcode" then inl (VNumber (of_Z 2))
else if String.eqb key "address" then inl (VNumber (of_Z 3))
else if existsb (String.eqb key) object_prototype_keys then inr key
else inl (VNumber MAX_SAFE_INTEGER).

Definition priority_number (p : value + string) : number :=
match p with
| inl (VNumber x) => x
| _ => NaN
end.

(** [a.priority === b.priority] *)
Definition same_priority (a b : value + string) : bool :=
match a, b with
| inl (VNumber x), inl (VNumber y) => eqb x y
| inr k, inr k' => String.eqb k k'
| _, _ => false
end.

(** The comparator handed to [sort]. *)
Definition compare_ranked (a b : Ranked) : number :=
if same_priority (priority a) (priority b)
then sub (of_Z (Z.of_nat (originalIndex (raw a))))
         (of_Z (Z.of_nat (originalIndex (raw b))))
else sub (priority_number (priority a)) (priority_number (priority b)).

Fixpoint map_indexed {A B} (f : A -> nat -> completion B) (index : nat)
         (l : list A) : completion (list B) :=
match l with
| [] => Normal []
| x :: rest =>
    y <- f x index ;;
    ys <- map_indexed f (S index) rest ;;
    Normal (y :: ys)
end.

Section GetSuggestions.

(** Number::toString, and ToString on objects and arrays, which throws a
    TypeError when neither [toString] nor [valueOf] of the object yields a
    primitive. *)
Variable NumberToString : number -> string.
Variable to_string_other : value -> completion string.
(** URLSearchParams.prototype.toString: the percent-encoded query. *)
Variable URLSearchParams_toString : list (string * string) -> string.
(** Array.prototype.sort with a comparator. *)
Variable Array_sort : (Ranked -> Ranked -> number) -> list Ranked -> list Ranked.
(** [process.env.NEXT_PUBLIC_MAPBOX_TOKEN] *)
Variable token : option string.
Variable fetch : string -> completion Response.

(** The property key a value is used as (ToPropertyKey). *)
Definition property_key (v : value) : completion string :=
match v with
| VString s => Normal s
| VNumber x => Normal (NumberToString x)
| VBool b => Normal (if b then "true" else "false")%string
| VUndefined => Normal "undefined"%string
| VNull => Normal "null"%string
| _ => to_string_other v
end.

(** [String(options?.limit || 5)] *)
Definition limit_text (options : option Options) : string :=
match options with
| Some o =>
    match limit o with
    | Some x => if ToBoolean (VNumber x) then NumberToString x
                else NumberToString (of_Z 5)
    | None => NumberToString (of_Z 5)
    end
| None => NumberToString (of_Z 5)
end.

Definition search_params (query sessionToken accessToken : string)
           (options : option Options) : list (string * string) :=
let params :=
  [("q", query); ("access_token", accessToken);
   ("session_token", sessionToken); ("limit", limit_text options);
   ("types", "place,region,postcode,address")]%string in
let proximity :=
  match options with
  | Some {| proximity := Some (lng, lat) |} =>
      [("proximity", NumberToString lng ++ "," ++ NumberToString lat)]%string
  | _ => []
  end in
let country :=
  match options with
  | Some {| country := Some (c :: cs) |} =>
      [("country", String.concat "," (c :: cs))]%string
  | _ => []
  end in
(params ++ proximity ++ country)%list.

Definition suggest_url (query sessionToken accessToken : string)
           (options : option Options) : string :=
("https://api.mapbox.com/search/searchbox/v1/suggest?"
   ++ URLSearchParams_toString
        (search_params query sessionToken accessToken options))%string.

(** The callback of the first [map]. *)
Definition raw_suggestion (s : value) (index : nat) : completion Raw :=
n <- get s "name" ;;
i <- get s "mapbox_id" ;;
p <- get s "place_formatted" ;;
f <- get s "feature_type" ;;
Normal {| suggestion := {| name := n; mapboxId := i; placeFormatted := p;
                           featureType := f |};
          originalIndex := index |}.

(** The callback of the second [map]. *)
Definition with_priority (r : Raw) (index : nat) : completion Ranked :=
let f := featureType (suggestion r) in
key <- (if ToBoolean f then property_key f else Normal EmptyString) ;;
Normal {| raw := r; priority := typePriority key |}.

(** The callback of the third [map]: drop [originalIndex] and [priority]. *)
Definition rest_of (r : Ranked) : SearchSuggestion := suggestion (raw r).

(** What the [try] block does with the parsed body. *)
Definition sorted_suggestions (data : value) : completion (list SearchSuggestion) :=
suggestions <- get data "suggestions" ;;
rawSuggestions <-
  (if ToBoolean suggestions
   then match suggestions with
        | VArray elements => map_indexed raw_suggestion 0 elements
        | _ => Throw TypeError          (* [.map] is not a function *)
        end
   else Normal []) ;;
ranked <- map_indexed with_priority 0 rawSuggestions ;;
Normal (map rest_of (Array_sort compare_ranked ranked)).

(** The value of the [try] block for a request to [url], effects aside. *)
Definition try_value (url : string) : completion (list SearchSuggestion) :=
response <- fetch url ;;
_ <- (if negb (ok response)
      then Throw (Error ("Search suggestions failed: " ++ statusText response))
      else Normal tt) ;;
data <- json response ;;
sorted_suggestions data.

(** [getSuggestions(query, sessionToken, options)]: its effects and the
    completion of the promise it returns. *)
Definition getSuggestions (query sessionToken : string) (options : option Options)
  : IO (list SearchSuggestion) :=
match token with
| None | Some EmptyString =>
    await _ <- console_error "Mapbox access token not found" ;;
    pure (Normal [])
| Some accessToken =>
    try_catch
      (let url := suggest_url query sessionToken accessToken options in
       await response <- fetch_from fetch url ;;
       await _ <- pure (if negb (ok response)
                        then Throw (Error ("Search suggestions failed: "
                                             ++ statusText response))
                        else Normal tt) ;;
       await data <- pure (json response) ;;
       pure (sorted_suggestions data))
      (fun error =>
         await _ <- console_error "Error fetching search suggestions:" ;;
         pure (Normal []))
end.

End GetSuggestions.

(** A stable insertion sort, which is what [sort] does with a consistent
    comparator. *)
Fixpoint insert_sorted (cmp : Ranked -> Ranked -> number) (x : Ranked)
         (l : list Ranked) : list Ranked :=
match l with
| [] => [x]
| y :: rest =>
    if ltb (cmp x y) zero then x :: y :: rest
    else y :: insert_sorted cmp x rest
end.

Definition stable_sort (cmp : Ranked -> Ranked -> number) (l : list Ranked)
  : list Ranked :=
fold_right (insert_sorted cmp) [] l.

(** The answer of the provider in the repository's test. *)
Definition test_suggestion (n i p f : string) : value :=
VObject [("name", VString n); ("mapbox_id", VString i);
         ("place_formatted", VString p); ("feature_type", VString f)]%string.

Definition test_answer : value :=
VObject [("suggestions",
          VArray [test_suggestion "Hotel ABC" "poi-1"
                    "Hotel ABC, Salt Lake City" "poi";
                  test_suggestion "Salt Lake City" "place-1"
                    "Salt Lake City, Utah, United States" "place";
                  test_suggestion "Salt Lake City International Airport"
                    "poi-2" "Salt Lake City International Airport" "poi"])]%string.

Definition test_fetch (response : Response) (url : string) : completion Response :=
Normal response.

Definition offline (url : string) : completion Response := Throw NetworkFailure.

Definition test_printer (x : number) : string := "5".
Definition test_to_string (v : value) : completion string :=
Normal "[object Object]"%string.
Definition test_query_text (params : list (string * string)) : string := "q".

End MapboxSearch.

(** ** Calls that also write to the console with [console.log] and
    [console.warn]

    [JS.IO] records requests and [console.error] lines.  The functions
    below write further lines; their effects are the ones of [JS.effect]
    and these lines, in program order. *)

Module Console.
Import JS.

Inductive output :=
| Did (e : effect)
| ConsoleLog (arguments : list value)
| ConsoleWarn (arguments : list value).

Definition Task (A : Type) : Type := (list output * completion A)%type.

Definition lift {A} (c : IO A) : Task A := (map Did (fst c), snd c).

Definition done {A} (c : completion A) : Task A := ([], c).

Definition task_bind {A B} (c : Task A) (k : A -> Task B) : Task B :=
match c with
| (log, Normal a) => let '(log', r) := k a in (log ++ log', r)
| (log, Throw e) => (log, Throw e)
end.

(** [try { body } catch (error) { handler }] *)
Definition try_catch {A} (body : Task A) (handler : exn -> Task A) : Task A :=
match body with
| (log, Normal a) => (log, Normal a)
| (log, Throw e) => let '(log', r) := handler e in (log ++ log', r)
end.

Definition console_log (arguments : list value) : Task unit :=
([ConsoleLog arguments], Normal tt).

Definition console_warn (arguments : list value) : Task unit :=
([ConsoleWarn arguments], Normal tt).

Definition is_request (o : output) : bool :=
match o with
| Did (Fetch _) => true
| _ => false
end.

(** The requests a call has issued. *)
Definition requests {A} (t : Task A) : list output :=
filter is_request (fst t).

(** The call issues no request, and a value it returns satisfies [P]. *)
Definition quietly {A} (P : A -> Prop) (t : Task A) : Prop :=
requests t = [] /\ forall a, snd t = Normal a -> P a.

End Console.

Notation "'perform' x <- c1 ;; c2" := (Console.task_bind c1 (fun x => c2))
(at level 61, x name, c1 at next level, right associativity).

(** ** Property reads shared by the geocoding functions *)

Module Reads.
Import JS.

(** [v?.key] *)
Definition get_optional (v : value) (key : string) : completion value :=
match v with
| VUndefined | VNull => Normal VUndefined
| _ => get v key
end.

(** [v?.[0]] *)
Definition get_first_optional (v : value) : completion value :=
match v with
| VUndefined | VNull => Normal VUndefined
| _ => get_first v
end.

(** [a || b], with [b] evaluated only when [a] is falsy. *)
Definition or_else (a : value) (b : completion value) : completion value :=
if ToBoolean a then Normal a else b.

(** [data.features && data.features.length > 0] as a condition. *)
Definition has_features (to_number_other : value -> number) (data : value)
  : completion bool :=
features <- get data "features" ;;
if ToBoolean features
then len <- get features "length" ;;
     Normal (ltb zero (ToNumber to_number_other len))
else Normal false.

Section Labels.

Variable NumberToString : number -> string.

(** [x.toFixed(digits)] as text. *)
Definition fixed (x : number) (digits : Z) : completion string :=
s <- toFixed x digits ;;
Normal (numeric_text NumberToString s).

(** [`Waypoint (${lat.toFixed(4)}, ${lng.toFixed(4)})`] *)
Definition waypoint_label (lng lat : number) : completion string :=
a <- fixed lat 4 ;;
b <- fixed lng 4 ;;
Normal ("Waypoint (" ++ a ++ ", " ++ b ++ ")")%string.

(** [`Location at ${lat.toFixed(2)}, ${lng.toFixed(2)}`] *)
Definition location_label (lng lat : number) : completion string :=
a <- fixed lat 2 ;;
b <- fixed lng 2 ;;
Normal ("Location at " ++ a ++ ", " ++ b)%string.

(** The text that [toFixed] prints, for [digits] within 0..100. *)
Definition fixed_text (x : number) (digits : Z) : string :=
match toFixed x digits with
| Normal s => numeric_text NumberToString s
| Throw _ => EmptyString
end.

(** The two names built from the coordinates alone, as values. *)
Definition waypoint_text (lng lat : number) : value :=
VString ("Waypoint (" ++ fixed_text lat 4 ++ ", " ++ fixed_text lng 4 ++ ")").

Definition location_text (lng lat : number) : value :=
VString ("Location at " ++ fixed_text lat 2 ++ ", " ++ fixed_text lng 2).

End Labels.

End Reads.

(** ** lib/geocoding.ts *)

Module Geocoding.
Import JS Console Reads.

Section ReverseGeocode.

Variable NumberToString : number -> string.
Variable to_number_other : value -> number.
(** [process.env.NEXT_PUBLIC_MAPBOX_TOKEN] *)
Variable token : option string.
Variable fetch : string -> completion Response.

Definition geocoding_url (lng lat : number) (accessToken : string) : string :=
("https://api.mapbox.com/geocoding/v5/mapbox.places/"
   ++ NumberToString lng ++ "," ++ NumberToString lat
   ++ ".json?access_token=" ++ accessToken ++ "&types=poi,place&limit=1")%string.

(** What the [try] block returns for the parsed body. *)
Definition place_name (lng lat : number) (data : value) : completion value :=
found <- has_features to_number_other data ;;
if found : bool then
  features <- get data "features" ;;
  feature <- get_first features ;;
  text <- get feature "text" ;;
  or_else text
    (place_name <- get feature "place_name" ;;
     or_else place_name
       (label <- location_label NumberToString lng lat ;;
        Normal (VString label)))
else
  label <- location_label NumberToString lng lat ;;
  Normal (VString label).

(** The value of the [try] block, effects aside. *)
Definition try_value (lng lat : number) (accessToken : string)
  : completion value :=
response <- fetch (geocoding_url lng lat accessToken) ;;
_ <- (if negb (ok response)
      then Throw (Error ("Geocoding failed: " ++ statusText response))
      else Normal tt) ;;
data <- json response ;;
place_name lng lat data.

(** [reverseGeocode(lng, lat)] *)
Definition reverseGeocode (lng lat : number) : Task value :=
match token with
| None | Some EmptyString =>
    perform _ <- lift (console_error "Mapbox access token not found") ;;
    done (label <- waypoint_label NumberToString lng lat ;;
          Normal (VString label))
| Some accessToken =>
    try_catch
      (let url := geocoding_url lng lat accessToken in
       perform response <- lift (fetch_from fetch url) ;;
       perform _ <- done (if negb (ok response)
                       then Throw (Error ("Geocoding failed: "
                                            ++ statusText response))
                       else Normal tt) ;;
       perform data <- done (json response) ;;
       perform _ <- console_log [data] ;;
       done (place_name lng lat data))
      (fun error =>
         perform _ <- lift (console_error "Error during reverse geocoding:") ;;
         done (label <- waypoint_label NumberToString lng lat ;;
               Normal (VString label)))
end.

End ReverseGeocode.

End Geocoding.

(** ** lib/mapboxSearch.ts: the reverse lookup, the retrieval of a
    suggestion and the session token *)

Module SearchBox.
Import JS Console Reads.

(** The [options] argument of [searchBoxReverseGeocode]. *)
Record ReverseOptions := {
  types : option string;
  language : option string;
  limit : option number;
  country : option string;
}.

(** [interface SearchResult]; the fields other than the coordinates are
    copied unchecked out of the provider's JSON answer. *)
Record SearchResult := {
  name : value;
  mapboxId : value;
  featureType : value;
  address : value;
  placeFormatted : value;
  longitude : number;
  latitude : number;
}.

(** The object written by [console.log('Returning SearchResult:', result)]. *)
Definition result_value (r : SearchResult) : value :=
VObject [("name", name r); ("mapboxId", mapboxId r);
         ("featureType", featureType r); ("address", address r);
         ("placeFormatted", placeFormatted r);
         ("coordinates",
          VObject [("longitude", VNumber (longitude r));
                   ("latitude", VNumber (latitude r))])]%string.

(** [isNaN(x)] for a number. *)
Definition isNaN (x : number) : bool :=
match x with
| S754_nan => true
| _ => false
end.

(** [...(s && { key: s })]: an absent or empty string spreads nothing. *)
Definition spread_if (key : string) (s : option string)
  : list (string * string) :=
match s with
| None | Some EmptyString => []
| Some text => [(key, text)]
end.

(** Both coordinates, when there are any, are numbers. *)
Definition numbers (c : option (number * number)) : Prop :=
forall x y, c = Some (x, y) -> isNaN x = false /\ isNaN y = false.

Section Calls.

Variable NumberToString : number -> string.
Variable to_number_other : value -> number.
Variable URLSearchParams_toString : list (string * string) -> string.
Variable token : option string.
Variable fetch : string -> completion Response.

(** [(options?.limit ?? 1).toString()] *)
Definition limit_text (options : option ReverseOptions) : string :=
match options with
| Some {| limit := Some x |} => NumberToString x
| _ => NumberToString (of_Z 1)
end.

Definition option_of (options : option ReverseOptions)
           (field : ReverseOptions -> option string) : option string :=
match options with
| Some o => field o
| None => None
end.

Definition reverse_params (lng lat : number) (accessToken : string)
           (options : option ReverseOptions) : list (string * string) :=
([("access_token", accessToken);
  ("longitude", NumberToString lng);
  ("latitude", NumberToString lat);
  ("limit", limit_text options)]%string
   ++ spread_if "types" (option_of options types)
   ++ spread_if "language" (option_of options language)
   ++ spread_if "country" (option_of options country))%list.

Definition reverse_url (lng lat : number) (accessToken : string)
           (options : option ReverseOptions) : string :=
("https://api.mapbox.com/search/searchbox/v1/reverse?"
   ++ URLSearchParams_toString (reverse_params lng lat accessToken options))%string.

(** [props.context?.place?.name] *)
Definition city_name (props : value) : completion value :=
context <- get props "context" ;;
place <- get_optional context "place" ;;
get_optional place "name".

(** What the [try] block of [searchBoxReverseGeocode] returns for the
    parsed body. *)
Definition closest_name (lng lat : number) (data : value) : completion value :=
found <- has_features to_number_other data ;;
if found : bool then
  features <- get data "features" ;;
  feature <- get_first features ;;
  props <- get feature "properties" ;;
  cityName <- city_name props ;;
  if ToBoolean cityName then Normal cityName
  else
    name <- get props "name" ;;
    if ToBoolean name then Normal name
    else
      label <- location_label NumberToString lng lat ;;
      Normal (VString label)
else
  label <- location_label NumberToString lng lat ;;
  Normal (VString label).

(** The value of the [try] block, effects aside. *)
Definition reverse_value (lng lat : number) (accessToken : string)
           (options : option ReverseOptions) : completion value :=
response <- fetch (reverse_url lng lat accessToken options) ;;
_ <- (if negb (ok response)
      then Throw (Error ("Search Box reverse geocoding failed: "
                           ++ statusText response))
      else Normal tt) ;;
data <- json response ;;
closest_name lng lat data.

(** [searchBoxReverseGeocode(lng, lat, options)] *)
Definition searchBoxReverseGeocode (lng lat : number)
           (options : option ReverseOptions) : IO value :=
match token with
| None | Some EmptyString =>
    await _ <- console_error "Mapbox access token not found" ;;
    pure (label <- waypoint_label NumberToString lng lat ;;
          Normal (VString label))
| Some accessToken =>
    JS.try_catch
      (let url := reverse_url lng lat accessToken options in
       await response <- fetch_from fetch url ;;
       await _ <- pure (if negb (ok response)
                        then Throw (Error ("Search Box reverse geocoding failed: "
                                             ++ statusText response))
                        else Normal tt) ;;
       await data <- pure (json response) ;;
       pure (closest_name lng lat data))
      (fun error =>
         await _ <- console_error "Error during Search Box reverse geocoding:" ;;
         pure (label <- waypoint_label NumberToString lng lat ;;
               Normal (VString label)))
end.

Definition retrieve_url (mapboxId sessionToken accessToken : string) : string :=
("https://api.mapbox.com/search/searchbox/v1/retrieve/" ++ mapboxId ++ "?"
   ++ URLSearchParams_toString
        [("access_token", accessToken); ("session_token", sessionToken)])%string.

(** The coordinates of a feature: [None] after the [console.error] of one
    of the two checks. *)
Definition checked_coordinates (coords : value)
  : Task (option (number * number)) :=
match coords with
| VArray (first :: second :: _) =>
    let longitude := ToNumber to_number_other first in
    let latitude := ToNumber to_number_other second in
    if isNaN longitude || isNaN latitude then
      perform _ <- lift (console_error "Coordinates are NaN:") ;;
      done (Normal None)
    else done (Normal (Some (longitude, latitude)))
| _ =>
    perform _ <- lift (console_error "Invalid coordinates from API:") ;;
    done (Normal None)
end.

(** The part of the [try] block of [retrieveSearchResult] after the body
    is parsed. *)
Definition search_result (data : value) : Task (option SearchResult) :=
perform _ <- console_log [VString "Retrieve API response:"; data] ;;
perform features <- done (get data "features") ;;
perform feature <- done (get_first_optional features) ;;
if negb (ToBoolean feature) then
  perform _ <- console_warn [VString "No features found in retrieve response"] ;;
  done (Normal None)
else
  perform geometry <- done (get feature "geometry") ;;
  perform coords <- done (get_optional geometry "coordinates") ;;
  perform checked <- checked_coordinates coords ;;
  match checked with
  | None => done (Normal None)
  | Some (longitude, latitude) =>
      perform properties <- done (get feature "properties") ;;
      perform name <- done (n <- get_optional properties "name" ;;
                         or_else n
                           (p <- get feature "place_name" ;;
                            or_else p (Normal (VString "Unknown Location")))) ;;
      perform id <- done (get feature "id") ;;
      perform featureType <- done (t <- get_optional properties "feature_type" ;;
                                or_else t (Normal (VString "unknown"))) ;;
      perform address <- done (a <- get_optional properties "address" ;;
                            or_else a (Normal VUndefined)) ;;
      perform placeFormatted <-
        done (f <- get_optional properties "place_formatted" ;;
              or_else f
                (p <- get feature "place_name" ;;
                 or_else p (Normal (VString "")))) ;;
      let result := {| name := name; mapboxId := id;
                       featureType := featureType; address := address;
                       placeFormatted := placeFormatted;
                       longitude := longitude; latitude := latitude |} in
      perform _ <- console_log [VString "Returning SearchResult:";
                             result_value result] ;;
      done (Normal (Some result))
  end.

(** [retrieveSearchResult(mapboxId, sessionToken)] *)
Definition retrieveSearchResult (mapboxId sessionToken : string)
  : Task (option SearchResult) :=
match token with
| None | Some EmptyString =>
    perform _ <- lift (console_error "Mapbox access token not found") ;;
    done (Normal None)
| Some accessToken =>
    try_catch
      (let url := retrieve_url mapboxId sessionToken accessToken in
       perform response <- lift (fetch_from fetch url) ;;
       perform _ <- done (if negb (ok response)
                       then Throw (Error ("Retrieve search result failed: "
                                            ++ statusText response))
                       else Normal tt) ;;
       perform data <- done (json response) ;;
       search_result data)
      (fun error =>
         perform _ <- lift (console_error "Error retrieving search result:") ;;
         done (Normal None))
end.

End Calls.

End SearchBox.
(** ** Vocabulary for the order of the suggestions *)

Module Ranking.
Import JS MapboxSearch.

Definition nullish (v : value) : bool :=
match v with
| VUndefined | VNull => true
| _ => false
end.

(** [s.key] for an element [s] that is neither [null] nor [undefined]. *)
Definition field (s : value) (key : string) : value :=
match get s key with
| Normal v => v
| Throw _ => VUndefined
end.

(** The suggestion read off an element of the provider's answer. *)
Definition suggestion_of (s : value) : SearchSuggestion :=
{| name := field s "name";
   mapboxId := field s "mapbox_id";
   placeFormatted := field s "place_formatted";
   featureType := field s "feature_type" |}.

(** The elements with their indices, from [index] on. *)
Fixpoint indexed (index : nat) (elements : list value) : list Raw :=
match elements with
| [] => []
| s :: rest =>
    {| suggestion := suggestion_of s; originalIndex := index |}
      :: indexed (S index) rest
end.

(** The place of a feature type in the order place, region, postcode,
    address, anything else. *)
Definition rank (s : SearchSuggestion) : nat :=
match featureType s with
| VString t =>
    (if String.eqb t "place" then 0
     else if String.eqb t "region" then 1
     else if String.eqb t "postcode" then 2
     else if String.eqb t "address" then 3
     else 4)%nat
| _ => 4%nat
end.

(** The priority that the source gives to a rank. *)
Definition priority_of_rank (r : nat) : number :=
match r with
| 0%nat => of_Z 0
| 1%nat => of_Z 1
| 2%nat => of_Z 2
| 3%nat => of_Z 3
| _ => MAX_SAFE_INTEGER
end.

(** The feature type is a string that names no member of Object.prototype,
    or it is absent or otherwise falsy. *)
Definition ordinary (s : SearchSuggestion) : bool :=
match featureType s with
| VString t => negb (existsb (String.eqb t) object_prototype_keys)
| v => negb (ToBoolean v)
end.

(** The value is no object and no array, so that using it as a property
    key cannot throw. *)
Definition primitive (v : value) : bool :=
match v with
| VArray _ | VObject _ => false
| _ => true
end.

(** What [sort] guarantees for a consistent comparator: the result holds
    the same elements, and no element is followed by one that the
    comparator puts before it. *)
Definition sorts (Array_sort : (Ranked -> Ranked -> number) -> list Ranked
                               -> list Ranked)
           (l : list Ranked) : Prop :=
Permutation (Array_sort compare_ranked l) l
/\ StronglySorted (fun a b => ltb zero (compare_ranked a b) = false)
     (Array_sort compare_ranked l).

(** The provider's answer of the repository's test, read as values. *)
Definition test_elements : list value :=
[test_suggestion "Hotel ABC" "poi-1" "Hotel ABC, Salt Lake City" "poi";
 test_suggestion "Salt Lake City" "place-1"
   "Salt Lake City, Utah, United States" "place";
 test_suggestion "Salt Lake City International Airport" "poi-2"
   "Salt Lake City International Airport" "poi"].

Definition test_response : Response :=
{| ok := true; statusText := "OK"; json := Normal test_answer |}.

End Ranking.
(** ** lib/mapboxSearch.ts: [generateSessionToken] *)

Module SessionToken.
Import JS.

(** The integer part of a number, towards zero (0 for NaN and the
    infinities). *)
Definition truncate (x : number) : Z :=
match x with
| S754_finite s m e =>
    let q := Qfloor (to_Q (S754_finite false m e)) in
    if s then - q else q
| _ => 0
end.

(** ToInt32 (ECMA-262 7.1.6), which is what [x | 0] evaluates to. *)
Definition ToInt32 (x : number) : Z :=
let int32bit := truncate x mod 2 ^ 32 in
if 2 ^ 31 <=? int32bit then int32bit - 2 ^ 32 else int32bit.

(** [v.toString(16)] for an integer [v]. *)
Definition hex (n : N) : string :=
HexadecimalString.NilZero.string_of_uint (N.to_hex_uint n).

Definition toString16 (v : Z) : string :=
if v <? 0 then ("-" ++ hex (Z.to_N (- v)))%string else hex (Z.to_N v).

(** [s.replace(/[xy]/g, f)]: the callback is called once for each [x] and
    [y], from left to right; [calls] counts the calls made so far. *)
Fixpoint replace_xy (f : ascii -> nat -> string) (calls : nat) (s : string)
  : string :=
match s with
| EmptyString => EmptyString
| String c rest =>
    if (Ascii.eqb c "x" || Ascii.eqb c "y")%bool
    then (f c calls ++ replace_xy f (S calls) rest)%string
    else String c (replace_xy f calls rest)
end.

Definition template : string := "xxxxxxxx-xxxx-4xxx-yxxx-xxxxxxxxxxxx".

(** [(Math.random() * 16) | 0] for the value [x] of [Math.random()]. *)
Definition draw (x : number) : Z := ToInt32 (mul x (of_Z 16)).

Section Random.

(** [random k] is the value of the call number [k] of [Math.random()]. *)
Variable random : nat -> number.

(** The callback of [replace]. *)
Definition digit (c : ascii) (call : nat) : string :=
let r := draw (random call) in
let v := if Ascii.eqb c "x" then r else Z.lor (Z.land r 3) 8 in
toString16 v.

(** [generateSessionToken()] *)
Definition generateSessionToken : string := replace_xy digit 0 template.

End Random.

(** The format of a version 4 UUID, written as the source writes it: in a
    pattern, [x] stands for a hexadecimal digit, [y] for one of 8, 9, a
    and b, and every other character for itself. *)
Definition is_hex (c : ascii) : bool :=
existsb (Ascii.eqb c) (list_ascii_of_string "0123456789abcdef").

Definition is_variant (c : ascii) : bool :=
existsb (Ascii.eqb c) (list_ascii_of_string "89ab").

Fixpoint matches (pattern s : string) : bool :=
match pattern, s with
| EmptyString, EmptyString => true
| String p pattern', String c s' =>
    (if Ascii.eqb p "x" then is_hex c
     else if Ascii.eqb p "y" then is_variant c
     else Ascii.eqb p c)
    && matches pattern' s'
| _, _ => false
end.

(** The values that [Math.random()] can return (ECMA-262 21.3.2.27): the
    doubles with positive sign that are at least +0 and below 1. *)
Definition unit_interval (x : number) : bool :=
match x with
| S754_zero s => negb s
| S754_finite false m e => valid_binary prec emax x && ltb x (of_Z 1)
| _ => false
end.

(** A source of random numbers that always answers one half. *)
Definition one_half (call : nat) : number := of_decimal false 5 1.

End SessionToken.
(** ** hooks/useSearch.ts

    [suggest] arms a timer; when the timer fires its callback calls
    [getSuggestions] and later resumes with the answer.  A timer is set by
    [setTimeout], can be cleared by [clearTimeout] while it is pending, and
    fires at most once.  [debounceTimerRef.current] keeps the id of the
    last timer set, also after that timer has fired. *)

Module UseSearch.
Import JS MapboxSearch.

Inductive timer_status := Pending | Fired | Cleared.

Record Timer := {
  t_query : string;                 (* the [query] its callback closes over *)
  t_status : timer_status;
}.

(** One call of [getSuggestions] made by a timer callback. *)
Record Call := {
  c_query : string;
  c_sessionToken : string;
  c_settled : bool;
}.

Record State := {
  suggestions : list SearchSuggestion;   (* useState([]) *)
  loading : bool;                        (* useState(false) *)
  error : option string;                 (* useState(null) *)
  sessionToken : string;                 (* sessionTokenRef.current *)
  debounceTimer : option nat;            (* debounceTimerRef.current *)
  timers : list Timer;                   (* in order of creation *)
  calls : list Call;                     (* in order of creation *)
}.

Inductive event :=
(** [suggest(query)] *)
| Suggest (query : string)
(** the callback of timer [k] runs up to its [await] *)
| Timeout (k : nat)
(** the [await getSuggestions(...)] of call [j] resumes *)
| Settle (j : nat) (results : completion (list SearchSuggestion))
(** the [await retrieveSearchResult(...)] of [retrieve] resumes *)
| Retrieve (result : completion (option SearchBox.SearchResult))
(** [resetSession()], with the token that [generateSessionToken] returns *)
| ResetSession (token : string)
(** [clearSuggestions()] *)
| ClearSuggestions.

(** The state after [useRef(generateSessionToken())]. *)
Definition initial (token : string) : State :=
{| suggestions := []; loading := false; error := None; sessionToken := token;
   debounceTimer := None; timers := []; calls := [] |}.

Definition update_nth {A} (k : nat) (f : A -> A) (l : list A) : list A :=
UseRoute.update_nth k f l.

(** [clearTimeout(id)] *)
Definition clear (t : Timer) : Timer :=
match t_status t with
| Pending => {| t_query := t_query t; t_status := Cleared |}
| _ => t
end.

Definition is_pending (t : Timer) : bool :=
match t_status t with
| Pending => true
| _ => false
end.

Definition fire (t : Timer) : Timer :=
{| t_query := t_query t; t_status := Fired |}.

Definition settle (c : Call) : Call :=
{| c_query := c_query c; c_sessionToken := c_sessionToken c;
   c_settled := true |}.

Section Hook.

(** [String.prototype.trim] *)
Variable trim : string -> string.
(** [err.message]: every exception of the model is an [Error]. *)
Variable message : exn -> string.

(** [suggest(query)] *)
Definition suggest (query : string) (s : State) : State :=
if String.eqb (trim query) EmptyString then
  (* setSuggestions([]); setError(null); return; *)
  {| suggestions := []; loading := loading s; error := None;
     sessionToken := sessionToken s; debounceTimer := debounceTimer s;
     timers := timers s; calls := calls s |}
else
  let cleared :=
    match debounceTimer s with
    | Some k => update_nth k clear (timers s)
    | None => timers s
    end in
  {| suggestions := suggestions s; loading := loading s; error := error s;
     sessionToken := sessionToken s;
     debounceTimer := Some (List.length cleared);
     timers := cleared ++ [{| t_query := query; t_status := Pending |}];
     calls := calls s |}.

(** The callback of timer [k], up to its [await]. *)
Definition timeout (k : nat) (s : State) : State :=
match nth_error (timers s) k with
| Some {| t_query := query; t_status := Pending |} =>
    (* setLoading(true); setError(null); getSuggestions(query, token, ...) *)
    {| suggestions := suggestions s; loading := true; error := None;
       sessionToken := sessionToken s; debounceTimer := debounceTimer s;
       timers := update_nth k fire (timers s);
       calls := calls s ++ [{| c_query := query;
                               c_sessionToken := sessionToken s;
                               c_settled := false |}] |}
| _ => s
end.

(** The callback after its [await]: [try], [catch] and [finally]. *)
Definition resume (j : nat) (results : completion (list SearchSuggestion))
           (s : State) : State :=
match nth_error (calls s) j with
| Some {| c_settled := false |} =>
    match results with
    | Normal found =>
        {| suggestions := found; loading := false; error := error s;
           sessionToken := sessionToken s; debounceTimer := debounceTimer s;
           timers := timers s; calls := update_nth j settle (calls s) |}
    | Throw err =>
        {| suggestions := []; loading := false; error := Some (message err);
           sessionToken := sessionToken s; debounceTimer := debounceTimer s;
           timers := timers s; calls := update_nth j settle (calls s) |}
    end
| _ => s
end.

(** [retrieve(mapboxId)] after its [await]: the [catch] sets the error. *)
Definition retrieve (result : completion (option SearchBox.SearchResult))
           (s : State) : State :=
match result with
| Normal _ => s
| Throw err =>
    {| suggestions := suggestions s; loading := loading s;
       error := Some (message err); sessionToken := sessionToken s;
       debounceTimer := debounceTimer s; timers := timers s;
       calls := calls s |}
end.

(** [resetSession()] *)
Definition resetSession (token : string) (s : State) : State :=
{| suggestions := []; loading := loading s; error := None;
   sessionToken := token; debounceTimer := debounceTimer s;
   timers := timers s; calls := calls s |}.

(** [clearSuggestions()] *)
Definition clearSuggestions (s : State) : State :=
{| suggestions := []; loading := loading s; error := error s;
   sessionToken := sessionToken s; debounceTimer := debounceTimer s;
   timers := timers s; calls := calls s |}.

Definition step (s : State) (e : event) : State :=
match e with
| Suggest query => suggest query s
| Timeout k => timeout k s
| Settle j results => resume j results s
| Retrieve result => retrieve result s
| ResetSession token => resetSession token s
| ClearSuggestions => clearSuggestions s
end.

Definition run (token : string) (trace : list event) : State :=
fold_left step trace (initial token).

(** The queries of the timers that are still to fire. *)
Definition pending (s : State) : list string :=
map t_query (filter is_pending (timers s)).

(** The last query that is not blank. *)
Fixpoint last_query (queries : list string) : option string :=
match queries with
| [] => None
| q :: rest =>
    match last_query rest with
    | Some later => Some later
    | None => if String.eqb (trim q) EmptyString then None else Some q
    end
end.

End Hook.

(** At most one timer is pending, and it is the one the ref holds. *)
Definition one_timer (s : State) : Prop :=
filter is_pending (timers s) = []
\/ exists k t, debounceTimer s = Some k /\ nth_error (timers s) k = Some t
               /\ filter is_pending (timers s) = [t].

(** A [trim] for the samples: queries without white space at either
    end. *)
Definition trimmed (s : string) : string := s.
Definition any_message (e : exn) : string := "Failed to fetch suggestions".

End UseSearch.
(** ** The database: lib/db/schema.ts and the SQL of docs/

    Two tables.  A primary key is unique, [waypoints.route_id] references
    [routes.id] with ON DELETE CASCADE, and latitude and longitude are
    [decimal(10, 8)] and [decimal(11, 8)]: exact decimals with eight
    fractional digits, kept here as the integer [value * 10^8].  The
    [is_public] column of [routes] and the timestamp and description
    columns of [waypoints], which no function below reads or writes, are
    left out. *)

Module Storage.
Import JS.

Definition uuid : Type := string.
Definition decimal : Type := Z.

Record RouteRow := {
  r_id : uuid;
  r_user_id : option string;
  r_name : string;
  r_description : option string;
  r_created_at : N;
  r_updated_at : N;
}.

Record WaypointRow := {
  w_id : uuid;
  w_route_id : uuid;
  w_position : Z;
  w_latitude : decimal;
  w_longitude : decimal;
  w_name : option string;
}.

Record Database := {
  routes : list RouteRow;
  waypoints : list WaypointRow;
}.

(** The values of an INSERT into [waypoints]; the two coordinates are the
    decimals that the texts handed to the driver denote. *)
Record NewWaypoint := {
  nw_route_id : uuid;
  nw_position : Z;
  nw_latitude : Q;
  nw_longitude : Q;
  nw_name : option string;
}.

Definition option_string_eqb (a b : option string) : bool :=
match a, b with
| Some x, Some y => String.eqb x y
| None, None => true
| _, _ => false
end.

(** *** Column types *)

(** Rounding to an integer, halves away from zero, as PostgreSQL rounds a
    numeric to the scale of its column. *)
Definition round_half_away (q : Q) : Z :=
if Qle_bool 0 q then Qfloor (q + (1 # 2)) else - Qfloor (- q + (1 # 2)).

(** Storing [q] in a [decimal(precision, 8)] column. *)
Definition to_decimal (precision : Z) (q : Q) : completion decimal :=
let v := round_half_away (q * inject_Z (10 ^ 8)) in
if Z.abs v <? 10 ^ precision then Normal v
else Throw (PostgresError "22003 numeric field overflow").

(** *** Statements, as functions on the committed database *)

Definition has_route (id : uuid) (d : Database) : bool :=
existsb (fun r => String.eqb (r_id r) id) (routes d).

Definition has_waypoint (id : uuid) (d : Database) : bool :=
existsb (fun w => String.eqb (w_id w) id) (waypoints d).

(** INSERT INTO routes ... RETURNING * *)
Definition insert_route (id : uuid) (now : N) (user_id : option string)
           (name : string) (description : option string) (d : Database)
  : completion (Database * RouteRow) :=
if has_route id d then Throw (PostgresError "23505 unique_violation")
else
  let row := {| r_id := id; r_user_id := user_id; r_name := name;
                r_description := description;
                r_created_at := now; r_updated_at := now |} in
  Normal ({| routes := routes d ++ [row]; waypoints := waypoints d |}, row).

(** INSERT INTO waypoints VALUES (...), (...) RETURNING *: the rows are
    checked and added one after the other; an error anywhere fails the
    whole statement. *)
Fixpoint insert_waypoints (gen : nat -> uuid) (j : nat)
         (values : list NewWaypoint) (d : Database)
  : completion (Database * list WaypointRow) :=
match values with
| [] => Normal (d, [])
| v :: rest =>
    lat <- to_decimal 10 (nw_latitude v) ;;
    lng <- to_decimal 11 (nw_longitude v) ;;
    if negb (has_route (nw_route_id v) d)
    then Throw (PostgresError "23503 foreign_key_violation")
    else if has_waypoint (gen j) d
    then Throw (PostgresError "23505 unique_violation")
    else
      let row := {| w_id := gen j; w_route_id := nw_route_id v;
                    w_position := nw_position v;
                    w_latitude := lat; w_longitude := lng;
                    w_name := nw_name v |} in
      r <- insert_waypoints gen (S j) rest
             {| routes := routes d; waypoints := waypoints d ++ [row] |} ;;
      Normal (fst r, row :: snd r)
end.

(** *** The order of the rows of a SELECT

    A table is a set of rows; the list that holds it here is in order of
    insertion.  A statement meets the rows in an order of its own, which
    PostgreSQL does not specify: [place id] is where the statement finds
    the row with the key [id], and [seq_scan] delivers the rows by
    increasing place.  ORDER BY sorts what the scan delivers and leaves
    rows with equal keys in the order of the scan, so the order of such
    rows is not specified either. *)

Section Sorting.

Context {A : Type}.
(** [before x y]: [x] may stand before [y]. *)
Variable before : A -> A -> bool.

Fixpoint insert_by (x : A) (l : list A) : list A :=
match l with
| [] => [x]
| y :: rest =>
    if before x y then x :: y :: rest else y :: insert_by x rest
end.

(** A stable sort. *)
Definition sort_by (l : list A) : list A := fold_right insert_by [] l.

End Sorting.

Definition seq_scan {A} (key : A -> uuid) (place : uuid -> Z) (rows : list A)
  : list A :=
sort_by (fun x y => place (key x) <=? place (key y)) rows.

(** ORDER BY position (ascending) *)
Definition order_by_position (l : list WaypointRow) : list WaypointRow :=
sort_by (fun w x => w_position w <=? w_position x) l.

(** DELETE FROM waypoints WHERE ... RETURNING * *)
Definition delete_waypoints (cond : WaypointRow -> bool) (d : Database)
  : Database * list WaypointRow :=
({| routes := routes d;
    waypoints := filter (fun w => negb (cond w)) (waypoints d) |},
 filter cond (waypoints d)).

(** DELETE FROM routes WHERE ... RETURNING *, with the cascade *)
Definition delete_routes (cond : RouteRow -> bool) (d : Database)
  : Database * list RouteRow :=
let gone := filter cond (routes d) in
({| routes := filter (fun r => negb (cond r)) (routes d);
    waypoints :=
      filter (fun w => negb (existsb (fun r => String.eqb (r_id r) (w_route_id w))
                               gone))
        (waypoints d) |},
 gone).

(** UPDATE routes SET ... WHERE ... RETURNING * *)
Definition update_routes (cond : RouteRow -> bool) (assign : RouteRow -> RouteRow)
           (d : Database) : Database * list RouteRow :=
({| routes := map (fun r => if cond r then assign r else r) (routes d);
    waypoints := waypoints d |},
 map assign (filter cond (routes d))).

(** *** A request against the database

    A request runs its statements in order.  Statement number [k] of the
    request fails in transport when [transport_fails k]; it draws its
    [gen_random_uuid()] values from [gen_random_uuid k] and finds the rows
    it scans at [place k]; [now] is the time of the request.  Outside a
    transaction every successful statement commits, and [commits] lists
    the committed states in order: these are the states other clients can
    observe. *)

Record Env := {
  now : N;
  gen_random_uuid : nat -> nat -> uuid;
  transport_fails : nat -> bool;
  place : nat -> uuid -> Z;
}.

Record Session := {
  db : Database;
  tick : nat;
  commits : list Database;
}.

Definition M (A : Type) : Type := Env -> Session -> Session * completion A.

Definition ret {A} (a : A) : M A := fun _ s => (s, Normal a).

Definition throw {A} (e : exn) : M A := fun _ s => (s, Throw e).

Definition mbind {A B} (c : M A) (k : A -> M B) : M B :=
fun env s =>
  match c env s with
  | (s', Normal a) => k a env s'
  | (s', Throw e) => (s', Throw e)
  end.

Definition connection_lost : exn := PostgresError "08006 connection_failure".

(** A statement that writes. *)
Definition execute {A}
           (statement : Env -> nat -> Database -> completion (Database * A))
  : M A :=
fun env s =>
  let k := tick s in
  if transport_fails env k
  then ({| db := db s; tick := S k; commits := commits s |},
        Throw connection_lost)
  else
    match statement env k (db s) with
    | Normal (d, a) =>
        ({| db := d; tick := S k; commits := commits s ++ [d] |}, Normal a)
    | Throw e =>
        ({| db := db s; tick := S k; commits := commits s |}, Throw e)
    end.

(** A statement that reads a value that does not depend on the order of
    the rows (at most one row has a given primary key). *)
Definition query {A} (select : Database -> A) : M A :=
fun env s =>
  let k := tick s in
  if transport_fails env k
  then ({| db := db s; tick := S k; commits := commits s |},
        Throw connection_lost)
  else ({| db := db s; tick := S k; commits := commits s |},
        Normal (select (db s))).

(** A statement that reads rows, in the order in which it finds them. *)
Definition query_rows {A} (select : (uuid -> Z) -> Database -> A) : M A :=
fun env s =>
  let k := tick s in
  if transport_fails env k
  then ({| db := db s; tick := S k; commits := commits s |},
        Throw connection_lost)
  else ({| db := db s; tick := S k; commits := commits s |},
        Normal (select (place env k) (db s))).

(** [db.transaction(async (tx) => body)]: the statements of [body] work on
    the transaction's own view; when [body] returns, COMMIT publishes the
    view in one step; when [body] throws, or COMMIT fails, the view is
    dropped and the error is thrown on. *)
Definition transaction {A} (body : M A) : M A :=
fun env s =>
  match body env {| db := db s; tick := tick s; commits := [] |} with
  | (s', Normal a) =>
      if transport_fails env (tick s')
      then ({| db := db s; tick := S (tick s'); commits := commits s |},
            Throw connection_lost)
      else ({| db := db s'; tick := S (tick s');
               commits := commits s ++ [db s'] |}, Normal a)
  | (s', Throw e) =>
      ({| db := db s; tick := tick s'; commits := commits s |}, Throw e)
  end.

(** Running a request on a database. *)
Definition start (d : Database) : Session :=
{| db := d; tick := 0; commits := [] |}.

(** The waypoints stored for a route, in table order. *)
Definition waypoints_of (route : uuid) (d : Database) : list WaypointRow :=
filter (fun w => String.eqb (w_route_id w) route) (waypoints d).

(** SELECT * FROM waypoints WHERE route_id = route ORDER BY position *)
Definition select_by_position (place : uuid -> Z) (route : uuid) (d : Database)
  : list WaypointRow :=
order_by_position (seq_scan w_id place (waypoints_of route d)).

(** Referential integrity: every waypoint belongs to a stored route. *)
Definition referential_integrity (d : Database) : Prop :=
Forall (fun w => has_route (w_route_id w) d = true) (waypoints d).

(** A route row without any waypoint row. *)
Definition orphaned (route : uuid) (d : Database) : Prop :=
has_route route d = true /\ waypoints_of route d = [].

End Storage.

Notation "'let*' x ':=' c1 'in' c2" := (Storage.mbind c1 (fun x => c2))
  (at level 10, x name, c1 at level 100, c2 at level 200).

(** ** lib/db/repositories/routes.ts and waypoints.ts (Drizzle) *)

Module RouteRepository.
Import JS Storage.

Definition owned_route (routeId : uuid) (userId : string) (r : RouteRow) : bool :=
String.eqb (r_id r) routeId && option_string_eqb (r_user_id r) (Some userId).

(** [createRoute(userId, routeData)] *)
Definition createRoute (userId : string) (name : string)
           (description : option string) : M RouteRow :=
execute (fun env k =>
           insert_route (gen_random_uuid env k 0) (now env) (Some userId)
             name description).

(** [getRouteWithWaypoints(routeId, userId)] *)
Definition getRouteWithWaypoints (routeId : uuid) (userId : string)
  : M (option (RouteRow * list WaypointRow)) :=
let* found := query (fun d => filter (owned_route routeId userId) (routes d)) in
match found with
| [] => ret None
| route :: _ =>
    let* routeWaypoints :=
      query_rows (fun place d => select_by_position place routeId d) in
    ret (Some (route, routeWaypoints))
end.

(** [updateRoute(routeId, userId, updateData)], where [updateData] holds an
    optional [name] and an optional [description]. *)
Definition updateRoute (routeId : uuid) (userId : string)
           (name : option string) (description : option string)
  : M (option RouteRow) :=
let* updated :=
  execute (fun env k d =>
             Normal (update_routes (owned_route routeId userId)
                       (fun r =>
                          {| r_id := r_id r; r_user_id := r_user_id r;
                             r_name := match name with
                                       | Some n => n
                                       | None => r_name r
                                       end;
                             r_description := match description with
                                              | Some x => Some x
                                              | None => r_description r
                                              end;
                             r_created_at := r_created_at r;
                             r_updated_at := now env |}) d)) in
ret (List.hd_error updated).

(** [deleteRoute(routeId, userId)] *)
Definition deleteRoute (routeId : uuid) (userId : string) : M (option RouteRow) :=
let* deleted :=
  execute (fun env k d => Normal (delete_routes (owned_route routeId userId) d)) in
ret (List.hd_error deleted).

End RouteRepository.

Module WaypointRepository.
Import JS Storage.

(** [createWaypoint(waypointData)] *)
Definition createWaypoint (waypointData : NewWaypoint) : M (option WaypointRow) :=
let* rows :=
  execute (fun env k => insert_waypoints (gen_random_uuid env k) 0 [waypointData]) in
ret (List.hd_error rows).

(** [createWaypoints(waypointsData)] *)
Definition createWaypoints (waypointsData : list NewWaypoint)
  : M (list WaypointRow) :=
match waypointsData with
| [] => ret []
| _ => execute (fun env k => insert_waypoints (gen_random_uuid env k) 0 waypointsData)
end.

(** [getWaypointsByRouteId(routeId)] *)
Definition getWaypointsByRouteId (routeId : uuid) : M (list WaypointRow) :=
query_rows (fun place d => select_by_position place routeId d).

(** [deleteWaypoint(waypointId)] *)
Definition deleteWaypoint (waypointId : uuid) : M (option WaypointRow) :=
let* deleted :=
  execute (fun env k d =>
             Normal (delete_waypoints (fun w => String.eqb (w_id w) waypointId) d)) in
ret (List.hd_error deleted).

(** [deleteWaypointsByRouteId(routeId)] *)
Definition deleteWaypointsByRouteId (routeId : uuid) : M unit :=
let* _ :=
  execute (fun env k d =>
             Normal (delete_waypoints (fun w => String.eqb (w_route_id w) routeId) d)) in
ret tt.

(** [replaceWaypoints(routeId, waypointsData)] *)
Definition replaceWaypoints (routeId : uuid) (waypointsData : list NewWaypoint)
  : M unit :=
transaction
  (let* _ :=
     execute (fun env k d =>
                Normal (delete_waypoints
                          (fun w => String.eqb (w_route_id w) routeId) d)) in
   match waypointsData with
   | [] => ret tt
   | _ =>
       let* _ :=
         execute (fun env k =>
                    insert_waypoints (gen_random_uuid env k) 0 waypointsData) in
       ret tt
   end).

End WaypointRepository.

(** ** The tRPC procedures *)

Module Trpc.
Import JS Storage.

(** [interface Context] of lib/trpc/init.ts, as far as the procedures read
    it. *)
Record Context := {
  userId : option string;
}.

(** [protectedProcedure]: the middleware throws unless [ctx.userId] is
    truthy, and passes the narrowed [userId] on. *)
Definition protectedProcedure {A} (ctx : Context) (resolver : string -> M A)
  : M A :=
match userId ctx with
| None | Some EmptyString =>
    throw (TRPCError "UNAUTHORIZED" "You must be signed in to perform this action")
| Some user => resolver user
end.

(** The element of the [waypoints] array of an input. *)
Record WaypointInput := {
  latitude : number;
  longitude : number;
  name : option string;
}.

Record CreateInput := {
  c_name : string;
  c_description : option string;
  c_waypoints : list WaypointInput;
}.

Record UpdateInput := {
  u_id : uuid;
  u_name : option string;
  u_description : option string;
  u_waypoints : option (list WaypointInput);
}.

(** [z.number()] accepts the finite doubles: zod rejects NaN, and JSON
    cannot carry an infinity. *)
Definition z_number (x : number) : bool := is_finite x.

Definition z_waypoint (w : WaypointInput) : bool :=
z_number (latitude w) && z_number (longitude w).

(** [.input(schema)]: a value that does not parse is a BAD_REQUEST. *)
Definition input {A} (valid : bool) (resolver : M A) : M A :=
if valid then resolver
else throw (TRPCError "BAD_REQUEST" "Input validation failed").

(** [waypoints.map((wp, index) => ...)] *)
Fixpoint map_index {A B} (f : A -> nat -> B) (index : nat) (l : list A) : list B :=
match l with
| [] => []
| x :: rest => f x index :: map_index f (S index) rest
end.

End Trpc.

(** *** lib/trpc/routes.ts on the Drizzle repositories *)

Module DrizzleRouter.
Import JS Storage Trpc.

Section Router.

(** The decimal that [Number.prototype.toString] prints for a finite
    double. *)
Variable toString : number -> Q.
(** [z.string().uuid()] *)
Variable is_uuid : string -> bool.

Definition waypointsData (routeId : uuid) (waypoints : list WaypointInput)
  : list NewWaypoint :=
map_index (fun wp index =>
             {| nw_route_id := routeId;
                nw_latitude := toString (latitude wp);
                nw_longitude := toString (longitude wp);
                nw_name := name wp;
                nw_position := Z.of_nat index |})
  0 waypoints.

(** [create] *)
Definition create (ctx : Context) (i : CreateInput) : M RouteRow :=
protectedProcedure ctx (fun userId =>
  input (negb (String.eqb (c_name i) EmptyString)
         && forallb z_waypoint (c_waypoints i))
    (let* route :=
       RouteRepository.createRoute userId (c_name i) (c_description i) in
     let* _ :=
       match c_waypoints i with
       | [] => ret tt
       | _ =>
           let* _ :=
             WaypointRepository.createWaypoints
               (waypointsData (r_id route) (c_waypoints i)) in
           ret tt
       end in
     ret route)).

(** [get] *)
Definition get (ctx : Context) (id : uuid)
  : M (RouteRow * list WaypointRow) :=
input (is_uuid id)
  (match userId ctx with
   | None | Some EmptyString => throw (Error "Unauthorized")
   | Some user =>
       let* route := RouteRepository.getRouteWithWaypoints id user in
       match route with
       | None => throw (Error "Route not found")
       | Some r => ret r
       end
   end).

(** [update] *)
Definition update (ctx : Context) (i : UpdateInput) : M unit :=
protectedProcedure ctx (fun userId =>
  input (is_uuid (u_id i)
         && match u_waypoints i with
            | Some ws => forallb z_waypoint ws
            | None => true
            end)
    (let* _ :=
       match u_name i, u_description i with
       | None, None => ret tt
       | _, _ =>
           let* updated :=
             RouteRepository.updateRoute (u_id i) userId (u_name i)
               (u_description i) in
           match updated with
           | None =>
               throw (Error "Unauthorized: You can only update your own routes")
           | Some _ => ret tt
           end
       end in
     let* _ :=
       match u_waypoints i with
       | Some waypoints =>
           WaypointRepository.replaceWaypoints (u_id i)
             (waypointsData (u_id i) waypoints)
       | None => ret tt
       end in
     ret tt)).

(** [delete] *)
Definition delete (ctx : Context) (id : uuid) : M unit :=
protectedProcedure ctx (fun userId =>
  input (is_uuid id)
    (let* deleted := RouteRepository.deleteRoute id userId in
     match deleted with
     | None => throw (Error "Unauthorized: You can only delete your own routes")
     | Some _ => ret tt
     end)).

(** [removeWaypoint] *)
Definition removeWaypoint (ctx : Context) (id : uuid) : M unit :=
protectedProcedure ctx (fun userId =>
  input (is_uuid id)
    (let* deleted := WaypointRepository.deleteWaypoint id in
     match deleted with
     | None => throw (Error "Waypoint not found")
     | Some _ => ret tt
     end)).

End Router.

End DrizzleRouter.

(** *** The remaining procedures of the Drizzle router: [list] and
    [addWaypoint], and the router as a whole *)

Module DrizzleProcedures.
Import JS Storage Trpc.

(** ORDER BY created_at DESC *)
Definition order_by_created_at_desc (l : list RouteRow) : list RouteRow :=
sort_by (fun r x => (r_created_at x <=? r_created_at r)%N) l.

(** [getRoutesByUserId(userId)] of lib/db/repositories/routes.ts *)
Definition getRoutesByUserId (userId : string) : M (list RouteRow) :=
query_rows (fun place d =>
              order_by_created_at_desc
                (seq_scan r_id place
                   (filter (fun r => option_string_eqb (r_user_id r) (Some userId))
                      (routes d)))).

(** [Promise.all(items.map(f))]: every [f item] is started, in array order;
    the result is the array of their values, or the rejection of an element
    that was rejected. *)
Fixpoint promise_all {A B} (f : A -> M B) (items : list A) : M (list B) :=
fun env s =>
  match items with
  | [] => (s, Normal [])
  | item :: rest =>
      let (s1, first) := f item env s in
      let (s2, others) := promise_all f rest env s1 in
      (s2, y <- first ;; ys <- others ;; Normal (y :: ys))
  end.

(** The input of [addWaypoint]. *)
Record AddWaypointInput := {
  a_routeId : uuid;
  a_latitude : number;
  a_longitude : number;
  a_name : option string;
}.

(** [Math.max(...positions) + 1] for a non-empty array, [0] for the empty
    one.  The positions are values of an [integer] column, on which the
    arithmetic of doubles is exact. *)
Definition nextPosition (existingWaypoints : list WaypointRow) : Z :=
match map w_position existingWaypoints with
| [] => 0
| p :: rest => fold_left Z.max rest p + 1
end.

(** [routeRouter = router({ create, list, get, update, delete, addWaypoint,
    removeWaypoint })]: a request names a procedure and carries its
    input. *)
Inductive request :=
| Create (i : CreateInput)
| List
| Get (id : uuid)
| Update (i : UpdateInput)
| Delete (id : uuid)
| AddWaypoint (i : AddWaypointInput)
| RemoveWaypoint (id : uuid).

Inductive response :=
| Route (route : RouteRow)
| Routes (routes : list (RouteRow * list WaypointRow))
| RouteWithWaypoints (route : RouteRow * list WaypointRow)
| Waypoint (waypoint : option WaypointRow)
| Success.

(** The procedures built on [protectedProcedure]. *)
Definition is_protected (r : request) : bool :=
match r with
| List | Get _ => false
| _ => true
end.

Section Router.

Variable toString : number -> Q.
Variable is_uuid : string -> bool.

(** [addWaypoint].  The range check of the [integer] column [position] is
    not part of the model: the statements about [addWaypoint] are for
    routes whose positions are below 2^31 - 1. *)
Definition addWaypoint (ctx : Context) (i : AddWaypointInput)
  : M (option WaypointRow) :=
protectedProcedure ctx (fun userId =>
  input (is_uuid (a_routeId i)
         && z_number (a_latitude i) && z_number (a_longitude i))
    (let* route :=
       RouteRepository.getRouteWithWaypoints (a_routeId i) userId in
     match route with
     | None =>
         throw (Error "Unauthorized: You can only add waypoints to your own routes")
     | Some _ =>
         let* existingWaypoints :=
           WaypointRepository.getWaypointsByRouteId (a_routeId i) in
         let* waypoint :=
           WaypointRepository.createWaypoint
             {| nw_route_id := a_routeId i;
                nw_latitude := toString (a_latitude i);
                nw_longitude := toString (a_longitude i);
                nw_name := a_name i;
                nw_position := nextPosition existingWaypoints |} in
         ret waypoint
     end)).

(** [list] *)
Definition list (ctx : Context)
  : M (Datatypes.list (RouteRow * Datatypes.list WaypointRow)) :=
match userId ctx with
| None | Some EmptyString => ret []
| Some user =>
    let* routes := getRoutesByUserId user in
    promise_all
      (fun route =>
         let* waypoints :=
           WaypointRepository.getWaypointsByRouteId (r_id route) in
         ret (route, waypoints))
      routes
end.

Definition serve (ctx : Context) (r : request) : M response :=
match r with
| Create i =>
    let* route := DrizzleRouter.create toString ctx i in ret (Route route)
| List => let* routes := list ctx in ret (Routes routes)
| Get id =>
    let* route := DrizzleRouter.get is_uuid ctx id in
    ret (RouteWithWaypoints route)
| Update i =>
    let* _ := DrizzleRouter.update toString is_uuid ctx i in ret Success
| Delete id => let* _ := DrizzleRouter.delete is_uuid ctx id in ret Success
| AddWaypoint i => let* waypoint := addWaypoint ctx i in ret (Waypoint waypoint)
| RemoveWaypoint id =>
    let* _ := DrizzleRouter.removeWaypoint is_uuid ctx id in ret Success
end.

(** Requests arrive one after the other, each from its own caller and with
    its own environment; each starts on the database the previous one left
    and the committed states add up. *)
Definition serve_all (requests : Datatypes.list (Context * request * Env))
           (s : Session) : Session :=
fold_left
  (fun s '(ctx, r, env) =>
     let s' := fst (serve ctx r env (start (db s))) in
     {| db := db s'; tick := 0; commits := commits s ++ commits s' |})
  requests s.

End Router.

(** Within a route no two waypoints have the same position.  The schema
    has no constraint that asks for it: it is for the procedures that
    number the waypoints to keep. *)
Definition distinct_positions (d : Database) : Prop :=
forall route, NoDup (map w_position (waypoints_of route d)).

Definition well_numbered (d : Database) : Prop :=
referential_integrity d /\ distinct_positions d.

(** Started on a well-numbered database that satisfies [pre], with only
    well-numbered states committed so far, the computation leaves a
    well-numbered database, has committed only well-numbered states, and
    a value it returns satisfies [post] on the database it leaves. *)
Definition keeps_numbering {A} (pre : Database -> Prop) (c : M A)
           (post : A -> Database -> Prop) : Prop :=
forall env s,
  pre (db s) -> well_numbered (db s) -> Forall well_numbered (commits s) ->
  well_numbered (db (fst (c env s)))
  /\ Forall well_numbered (commits (fst (c env s)))
  /\ forall a, snd (c env s) = Normal a -> post a (db (fst (c env s))).

(** The rows are in non-decreasing order of position. *)
Definition by_position (rows : Datatypes.list WaypointRow) : Prop :=
Sorted (fun a b => w_position a <= w_position b) rows.

(** The routes are newest first. *)
Definition newest_first (rows : Datatypes.list RouteRow) : Prop :=
Sorted (fun a b => (r_created_at b <= r_created_at a)%N) rows.

(** A coordinate pair printed within the bounds of the globe. *)
Definition on_the_globe (toString : number -> Q) (wp : WaypointInput) : Prop :=
(Qabs (toString (latitude wp)) <= 90)%Q
/\ (Qabs (toString (longitude wp)) <= 180)%Q.

(** The values of an INSERT whose coordinates fit their columns. *)
Definition fits (v : NewWaypoint) : Prop :=
exists lat lng,
  to_decimal 10 (nw_latitude v) = Normal lat
  /\ to_decimal 11 (nw_longitude v) = Normal lng.

End DrizzleProcedures.
(** *** lib/trpc/routes.ts on the Supabase client

    A call of the Supabase client never throws: it resolves to
    [{ data, error }].  Each call is one autocommitted statement. *)

Module Supabase.
Import JS Storage Trpc.

(** [{ data, error }] *)
Definition result (A : Type) : Type := (option A * option exn)%type.

Definition data {A} (r : result A) : option A := fst r.
Definition error {A} (r : result A) : option exn := snd r.

Definition call {A} (c : M A) : M (result A) :=
fun env s =>
  match c env s with
  | (s', Normal a) => (s', Normal (Some a, None))
  | (s', Throw e) => (s', Normal (None, Some e))
  end.

(** [.single()]: exactly one row, or an error. *)
Definition single {A} (rows : list A) : completion A :=
match rows with
| [row] => Normal row
| _ => Throw (PostgresError "PGRST116 not exactly one row")
end.

(** [if (error) throw error;] *)
Definition throw_if_error {A} (r : result A) : M unit :=
match error r with
| Some e => throw e
| None => ret tt
end.

Section Calls.

Variable toString : number -> Q.

(** [from('routes').insert({ name, description, user_id }).select().single()] *)
Definition insert_route_single (name : string) (description : option string)
           (user_id : option string) : M (result RouteRow) :=
call (execute (fun env k =>
                 insert_route (gen_random_uuid env k 0) (now env) user_id
                   name description)).

(** The rows built by [waypoints.map((wp, index) => ...)]. *)
Definition waypointsData (routeId : uuid) (waypoints : list WaypointInput)
  : list NewWaypoint :=
map_index (fun wp index =>
             {| nw_route_id := routeId;
                nw_latitude := toString (latitude wp);
                nw_longitude := toString (longitude wp);
                nw_name := name wp;
                nw_position := Z.of_nat index |})
  0 waypoints.

(** [from('waypoints').insert(waypointsData)] *)
Definition insert_waypoints_call (values : list NewWaypoint) : M (result unit) :=
call (let* _ :=
        execute (fun env k => insert_waypoints (gen_random_uuid env k) 0 values) in
      ret tt).

(** [from('waypoints').delete().eq(column, value)] *)
Definition delete_waypoints_call (cond : WaypointRow -> bool) : M (result unit) :=
call (let* _ := execute (fun env k d => Normal (delete_waypoints cond d)) in
      ret tt).

(** [from('routes').update({ ..., updated_at }).eq('id', id)] *)
Definition update_route_call (id : uuid) (name description : option string)
  : M (result unit) :=
call (let* _ :=
        execute (fun env k d =>
                   Normal (update_routes (fun r => String.eqb (r_id r) id)
                             (fun r =>
                                {| r_id := r_id r; r_user_id := r_user_id r;
                                   r_name := match name with
                                             | Some n => n
                                             | None => r_name r
                                             end;
                                   r_description :=
                                     match description with
                                     | Some x => Some x
                                     | None => r_description r
                                     end;
                                   r_created_at := r_created_at r;
                                   r_updated_at := now env |}) d)) in
      ret tt).

(** [from('waypoints').select('route_id').eq('id', id).single()] *)
Definition select_waypoint_route (id : uuid) : M (result uuid) :=
call (fun env s =>
        match query (fun d => filter (fun w => String.eqb (w_id w) id)
                                (waypoints d)) env s with
        | (s', Normal rows) =>
            (s', x <- single rows ;; Normal (w_route_id x))
        | (s', Throw e) => (s', Throw e)
        end).

(** [from('routes').select('user_id').eq('id', id).single()] *)
Definition select_route_owner (id : uuid) : M (result (option string)) :=
call (fun env s =>
        match query (fun d => filter (fun r => String.eqb (r_id r) id)
                                (routes d)) env s with
        | (s', Normal rows) =>
            (s', x <- single rows ;; Normal (r_user_id x))
        | (s', Throw e) => (s', Throw e)
        end).

End Calls.

End Supabase.

(** The router with sign-in and ownership checks. *)

Module SupabaseRouter.
Import JS Storage Trpc Supabase.

Section Router.

Variable is_uuid : string -> bool.

(** [removeWaypoint] *)
Definition removeWaypoint (ctx : Context) (id : uuid) : M unit :=
protectedProcedure ctx (fun userId =>
  input (is_uuid id)
    (let* waypoint := select_waypoint_route id in
     let* _ :=
       match data waypoint with
       | Some route_id =>
           let* route := select_route_owner route_id in
           match data route with
           | Some user_id =>
               if option_string_eqb user_id (Some userId) then ret tt
               else throw (Error "Unauthorized: You can only remove waypoints from your own routes")
           | None =>
               throw (Error "Unauthorized: You can only remove waypoints from your own routes")
           end
       | None => ret tt
       end in
     let* deleted := delete_waypoints_call (fun w => String.eqb (w_id w) id) in
     let* _ := throw_if_error deleted in
     ret tt)).

End Router.

End SupabaseRouter.

(** The first router: every procedure is public and routes have no owner. *)

Module AnonymousRouter.
Import JS Storage Trpc Supabase.

Section Router.

Variable toString : number -> Q.
Variable is_uuid : string -> bool.

(** [create] *)
Definition create (i : CreateInput) : M RouteRow :=
input (negb (String.eqb (c_name i) EmptyString)
       && forallb z_waypoint (c_waypoints i))
  (let* inserted := insert_route_single (c_name i) (c_description i) None in
   let* _ := throw_if_error inserted in
   match data inserted with
   | None => throw TypeError          (* [route.id] of [null] *)
   | Some route =>
       let* added :=
         insert_waypoints_call
           (waypointsData toString (r_id route) (c_waypoints i)) in
       let* _ := throw_if_error added in
       ret route
   end).

(** [name && { name }]: an empty string spreads nothing. *)
Definition truthy_string (s : option string) : option string :=
match s with
| Some EmptyString => None
| other => other
end.

(** [update] *)
Definition update (i : UpdateInput) : M unit :=
input (is_uuid (u_id i)
       && match u_waypoints i with
          | Some ws => forallb z_waypoint ws
          | None => true
          end)
  (let* _ :=
     match truthy_string (u_name i), truthy_string (u_description i) with
     | None, None => ret tt
     | name, description =>
         let* updated := update_route_call (u_id i) name description in
         throw_if_error updated
     end in
   match u_waypoints i with
   | Some waypoints =>
       let* deleted :=
         delete_waypoints_call (fun w => String.eqb (w_route_id w) (u_id i)) in
       let* _ := throw_if_error deleted in
       let* added :=
         insert_waypoints_call (waypointsData toString (u_id i) waypoints) in
       let* _ := throw_if_error added in
       ret tt
   | None => ret tt
   end).

(** [removeWaypoint] *)
Definition removeWaypoint (id : uuid) : M unit :=
input (is_uuid id)
  (let* deleted := delete_waypoints_call (fun w => String.eqb (w_id w) id) in
   let* _ := throw_if_error deleted in
   ret tt).

End Router.

End AnonymousRouter.

(** *** The remaining writers of the first router: [delete] and
    [addWaypoint] of lib/trpc/routes.ts on the Supabase client *)

Module AnonymousProcedures.
Import JS Storage Trpc Supabase.

(** [from('waypoints').select('position').eq('route_id', routeId)
      .order('position', { ascending: false }).limit(1)] *)
Definition select_max_position (routeId : uuid) : M (result (list Z)) :=
call (query_rows
        (fun place d =>
           firstn 1 (map w_position (rev (select_by_position place routeId d))))).

(** [(maxPosition?.[0]?.position ?? -1) + 1]; [data] is [null] when the
    call has an error. *)
Definition nextPosition (maxPosition : option (list Z)) : Z :=
match maxPosition with
| Some (position :: _) => position + 1
| _ => -1 + 1
end.

(** [from('waypoints').insert({ ... }).select().single()] *)
Definition insert_waypoint_single (v : NewWaypoint) : M (result WaypointRow) :=
call (fun env s =>
        match execute (fun env k =>
                         insert_waypoints (gen_random_uuid env k) 0 [v]) env s with
        | (s', Normal rows) => (s', single rows)
        | (s', Throw e) => (s', Throw e)
        end).

(** [from('routes').delete().eq('id', id)] *)
Definition delete_route_call (id : uuid) : M (result unit) :=
call (let* _ :=
        execute (fun env k d =>
                   Normal (delete_routes (fun r => String.eqb (r_id r) id) d)) in
      ret tt).

(** The input of [addWaypoint]. *)
Record AddWaypointInput := {
  a_routeId : uuid;
  a_latitude : number;
  a_longitude : number;
  a_name : option string;
}.

Section Router.

Variable toString : number -> Q.
Variable is_uuid : string -> bool.

(** [delete] *)
Definition delete (id : uuid) : M unit :=
input (is_uuid id)
  (let* deleted := delete_route_call id in
   let* _ := throw_if_error deleted in
   ret tt).

(** [addWaypoint]: the error of the first call is not read. *)
Definition addWaypoint (i : AddWaypointInput) : M (option WaypointRow) :=
input (is_uuid (a_routeId i)
       && z_number (a_latitude i) && z_number (a_longitude i))
  (let* maxPosition := select_max_position (a_routeId i) in
   let* inserted :=
     insert_waypoint_single
       {| nw_route_id := a_routeId i;
          nw_latitude := toString (a_latitude i);
          nw_longitude := toString (a_longitude i);
          nw_name := a_name i;
          nw_position := nextPosition (data maxPosition) |} in
   let* _ := throw_if_error inserted in
   ret (data inserted)).

End Router.

End AnonymousProcedures.
(** ** Vocabulary of the persistence properties, and sample data *)

Module Persisted.
Import JS Storage Trpc.

(** [v] is [q] at the precision of the column: the decimal with eight
    fractional digits nearest to [q]. *)
Definition within_precision (q : Q) (v : decimal) : Prop :=
(Qabs (inject_Z v - q * inject_Z (10 ^ 8)) <= 1 # 2)%Q.

(** The row that an INSERT stores for the values [v]. *)
Definition stored_row (v : NewWaypoint) (row : WaypointRow) : Prop :=
w_route_id row = nw_route_id v
/\ w_position row = nw_position v
/\ to_decimal 10 (nw_latitude v) = Normal (w_latitude row)
/\ to_decimal 11 (nw_longitude v) = Normal (w_longitude row)
/\ w_name row = nw_name v.

(** The row [row] holds the supplied waypoint [wp]: same name, and both
    coordinates, as printed, within the precision of the column. *)
Definition holds (toString : number -> Q) (wp : WaypointInput) (row : WaypointRow)
  : Prop :=
within_precision (toString (latitude wp)) (w_latitude row)
/\ within_precision (toString (longitude wp)) (w_longitude row)
/\ w_name row = name wp.

(** The rows are the supplied array, stored for [route]: one row per
    element in array order, with positions 0, 1, ..., n - 1. *)
Definition stores (toString : number -> Q) (route : uuid)
           (supplied : list WaypointInput) (rows : list WaypointRow) : Prop :=
Forall2 (holds toString) supplied rows
/\ map w_position rows = map Z.of_nat (seq 0 (List.length supplied))
/\ Forall (fun row => w_route_id row = route) rows.

(** Half a unit in the last place of a double. *)
Definition half_ulp (x : number) : Q :=
match x with
| S754_finite _ _ e => (1 # 2) * 2 ^ e
| _ => 0
end.

(** [toString] prints [x] as Number::toString does: as a decimal that
    reads back as [x] (ECMA-262, Number::toString, step 5), which a decimal
    does only if it lies within half a unit in the last place of [x]. *)
Definition prints (toString : number -> Q) (x : number) : Prop :=
(Qabs (toString x - to_Q x) <= half_ulp x)%Q.

Definition printed (toString : number -> Q) (wp : WaypointInput) : Prop :=
prints toString (latitude wp) /\ prints toString (longitude wp).

(** The stored decimal [v] is the double [x] up to the rounding to eight
    decimals and the printing of [x]. *)
Definition close_to (x : number) (v : decimal) : Prop :=
(Qabs (inject_Z v / inject_Z (10 ^ 8) - to_Q x)
 <= (1 # 2) / inject_Z (10 ^ 8) + half_ulp x)%Q.

(** The row [row] gives back the supplied waypoint [wp]: its name, and
    its two coordinates within the precision of the column. *)
Definition gives_back (wp : WaypointInput) (row : WaypointRow) : Prop :=
close_to (latitude wp) (w_latitude row)
/\ close_to (longitude wp) (w_longitude row)
/\ w_name row = name wp.

(** The rows give back the supplied array: one row per element, in array
    order, at positions 0, 1, ..., n - 1. *)
Definition reads_back (route : uuid) (supplied : list WaypointInput)
           (rows : list WaypointRow) : Prop :=
Forall2 gives_back supplied rows
/\ map w_position rows = map Z.of_nat (seq 0 (List.length supplied))
/\ Forall (fun row => w_route_id row = route) rows.

(** The database in which the waypoints of [id] are exactly [rows] and
    everything else is as in [d]. *)
Definition replaced_in (d : Database) (id : uuid) (rows : list WaypointRow)
  : Database :=
{| routes := routes d;
   waypoints :=
     filter (fun w => negb (String.eqb (w_route_id w) id)) (waypoints d)
       ++ rows |}.

(** A committed state seen during a replacement of the waypoints of [id]
    by [supplied]: its waypoints table is still the one of [before], or the
    route has exactly the supplied waypoints and every other route has the
    waypoints it had in [before]. *)
Definition unchanged_or_replaced (toString : number -> Q) (id : uuid)
           (supplied : list WaypointInput) (before c : Database) : Prop :=
waypoints c = waypoints before
\/ (stores toString id supplied (waypoints_of id c)
    /\ forall other, other <> id ->
                     waypoints_of other c = waypoints_of other before).

Local Open Scope string_scope.

(** Sample data: a route of Alice with two waypoints. *)
Definition alice : string := "user_alice".
Definition bob : string := "user_bob".

Definition alices_route : RouteRow :=
{| r_id := "route-1"; r_user_id := Some alice; r_name := "Coast";
   r_description := None; r_created_at := 1; r_updated_at := 1 |}.

Definition alices_waypoints : list WaypointRow :=
[{| w_id := "wp-1"; w_route_id := "route-1"; w_position := 0;
    w_latitude := 4000000000; w_longitude := -7400000000; w_name := None |};
 {| w_id := "wp-2"; w_route_id := "route-1"; w_position := 1;
    w_latitude := 4100000000; w_longitude := -7300000000; w_name := None |}].

Definition sample_db : Database :=
{| routes := [alices_route]; waypoints := alices_waypoints |}.

Definition quiet_env : Env :=
{| now := 2;
   gen_random_uuid := fun k j => ("uuid-" ++ digits_of (N.of_nat k) ++ "-"
                                    ++ digits_of (N.of_nat j))%string;
   transport_fails := fun _ => false;
   place := fun _ _ => 0 |}.

(** A later request, whose scans find the first waypoint of a new route
    and the first waypoint of Alice's route after the rows that were
    inserted behind them. *)
Definition shuffling_env : Env :=
{| now := 3;
   gen_random_uuid := gen_random_uuid quiet_env;
   transport_fails := fun _ => false;
   place := fun _ id =>
     if String.eqb id "uuid-1-0" then 2
     else if String.eqb id "wp-1" then 1 else 0 |}.

Definition any_text (s : string) : bool := true.

(** A check that accepts the version 4 UUIDs in lower case, which every
    version of [z.string().uuid()] accepts. *)
Definition lower_case_uuid_v4 (s : string) : bool :=
SessionToken.matches SessionToken.template s.

(** Carol's route, with ids as the database generates them. *)
Definition carols_route_id : uuid := "3f2a9c1e-7b4d-4e6a-9c0f-5d8e2b1a7c33".

Definition carols_route : RouteRow :=
{| r_id := carols_route_id; r_user_id := None; r_name := "Alps";
   r_description := None; r_created_at := 1; r_updated_at := 1 |}.

Definition carols_waypoints : list WaypointRow :=
[{| w_id := "a81bc81b-dead-4e5d-abff-90865d1e13b1";
    w_route_id := carols_route_id; w_position := 0;
    w_latitude := 4700000000; w_longitude := 1100000000; w_name := None |};
 {| w_id := "0b6e9d52-31c7-4f0a-8a44-e2f6c9d07b15";
    w_route_id := carols_route_id; w_position := 1;
    w_latitude := 4600000000; w_longitude := 1000000000; w_name := None |}].

Definition carols_db : Database :=
{| routes := [carols_route]; waypoints := carols_waypoints |}.

(** Finite doubles with few digits print as themselves. *)
Definition exact_text (x : number) : Q := to_Q x.

Definition as_alice : Context := {| userId := Some alice |}.
Definition as_bob : Context := {| userId := Some bob |}.

(** A waypoint at latitude 100: a number for [z.number()], too large for
    [decimal(10, 8)]. *)
Definition off_the_map : WaypointInput :=
{| latitude := of_Z 100; longitude := of_Z 0; name := None |}.

Definition two_stops : list WaypointInput :=
[{| latitude := of_decimal false 405 1; longitude := of_decimal true 74 0;
    name := Some "Start"%string |};
 {| latitude := of_decimal false 4175 2; longitude := of_decimal true 735 1;
    name := None |}].

Definition wp_1 : uuid := "wp-1".
Definition route_1 : uuid := "route-1".
Definition new_route_id : uuid := "uuid-0-0".
Definition overflow : exn := PostgresError "22003 numeric field overflow".
Definition not_your_route : exn :=
Error "Unauthorized: You can only remove waypoints from your own routes".

(** The request of the round trip, and what it creates in [sample_db]. *)
Definition trip : CreateInput :=
{| c_name := "Trip"; c_description := None; c_waypoints := two_stops |}.

Definition trip_route : RouteRow :=
{| r_id := "uuid-0-0"; r_user_id := Some alice; r_name := "Trip";
   r_description := None; r_created_at := 2; r_updated_at := 2 |}.

Definition after_trip : Session :=
fst (DrizzleRouter.create exact_text as_alice trip quiet_env (start sample_db)).

(** A request with a waypoint that the column cannot hold. *)
Definition bad_trip : CreateInput :=
{| c_name := "Trip"; c_description := None; c_waypoints := [off_the_map] |}.

Definition bad_update : UpdateInput :=
{| u_id := "route-1"; u_name := None; u_description := None;
   u_waypoints := Some [off_the_map] |}.

(** New waypoints for Carol's route, the second of which the column
    cannot hold. *)
Definition carols_update : UpdateInput :=
{| u_id := carols_route_id; u_name := None; u_description := None;
   u_waypoints := Some [{| latitude := of_Z 46; longitude := of_Z 10;
                           name := None |}; off_the_map] |}.

(** Alice's route after she replaces its two waypoints by [two_stops]. *)
Definition after_replace : Session :=
fst (DrizzleRouter.update exact_text any_text as_alice
       {| u_id := route_1; u_name := None; u_description := None;
          u_waypoints := Some two_stops |} quiet_env (start sample_db)).

End Persisted.

(** ** More sample data: callers and requests *)

Module Scenarios.
Import JS Storage Trpc Persisted.

Local Open Scope string_scope.

Definition signed_out : Context := {| userId := None |}.

(** A stop at latitude 42, longitude -72. *)
Definition a_stop : DrizzleProcedures.AddWaypointInput :=
{| DrizzleProcedures.a_routeId := "route-1";
   DrizzleProcedures.a_latitude := of_Z 42;
   DrizzleProcedures.a_longitude := of_Z (-72);
   DrizzleProcedures.a_name := Some "Lunch" |}.

Definition an_anonymous_stop : AnonymousProcedures.AddWaypointInput :=
{| AnonymousProcedures.a_routeId := "route-1";
   AnonymousProcedures.a_latitude := of_Z 42;
   AnonymousProcedures.a_longitude := of_Z (-72);
   AnonymousProcedures.a_name := None |}.

(** The position lookup of [addWaypoint] fails, the insert goes through. *)
Definition lookup_fails : Env :=
{| now := 2;
   gen_random_uuid := gen_random_uuid quiet_env;
   transport_fails := fun k => Nat.eqb k 0;
   place := place quiet_env |}.

Definition rename_only : UpdateInput :=
{| u_id := "route-1"; u_name := Some "Shore"; u_description := None;
   u_waypoints := None |}.

Definition new_stops : UpdateInput :=
{| u_id := "route-1"; u_name := None; u_description := None;
   u_waypoints := Some two_stops |}.

(** A request whose generated ids are not in use. *)
Definition in_the_evening : Env :=
{| now := 4;
   gen_random_uuid := fun k j => ("late-" ++ digits_of (N.of_nat k) ++ "-"
                                    ++ digits_of (N.of_nat j))%string;
   transport_fails := fun _ => false;
   place := place shuffling_env |}.

(** Alice saves a trip and adds a stop to her first route, Bob removes one
    of her waypoints, Alice adds the stop again while the connection
    fails, replaces the waypoints of the route and in the end deletes
    it. *)
Definition a_day : list (Context * DrizzleProcedures.request * Env) :=
[(as_alice, DrizzleProcedures.Create trip, quiet_env);
 (as_alice, DrizzleProcedures.AddWaypoint a_stop, shuffling_env);
 (as_bob, DrizzleProcedures.RemoveWaypoint "wp-1", quiet_env);
 (as_alice, DrizzleProcedures.AddWaypoint a_stop, lookup_fails);
 (as_alice, DrizzleProcedures.Update new_stops, in_the_evening);
 (as_alice, DrizzleProcedures.Delete "route-1", quiet_env)].

(** A search that has fired, then four keystrokes and two emptied boxes. *)
Definition an_earlier_search : list UseSearch.event :=
[UseSearch.Suggest "s"%string; UseSearch.Timeout 0].

Definition typed : list string :=
["sa"%string; "sal"%string; ""%string; "salt"%string; ""%string].

End Scenarios.
(** ** Facts about binary64 rounding *)

Module JSFacts.
Import JS.

Lemma digits2_pos_size (p : positive) : digits2_pos p = Pos.size p.
Proof. induction p; simpl; congruence. Qed.

Lemma Zdigits2_log2 (m : Z) : 0 < m -> Zdigits2 m = Z.log2 m + 1.
Proof.
  destruct m as [|p|p]; try lia. intros _. simpl.
  rewrite digits2_pos_size. destruct p; simpl; lia.
Qed.

Lemma shr_m_shr_1 (mrs : shr_record) :
  0 <= shr_m mrs -> shr_m (shr_1 mrs) = Z.div2 (shr_m mrs).
Proof.
  destruct mrs as [m r s]. simpl. intros Hm.
  destruct m as [|[p|p|]|p]; try reflexivity; lia.
Qed.

Lemma shr_m_shr_1_nonneg (mrs : shr_record) :
  0 <= shr_m mrs -> 0 <= shr_m (shr_1 mrs).
Proof.
  intros Hm. rewrite shr_m_shr_1 by assumption.
  rewrite Z.div2_div. apply Z.div_pos; lia.
Qed.

Lemma shr_m_iter_pos (c : positive) (mrs : shr_record) :
  0 <= shr_m mrs ->
  shr_m (iter_pos shr_1 c mrs) = Z.shiftr (shr_m mrs) (Zpos c)
  /\ 0 <= shr_m (iter_pos shr_1 c mrs).
Proof.
  revert mrs; induction c as [c IH|c IH|]; intros mrs Hm; simpl.
  - pose proof (shr_m_shr_1_nonneg mrs Hm) as H1.
    destruct (IH (shr_1 mrs) H1) as [E1 P1].
    destruct (IH (iter_pos shr_1 c (shr_1 mrs)) P1) as [E2 P2].
    split; [|assumption].
    rewrite E2, E1, shr_m_shr_1 by assumption.
    rewrite Z.div2_spec, !Z.shiftr_shiftr by lia. f_equal. lia.
  - destruct (IH mrs Hm) as [E1 P1].
    destruct (IH (iter_pos shr_1 c mrs) P1) as [E2 P2].
    split; [|assumption].
    rewrite E2, E1, !Z.shiftr_shiftr by lia. f_equal. lia.
  - split; [|now apply shr_m_shr_1_nonneg].
    rewrite shr_m_shr_1 by assumption. now rewrite Z.div2_spec.
Qed.

Lemma shr_m_shr_record_of_loc (m : Z) (l : location) :
  shr_m (shr_record_of_loc m l) = m.
Proof. destruct l as [|[]]; reflexivity. Qed.

(** [shr_fexp] keeps a positive mantissa positive and keeps the magnitude
    [digits + exponent] as long as that magnitude is above [emin]. *)
Lemma shr_fexp_pos (m e : Z) (l : location) :
  0 < m -> emin prec emax < Zdigits2 m + e ->
  let '(mrs, e') := shr_fexp prec emax m e l in
  0 < shr_m mrs /\ Zdigits2 (shr_m mrs) + e' = Zdigits2 m + e.
Proof.
  intros Hm Hmag. unfold shr_fexp, shr.
  remember (fexp prec emax (Zdigits2 m + e) - e) as n eqn:En.
  assert (Hc : n < Zdigits2 m).
  { subst n. unfold fexp, prec in *. lia. }
  clear En. destruct n as [|c|c]; try (rewrite shr_m_shr_record_of_loc; lia).
  destruct (shr_m_iter_pos c (shr_record_of_loc m l)) as [E _];
    [rewrite shr_m_shr_record_of_loc; lia|].
  rewrite E, shr_m_shr_record_of_loc.
  rewrite (Zdigits2_log2 m Hm) in Hc |- *.
  assert (Hlog : 0 <= Z.log2 m) by apply Z.log2_nonneg.
  rewrite Z.shiftr_div_pow2 by lia.
  assert (H2c : 0 < 2 ^ Zpos c) by (apply Z.pow_pos_nonneg; lia).
  assert (Hle : 2 ^ Zpos c <= m).
  { transitivity (2 ^ Z.log2 m).
    - apply Z.pow_le_mono_r; lia.
    - apply Z.log2_spec. assumption. }
  assert (Hq : 0 < m / 2 ^ Zpos c).
  { apply Z.div_str_pos. lia. }
  split; [assumption|].
  rewrite (Zdigits2_log2 _ Hq).
  rewrite <- Z.shiftr_div_pow2 by lia.
  rewrite Z.log2_shiftr by assumption.
  rewrite Z.max_r by lia. lia.
Qed.

Lemma round_nearest_even_ge (m : Z) (l : location) :
  m <= round_nearest_even m l <= m + 1.
Proof.
  destruct l as [|[]]; simpl; try lia. destruct (Z.even m); lia.
Qed.

(** Rounding a positive mantissa whose magnitude lies above [emin] gives a
    non-zero number of the requested sign. *)
Lemma binary_round_aux_pos (sx : bool) (mx ex : Z) (lx : location) :
  0 < mx -> emin prec emax < Zdigits2 mx + ex ->
  (exists m e, binary_round_aux prec emax sx mx ex lx = S754_finite sx m e)
  \/ binary_round_aux prec emax sx mx ex lx = S754_infinity sx.
Proof.
  intros Hm Hmag. unfold binary_round_aux.
  pose proof (shr_fexp_pos mx ex lx Hm Hmag) as H1.
  destruct (shr_fexp prec emax mx ex lx) as [mrs' e'].
  destruct H1 as [Hpos1 Hmag1].
  pose proof (round_nearest_even_ge (shr_m mrs') (loc_of_shr_record mrs'))
    as Hr.
  set (m2 := round_nearest_even (shr_m mrs') (loc_of_shr_record mrs')) in *.
  assert (Hpos2 : 0 < m2) by lia.
  assert (Hmag2 : emin prec emax < Zdigits2 m2 + e').
  { rewrite (Zdigits2_log2 m2 Hpos2).
    rewrite (Zdigits2_log2 _ Hpos1) in Hmag1.
    assert (Z.log2 (shr_m mrs') <= Z.log2 m2) by (apply Z.log2_le_mono; lia).
    lia. }
  pose proof (shr_fexp_pos m2 e' loc_Exact Hpos2 Hmag2) as H2.
  destruct (shr_fexp prec emax m2 e' loc_Exact) as [mrs'' e''].
  destruct H2 as [Hpos3 _].
  destruct (shr_m mrs'') as [|m|m]; try lia.
  destruct (e'' <=? emax - prec); eauto.
Qed.

Lemma digits2_pos_iter_xO (d p : positive) :
  Zpos (digits2_pos (Pos.iter xO p d)) = Zpos (digits2_pos p) + Zpos d.
Proof.
  revert p. induction d as [|d IH] using Pos.peano_ind; intros p.
  - simpl. lia.
  - rewrite Pos.iter_succ. simpl digits2_pos.
    rewrite !Pos2Z.inj_succ, IH. lia.
Qed.

(** A positive integer converts to a positive double (or to Infinity). *)
Lemma of_Z_pos (p : positive) : ltb zero (of_Z (Zpos p)) = true.
Proof.
  unfold of_Z, binary_normalize, binary_round.
  destruct (shl_align p 0 (fexp prec emax (Zpos (digits2_pos p) + 0)))
    as [mz ez] eqn:Hal.
  assert (Hmag : Zdigits2 (Zpos mz) + ez = Zpos (digits2_pos p)).
  { unfold shl_align in Hal. rewrite Z.add_0_r, Z.sub_0_r in Hal.
    destruct (fexp prec emax (Zpos (digits2_pos p))) as [|d|d] eqn:Hd;
      injection Hal as <- <-; simpl Zdigits2; try lia.
    rewrite digits2_pos_iter_xO. lia. }
  destruct (binary_round_aux_pos false (Zpos mz) ez loc_Exact) as [(m & e & ->)| ->];
    try reflexivity; try lia.
  rewrite Hmag. unfold emin, prec, emax. lia.
Qed.

End JSFacts.

(** ** Facts about lib/costCalculator.ts *)

Module CostFacts.
Import JS CostCalculator.

Lemma mantissa_value_pos (m : positive) (e : Z) :
  (0 < to_Q (S754_finite false m e))%Q.
Proof.
  unfold to_Q.
  assert (H2 : (0 < 2 ^ e)%Q) by (apply Qpower_0_lt; reflexivity).
  assert (Hm : (0 < inject_Z (Zpos m))%Q) by reflexivity.
  assert (H0 : (0 < inject_Z (Zpos m) * 2 ^ e)%Q).
  { setoid_replace 0%Q with (0 * 2 ^ e)%Q by ring.
    apply Qmult_lt_compat_r; assumption. }
  setoid_replace (1 * inject_Z (Zpos m) * 2 ^ e)%Q
    with (inject_Z (Zpos m) * 2 ^ e)%Q by ring.
  exact H0.
Qed.

Lemma to_Q_sign (s : bool) (m : positive) (e : Z) :
  (to_Q (S754_finite s m e)
   == (if s then - (1) else 1) * to_Q (S754_finite false m e))%Q.
Proof. unfold to_Q. destruct s; ring. Qed.

Lemma Qabs_to_Q (s : bool) (m : positive) (e : Z) :
  (Qabs (to_Q (S754_finite s m e)) == to_Q (S754_finite false m e))%Q.
Proof.
  pose proof (mantissa_value_pos m e) as Hpos.
  rewrite to_Q_sign. destruct s.
  - rewrite Qabs_neg by lra. ring.
  - rewrite Qabs_pos by lra. ring.
Qed.

(** [toFixed(2)] never throws, and reading its result back rounds the
    number to two decimal places. *)
Lemma toFixed_2_rounds (x : number) :
  exists s, toFixed x 2 = Normal s /\ rounded_2dp x (Number s).
Proof.
  destruct x as [sz | si | | s m e]; unfold toFixed;
    change ((2 <? 0) || (100 <? 2)) with false; cbv beta iota zeta.
  - eexists; split; [reflexivity|].
    cbn [Number].
    apply (rounded_decimal (S754_zero sz) false 0); cbn [is_finite to_Q];
      try reflexivity; try discriminate; try (intros; lra).
  - eexists; split; [reflexivity|]. now apply rounded_not_finite.
  - eexists; split; [reflexivity|]. now apply rounded_not_finite.
  - pose proof (mantissa_value_pos m e) as Hpos.
    pose proof (Qabs_to_Q s m e) as Habs.
    destruct (Qle_bool (10 ^ 21) (to_Q (S754_finite false m e))) eqn:Hbig.
    + eexists; split; [reflexivity|]. cbn [Number].
      apply rounded_huge; [reflexivity|].
      rewrite Habs. now apply Qle_bool_iff.
    + eexists; split; [reflexivity|]. cbn [Number].
      set (ax := to_Q (S754_finite false m e)) in *.
      set (n := Qfloor (ax * inject_Z (10 ^ 2) + (1 # 2))).
      assert (Hlo : (inject_Z n <= ax * inject_Z (10 ^ 2) + (1 # 2))%Q)
        by apply Qfloor_le.
      assert (Hhi : (ax * inject_Z (10 ^ 2) + (1 # 2) < inject_Z (n + 1))%Q)
        by apply Qlt_floor.
      rewrite inject_Z_plus in Hhi.
      change (inject_Z (10 ^ 2)) with 100%Q in Hlo, Hhi.
      change (inject_Z 1) with 1%Q in Hhi.
      apply rounded_decimal.
      * reflexivity.
      * rewrite Habs. apply Qnot_le_lt. intros Hle.
        apply Qle_bool_iff in Hle. congruence.
      * intros ->. rewrite to_Q_sign. fold ax. lra.
      * intros ->. rewrite to_Q_sign. fold ax. lra.
      * rewrite Habs. apply Qabs_case; intros; lra.
      * rewrite Habs. intros Heq. lra.
Qed.

(** The quotient by a zero of either sign is never a finite number. *)
Lemma div_by_zero_not_finite (d z : number) :
  is_zero z = true -> is_finite (div d z) = false.
Proof. destruct z; try discriminate. intros _. now destruct d. Qed.

Lemma mul_not_finite_l (x y : number) :
  is_finite x = false -> is_finite (mul x y) = false.
Proof. destruct x; try discriminate; intros _; now destruct y. Qed.

Lemma toFixed_2_not_finite (x : number) :
  is_finite x = false -> toFixed x 2 = Normal (match x with
                                               | S754_infinity s => StrInfinity s
                                               | _ => StrNaN
                                               end).
Proof. now destruct x. Qed.

Lemma Number_toFixed_2_not_finite (x : number) :
  is_finite x = false ->
  (s <- toFixed x 2 ;; Normal (Number s)) = Normal x.
Proof. now destruct x. Qed.

(** C3. For every distance and every settings (so in particular whenever
    [mpg > 0] and [pricePerGallon > 0]) [calculateGallonsNeeded] returns the
    double quotient [d / mpg] rounded to two decimal places and
    [calculateFuelCost] returns the double [(d / mpg) * pricePerGallon]
    rounded to two decimal places; on the sample inputs the results are
    14.0, 28.0 (price doubled), 7.0 (mpg doubled) and 4.0 gallons. *)
Theorem cost_is_rounded_to_two_decimals :
  (forall d m, exists r,
      calculateGallonsNeeded d m = Normal r /\ rounded_2dp (div d m) r)
  /\ (forall d s, exists r,
        calculateFuelCost d s = Normal r
        /\ rounded_2dp (mul (div d (mpg s)) (pricePerGallon s)) r)
  /\ calculateFuelCost lit_100 {| mpg := lit_25; pricePerGallon := lit_3_5 |}
     = Normal lit_14_0
  /\ calculateFuelCost lit_100 {| mpg := lit_25; pricePerGallon := lit_7_0 |}
     = Normal lit_28_0
  /\ calculateFuelCost lit_100 {| mpg := lit_50; pricePerGallon := lit_3_5 |}
     = Normal lit_7_0
  /\ calculateGallonsNeeded lit_100 lit_25 = Normal lit_4_0.
Proof.
  split; [|split]; [| |repeat split; vm_compute; reflexivity].
  - intros d m. unfold calculateGallonsNeeded.
    destruct (toFixed_2_rounds (div d m)) as (s & -> & Hr).
    now exists (Number s).
  - intros d s. unfold calculateFuelCost. cbv zeta.
    destruct (toFixed_2_rounds (mul (div d (mpg s)) (pricePerGallon s)))
      as (str & -> & Hr).
    now exists (Number str).
Qed.

(** The rounding acts on the double quotient: 201 / 200 is the double just
    below 1.005, so two hundred and one miles at 200 mpg show as 1.00. *)
Example gallons_201_200 :
  calculateGallonsNeeded (of_Z 201) (of_Z 200) = Normal (of_decimal false 100 2).
Proof. vm_compute. reflexivity. Qed.

(** C2, as the code has it: with [mpg = 0] the estimator returns Infinity
    for 100 miles; nothing is thrown. *)
Lemma zero_mpg_returns_infinity :
  calculateFuelCost lit_100 zero_mpg_settings = Normal Infinity
  /\ calculateGallonsNeeded lit_100 zero = Normal Infinity
  /\ ~ throws (calculateFuelCost lit_100 zero_mpg_settings)
  /\ ~ throws (calculateGallonsNeeded lit_100 zero).
Proof.
  repeat split; try (vm_compute; reflexivity);
    intros [e He]; vm_compute in He; discriminate.
Qed.

(** C2, amended. For [mpg = 0] (of either sign) and any distance and price
    neither function signals an error: each returns the non-finite double
    its formula evaluates to, [d / 0] and [(d / 0) * price]. *)
Theorem zero_mpg_is_computed_not_rejected (d : number) (s : CostSettings) :
  is_zero (mpg s) = true ->
  calculateGallonsNeeded d (mpg s) = Normal (div d (mpg s))
  /\ calculateFuelCost d s = Normal (mul (div d (mpg s)) (pricePerGallon s))
  /\ is_finite (div d (mpg s)) = false
  /\ is_finite (mul (div d (mpg s)) (pricePerGallon s)) = false.
Proof.
  intros Hz.
  pose proof (div_by_zero_not_finite d (mpg s) Hz) as Hq.
  pose proof (mul_not_finite_l _ (pricePerGallon s) Hq) as Hc.
  repeat split; try assumption.
  - unfold calculateGallonsNeeded. now apply Number_toFixed_2_not_finite.
  - unfold calculateFuelCost. cbv zeta. now apply Number_toFixed_2_not_finite.
Qed.

Lemma zero_mpg_is_computed_not_rejected_witness :
  is_zero (mpg zero_mpg_settings) = true
  /\ calculateGallonsNeeded lit_100 (mpg zero_mpg_settings)
     = Normal (div lit_100 (mpg zero_mpg_settings))
  /\ calculateFuelCost lit_100 zero_mpg_settings
     = Normal (mul (div lit_100 (mpg zero_mpg_settings))
                 (pricePerGallon zero_mpg_settings))
  /\ is_finite (div lit_100 (mpg zero_mpg_settings)) = false
  /\ is_finite (mul (div lit_100 (mpg zero_mpg_settings))
                  (pricePerGallon zero_mpg_settings)) = false.
Proof.
  split; [reflexivity|].
  apply (zero_mpg_is_computed_not_rejected lit_100 zero_mpg_settings).
  reflexivity.
Defined.

End CostFacts.

(** ** Facts about lib/routing.ts *)

Module RoutingFacts.
Import JS Travel Routing.

Section FetchRouteFacts.

Variable NumberToString : number -> string.
Variable to_number_other : value -> number.
Variable token : option string.
Variable fetch : string -> completion Response.

Abbreviation fetchRoute' := (fetchRoute NumberToString to_number_other token fetch).
Abbreviation first_route' := (first_route to_number_other).
Abbreviation url' := (directions_url NumberToString token).

(** With two waypoints or more: one request, and whatever goes wrong after
    it is logged and answered with [null]. *)
Lemma fetchRoute_request (waypoints : list Waypoint) :
  (2 <= List.length waypoints)%nat ->
  fetchRoute' waypoints
  = match (response <- fetch (url' waypoints) ;;
           data <- json response ;;
           first_route' data) with
    | Normal result => ([Fetch (url' waypoints)], Normal result)
    | Throw _ =>
        ([Fetch (url' waypoints); ConsoleError "Error fetching route:"],
         Normal None)
    end.
Proof.
  intros Hlen. unfold fetchRoute.
  destruct (Nat.ltb_spec (List.length waypoints) 2) as [|_]; [lia|].
  cbv zeta. unfold fetch_from, try_catch, io_bind, pure, console_error.
  destruct (fetch (url' waypoints)) as [response|e]; [|reflexivity].
  cbn [bind]. destruct (json response) as [data|e]; [|reflexivity].
  cbn [bind]. destruct (first_route' data); reflexivity.
Qed.

Lemma nonempty_array_length (first : value) (rest : list value) :
  (len <- get (VArray (first :: rest)) "length" ;;
   Normal (ltb zero (ToNumber to_number_other len))) = Normal true.
Proof.
  simpl get. simpl bind. unfold ToNumber. f_equal.
  simpl Z.of_nat. apply JSFacts.of_Z_pos.
Qed.

(** C4. [fetchRoute] never throws.  With fewer than two waypoints it
    returns [null] and issues no request.  Otherwise it issues exactly one
    request, and returns [null] when the request fails, when the body is not
    JSON, when the body is [null] or has no [routes] member (the provider's
    error answers), and when [routes] is empty; when [routes] is a non-empty
    array of route objects it returns the distance, duration and geometry of
    the first one. *)
Theorem fetchRoute_never_throws (waypoints : list Waypoint) :
  (exists r, snd (fetchRoute' waypoints) = Normal r)
  /\ ((List.length waypoints < 2)%nat ->
      fetchRoute' waypoints = ([], Normal None))
  /\ ((2 <= List.length waypoints)%nat ->
      (exists log, fst (fetchRoute' waypoints) = Fetch (url' waypoints) :: log
                   /\ Forall is_console_error log)
      /\ (forall e, fetch (url' waypoints) = Throw e ->
                    snd (fetchRoute' waypoints) = Normal None)
      /\ (forall response, fetch (url' waypoints) = Normal response ->
          (forall e, json response = Throw e ->
                     snd (fetchRoute' waypoints) = Normal None)
          /\ (json response = Normal VNull ->
              snd (fetchRoute' waypoints) = Normal None)
          /\ (forall fields, json response = Normal (VObject fields) ->
              (own_property "routes" fields = VUndefined ->
               snd (fetchRoute' waypoints) = Normal None)
              /\ (own_property "routes" fields = VArray [] ->
                  snd (fetchRoute' waypoints) = Normal None)
              /\ (forall route rest,
                    own_property "routes" fields
                    = VArray (VObject route :: rest) ->
                    snd (fetchRoute' waypoints)
                    = Normal (Some {| distance := own_property "distance" route;
                                      duration := own_property "duration" route;
                                      geometry := own_property "geometry" route
                                   |}))))).
Proof.
  split; [|split].
  - destruct (le_lt_dec 2 (List.length waypoints)) as [Hlen|Hlen].
    + rewrite (fetchRoute_request waypoints Hlen).
      destruct (_ <- _ ;; _); simpl; eauto.
    + unfold fetchRoute.
      destruct (Nat.ltb_spec (List.length waypoints) 2); [simpl; eauto|lia].
  - intros Hlen. unfold fetchRoute.
    destruct (Nat.ltb_spec (List.length waypoints) 2); [reflexivity|lia].
  - intros Hlen. rewrite (fetchRoute_request waypoints Hlen).
    split; [|split].
    + destruct (_ <- _ ;; _); simpl; eexists; split;
        try reflexivity; repeat constructor.
    + intros e He. rewrite He. reflexivity.
    + intros response Hresp. rewrite Hresp. cbn [bind]. split; [|split].
      * intros e He. rewrite He. reflexivity.
      * intros Hnull. rewrite Hnull. reflexivity.
      * intros fields Hdata. rewrite Hdata. cbn [bind].
        unfold first_route. cbn [bind get]. split; [|split].
        -- intros Hr. rewrite Hr. reflexivity.
        -- intros Hr. rewrite Hr. reflexivity.
        -- intros route rest Hr. rewrite Hr.
           cbn [ToBoolean]. rewrite nonempty_array_length. reflexivity.
Qed.

End FetchRouteFacts.

(** A run on a concrete answer of the provider, through the theorem. *)
Lemma fetchRoute_never_throws_witness :
  snd (fetchRoute sample_printer sample_to_number (Some "pk"%string)
         (sample_fetch (Normal (VObject sample_routes))) UseRoute.sequence_A)
  = Normal (Some {| distance := VNumber (of_Z 1609);
                    duration := VNumber (of_Z 60);
                    geometry := VObject [("type", VString "LineString")]%string
                 |}).
Proof.
  destruct (fetchRoute_never_throws sample_printer sample_to_number
              (Some "pk"%string)
              (sample_fetch (Normal (VObject sample_routes)))
              UseRoute.sequence_A) as (_ & _ & Hlong).
  assert (Hlen : (2 <= List.length UseRoute.sequence_A)%nat) by (simpl; lia).
  destruct (Hlong Hlen) as (_ & _ & Hresponse).
  destruct (Hresponse _ eq_refl) as (_ & _ & Hobject).
  destruct (Hobject sample_routes eq_refl) as (_ & _ & Hroute).
  exact (Hroute _ [] eq_refl).
Defined.

(** An element of [routes] that is [null] makes the property read throw
    inside the [try] block; the [catch] turns that into [null] as well. *)
Example fetchRoute_null_route :
  fetchRoute sample_printer sample_to_number (Some "pk"%string)
    (sample_fetch (Normal (VObject [("routes"%string, VArray [VNull])])))
    UseRoute.sequence_A
  = ([Fetch "https://api.mapbox.com/directions/v5/mapbox/driving/0,0;0,0?geometries=geojson&overview=full&access_token=pk";
      ConsoleError "Error fetching route:"], Normal None).
Proof. reflexivity. Qed.

End RoutingFacts.

(** ** Facts about hooks/useRoute.ts *)

Module UseRouteFacts.
Import JS Travel UseRoute.

Lemma length_update_nth {A} (f : A -> A) (l : list A) (k : nat) :
  List.length (update_nth k f l) = List.length l.
Proof.
  revert k; induction l as [|x l IH]; intros [|k]; simpl; auto.
Qed.

Lemma nth_error_update_nth_eq {A} (f : A -> A) (l : list A) (k : nat) :
  nth_error (update_nth k f l) k = option_map f (nth_error l k).
Proof.
  revert k; induction l as [|x l IH]; intros [|k]; simpl; auto.
Qed.

Lemma nth_error_update_nth_neq {A} (f : A -> A) (l : list A) (k j : nat) :
  j <> k -> nth_error (update_nth k f l) j = nth_error l j.
Proof.
  revert k j; induction l as [|x l IH]; intros [|k] [|j] Hjk; simpl; auto;
    congruence.
Qed.

(** Whatever [f] does, if it keeps a raised [cancelled] flag raised then so
    does [update_nth]. *)
Lemma update_nth_keeps_cancelled (f : Invocation -> Invocation)
      (l : list Invocation) (k j : nat) (i : Invocation) :
  (forall x, cancelled x = true -> cancelled (f x) = true) ->
  nth_error l j = Some i -> cancelled i = true ->
  exists i', nth_error (update_nth k f l) j = Some i' /\ cancelled i' = true.
Proof.
  intros Hf Hj Hc. destruct (Nat.eq_dec j k) as [->|Hne].
  - rewrite nth_error_update_nth_eq, Hj. simpl. eauto.
  - rewrite nth_error_update_nth_neq by assumption. eauto.
Qed.

(** A raised flag is never lowered. *)
Lemma step_keeps_cancelled (s : State) (e : event) (k : nat) :
  is_cancelled s k -> is_cancelled (step s e) k.
Proof.
  intros (i & Hk & Hc).
  assert (Hclean : is_cancelled (run_cleanup s) k).
  { unfold run_cleanup. destruct (cleanup s) as [c|]; [|exists i; auto].
    unfold is_cancelled; simpl.
    apply update_nth_keeps_cancelled with (i := i); auto. }
  destruct e as [w | j r |]; simpl; [ | | exact Hclean].
  - destruct Hclean as (i' & Hk' & Hc').
    unfold run_effect. destruct (_ <? 2)%nat; exists i'; simpl; split; auto.
    rewrite nth_error_app1; auto.
    apply nth_error_Some. congruence.
  - unfold resume. destruct (nth_error (invocations s) j) as [ij|] eqn:Hj;
      [|exists i; auto].
    destruct (settled ij); [exists i; auto|].
    destruct (negb (cancelled ij)); unfold is_cancelled; simpl;
      apply update_nth_keeps_cancelled with (i := i); auto.
Qed.

Lemma steps_keep_cancelled (trace : list event) (s : State) (k : nat) :
  is_cancelled s k -> is_cancelled (fold_left step trace s) k.
Proof.
  revert s; induction trace as [|e trace IH]; intros s H; simpl; auto.
  apply IH, step_keeps_cancelled, H.
Qed.

Lemma run_cleanup_all_cancelled (s : State) :
  supersede_inv s ->
  cleanup (run_cleanup s) = None
  /\ List.length (invocations (run_cleanup s)) = List.length (invocations s)
  /\ (forall j, (j < List.length (invocations s))%nat ->
                is_cancelled (run_cleanup s) j).
Proof.
  intros [Hothers Hlive]. unfold run_cleanup.
  destruct (cleanup s) as [k|] eqn:Hc; simpl.
  - split; [reflexivity|]. split; [apply length_update_nth|].
    intros j Hj. destruct (Nat.eq_dec j k) as [->|Hne].
    + destruct (Hlive k eq_refl) as (i & Hk & _).
      exists (cancel i). simpl. rewrite nth_error_update_nth_eq, Hk. auto.
    + destruct (Hothers j Hj) as (i & Hi & Hci); [congruence|].
      exists i. simpl. rewrite nth_error_update_nth_neq by assumption. auto.
  - rewrite Hc. split; [reflexivity|]. split; [reflexivity|].
    intros j Hj. apply Hothers; [assumption|congruence].
Qed.

Lemma step_supersede_inv (s : State) (e : event) :
  supersede_inv s -> supersede_inv (step s e).
Proof.
  intros Hinv.
  destruct e as [w | j r |]; simpl.
  - destruct (run_cleanup_all_cancelled s Hinv) as (Hnone & Hlen & Hall).
    rewrite <- Hlen in Hall.
    set (s' := run_cleanup s) in *. clearbody s'.
    unfold run_effect. destruct (_ <? 2)%nat; split; simpl.
    + intros k Hk _. destruct (Hall k Hk) as (i & Hi & Hci). exists i; auto.
    + discriminate.
    + intros k Hk Hne. rewrite length_app in Hk. simpl in Hk.
      assert (Hk' : (k < List.length (invocations s'))%nat).
      { destruct (Nat.eq_dec k (List.length (invocations s'))); [congruence|lia]. }
      destruct (Hall k Hk') as (i & Hi & Hci). exists i; simpl.
      rewrite nth_error_app1; auto.
    + intros k [= <-]. eexists. rewrite nth_error_app2 by lia.
      rewrite Nat.sub_diag. simpl. split; reflexivity.
  - destruct Hinv as [Hothers Hlive].
    assert (Hsettle : supersede_inv
              {| route := r; loading := false; cleanup := cleanup s;
                 invocations := update_nth j settle (invocations s) |}
            /\ supersede_inv
              {| route := route s; loading := loading s; cleanup := cleanup s;
                 invocations := update_nth j settle (invocations s) |}).
    { assert (Hgen : forall k i, nth_error (invocations s) k = Some i ->
                exists i', nth_error (update_nth j settle (invocations s)) k
                           = Some i' /\ cancelled i' = cancelled i).
      { intros k i Hk. destruct (Nat.eq_dec k j) as [->|Hne].
        - rewrite nth_error_update_nth_eq, Hk. simpl. eauto.
        - rewrite nth_error_update_nth_neq by assumption. eauto. }
      split; (split; simpl;
        [ intros k Hk Hne; rewrite length_update_nth in Hk;
          destruct (Hothers k Hk Hne) as (i & Hi & Hci);
          destruct (Hgen k i Hi) as (i' & Hi' & Hc');
          exists i'; simpl; split; [assumption|congruence]
        | intros k Hk; destruct (Hlive k Hk) as (i & Hi & Hci);
          destruct (Hgen k i Hi) as (i' & Hi' & Hc');
          exists i'; split; [assumption|congruence] ]). }
    unfold resume. destruct (nth_error (invocations s) j) as [ij|];
      [|split; assumption].
    destruct (settled ij); [split; assumption|].
    destruct (negb (cancelled ij)); apply Hsettle.
  - destruct (run_cleanup_all_cancelled s Hinv) as (Hnone & Hlen & Hall).
    split.
    + intros k Hk _. apply Hall. lia.
    + rewrite Hnone. discriminate.
Qed.

Lemma initial_supersede_inv : supersede_inv initial.
Proof.
  split; simpl.
  - intros j Hj. lia.
  - discriminate.
Qed.

Lemma fold_supersede_inv (trace : list event) (s : State) :
  supersede_inv s -> supersede_inv (fold_left step trace s).
Proof.
  revert s; induction trace as [|e trace IH]; intros s H; simpl; auto.
  apply IH, step_supersede_inv, H.
Qed.

Lemma run_supersede_inv (trace : list event) : supersede_inv (run trace).
Proof. apply fold_supersede_inv, initial_supersede_inv. Qed.

(** The result of a cancelled invocation changes nothing on display. *)
Lemma resume_cancelled (s : State) (k : nat) (r : option RouteData) :
  is_cancelled s k -> displayed (resume k r s) = displayed s.
Proof.
  intros (i & Hk & Hc). unfold resume. rewrite Hk.
  destruct (settled i); [reflexivity|]. rewrite Hc. reflexivity.
Qed.

(** After a render every invocation started earlier is cancelled. *)
Lemma render_cancels_earlier (s : State) (w : list Waypoint) (k : nat) :
  supersede_inv s -> (k < List.length (invocations s))%nat ->
  is_cancelled (step s (Render w)) k.
Proof.
  intros Hinv Hk.
  destruct (step_supersede_inv s (Render w) Hinv) as [Hothers _].
  destruct (run_cleanup_all_cancelled s Hinv) as (Hnone & Hlen & _).
  simpl in *. unfold run_effect in *.
  destruct (_ <? 2)%nat; simpl in *.
  - apply Hothers; [lia|discriminate].
  - apply Hothers.
    + rewrite length_app. simpl. lia.
    + intros [= Heq]. lia.
Qed.

Lemma length_resume (s : State) (j : nat) (r : option RouteData) :
  List.length (invocations (resume j r s)) = List.length (invocations s).
Proof.
  unfold resume. destruct (nth_error (invocations s) j) as [ij|]; auto.
  destruct (settled ij); auto.
  destruct (negb (cancelled ij)); simpl; apply length_update_nth.
Qed.

Lemma quiet_resume (s : State) (k j : nat) (r : option RouteData) :
  quiet s k -> quiet (resume j r s) k.
Proof.
  intros Hq i Hi Hne. rewrite length_resume in Hi.
  apply (step_keeps_cancelled s (Settle j r)). now apply Hq.
Qed.

Lemma spent_resume (s : State) (k j : nat) (r : option RouteData) :
  spent s k -> spent (resume j r s) k.
Proof.
  intros Hs i. unfold resume.
  destruct (nth_error (invocations s) j) as [ij|] eqn:Hj; [|apply Hs].
  destruct (settled ij) eqn:Hset; [apply Hs|].
  assert (Hgen : nth_error (update_nth j settle (invocations s)) k = Some i ->
                 settled i = true \/ cancelled i = true).
  { destruct (Nat.eq_dec k j) as [->|Hne].
    - rewrite nth_error_update_nth_eq, Hj. simpl. intros [= <-]. now left.
    - rewrite nth_error_update_nth_neq by assumption. apply Hs. }
  destruct (negb (cancelled ij)); simpl; exact Hgen.
Qed.

Lemma resume_spent (s : State) (k : nat) (r : option RouteData) :
  spent s k -> displayed (resume k r s) = displayed s.
Proof.
  intros Hs. unfold resume.
  destruct (nth_error (invocations s) k) as [i|] eqn:Hk; [|reflexivity].
  destruct (settled i) eqn:Hset; [reflexivity|].
  destruct (Hs i Hk) as [H|H]; [congruence|]. rewrite H. reflexivity.
Qed.

(** Once nothing is live, settlements leave the display alone. *)
Lemma settles_after_spent (trace : list event) (s : State) (k : nat) :
  Forall is_settle trace -> quiet s k -> spent s k ->
  displayed (fold_left step trace s) = displayed s.
Proof.
  intros Hall; revert s.
  induction Hall as [|e trace He _ IH]; intros s Hq Hs; [reflexivity|].
  destruct e as [|j r|]; try contradiction. simpl.
  rewrite IH by (auto using quiet_resume, spent_resume).
  destruct (Nat.eq_dec j k) as [->|Hne]; [now apply resume_spent|].
  unfold resume. destruct (nth_error (invocations s) j) as [ij|] eqn:Hj;
    [|reflexivity].
  destruct (settled ij); [reflexivity|].
  destruct (Hq j) as (i & Hi & Hc); [apply nth_error_Some; congruence|assumption|].
  assert (ij = i) as -> by congruence. rewrite Hc. reflexivity.
Qed.

(** While invocation [k] is live and all others are cancelled, the display
    after a run of settlements is decided by the first settlement of [k]. *)
Lemma settles_while_live (trace : list event) (s : State) (k : nat)
      (i : Invocation) :
  Forall is_settle trace -> quiet s k ->
  nth_error (invocations s) k = Some i ->
  cancelled i = false -> settled i = false ->
  match first_settle k trace with
  | Some r => displayed (fold_left step trace s) = (r, false)
  | None => displayed (fold_left step trace s) = displayed s
  end.
Proof.
  intros Hall; revert s i.
  induction Hall as [|e trace He Hall IH]; intros s i Hq Hk Hc Hset;
    [reflexivity|].
  destruct e as [|j r|]; try contradiction. simpl.
  destruct (Nat.eqb_spec j k) as [->|Hne].
  - rewrite (settles_after_spent trace (resume k r s) k Hall).
    + unfold resume. rewrite Hk, Hset, Hc. reflexivity.
    + now apply quiet_resume.
    + intros i'. unfold resume. rewrite Hk, Hset, Hc. simpl.
      rewrite nth_error_update_nth_eq, Hk. simpl. intros [= <-]. now left.
  - assert (Hsame : displayed (resume j r s) = displayed s).
    { unfold resume. destruct (nth_error (invocations s) j) as [ij|] eqn:Hj;
        [|reflexivity].
      destruct (settled ij); [reflexivity|].
      destruct (Hq j) as (i' & Hi' & Hc');
        [apply nth_error_Some; congruence|assumption|].
      assert (ij = i') as -> by congruence. rewrite Hc'. reflexivity. }
    assert (Hk' : nth_error (invocations (resume j r s)) k = Some i).
    { unfold resume. destruct (nth_error (invocations s) j) as [ij|];
        [|assumption].
      destruct (settled ij); [assumption|].
      destruct (negb (cancelled ij)); simpl;
        rewrite nth_error_update_nth_neq by congruence; assumption. }
    specialize (IH (resume j r s) i (quiet_resume s k j r Hq) Hk' Hc Hset).
    destruct (first_settle k trace); rewrite IH; [reflexivity|exact Hsame].
Qed.

(** The state right after the effect has run for [w]. *)
Lemma after_render (s : State) (w : list Waypoint) :
  supersede_inv s ->
  let s' := step s (Render w) in
  let k := List.length (invocations s) in
  quiet s' k
  /\ ((List.length w < 2)%nat -> route s' = None /\ spent s' k)
  /\ ((2 <= List.length w)%nat ->
      loading s' = true
      /\ nth_error (invocations s') k
         = Some {| inv_waypoints := w; cancelled := false; settled := false |}).
Proof.
  intros Hinv s' k.
  destruct (run_cleanup_all_cancelled s Hinv) as (Hnone & Hlen & Hall).
  assert (Hq : quiet s' k).
  { intros j Hj Hne.
    assert (Hj' : (j < List.length (invocations s))%nat).
    { subst s' k. simpl in Hj. unfold run_effect in Hj.
      destruct (_ <? 2)%nat; simpl in Hj; [lia|].
      rewrite length_app in Hj. simpl in Hj. lia. }
    destruct (Hall j Hj') as (i & Hi & Hc).
    subst s'. simpl. unfold run_effect.
    destruct (_ <? 2)%nat; exists i; simpl; split; auto.
    rewrite nth_error_app1; auto. apply nth_error_Some. congruence. }
  split; [exact Hq|]. subst s' k. simpl. unfold run_effect.
  destruct (Nat.ltb_spec (List.length w) 2) as [Hlt|Hge]; split; intros Hw;
    try lia; simpl.
  - split; [reflexivity|]. intros i Hi.
    assert (Hlt' : (List.length (invocations s)
                    < List.length (invocations (run_cleanup s)))%nat)
      by (apply nth_error_Some; simpl in Hi; congruence).
    lia.
  - split; [reflexivity|]. rewrite nth_error_app2 by lia.
    rewrite Hlen, Nat.sub_diag. reflexivity.
Qed.

(** C1. Cancel-on-supersede.  Take any history [t1], then a render for the
    waypoint sequence [w], then any further events [t2].
    (1) Whenever the result of an invocation started during [t1] arrives
    after that render, the displayed route and loading flag stay as they
    are: it is discarded.
    (2) If [w] stays the latest sequence ([t2] holds settlements only, of
    any invocations, in any order), the route on display is [null] when [w]
    has fewer than two waypoints, and otherwise it is the result delivered
    to the invocation started for [w] (with loading off) as soon as that
    result has arrived; until then loading is on. *)
Theorem cancel_on_supersede (t1 t2 : list event) (w : list Waypoint) :
  let k := List.length (invocations (run t1)) in
  (forall j r, (j < k)%nat ->
     displayed (step (run (t1 ++ Render w :: t2)) (Settle j r))
     = displayed (run (t1 ++ Render w :: t2)))
  /\ (Forall is_settle t2 ->
      ((List.length w < 2)%nat -> route (run (t1 ++ Render w :: t2)) = None)
      /\ ((2 <= List.length w)%nat ->
          (exists i, nth_error (invocations (run (t1 ++ [Render w]))) k = Some i
                     /\ inv_waypoints i = w)
          /\ match first_settle k t2 with
             | Some r => displayed (run (t1 ++ Render w :: t2)) = (r, false)
             | None => loading (run (t1 ++ Render w :: t2)) = true
             end)).
Proof.
  intros k. unfold run. rewrite !fold_left_app. simpl fold_left.
  fold (run t1). pose proof (run_supersede_inv t1) as Hinv.
  destruct (after_render (run t1) w Hinv) as (Hq & Hshort & Hlong).
  fold k in Hq, Hshort, Hlong.
  split.
  - intros j r Hj. simpl. apply resume_cancelled.
    apply steps_keep_cancelled. now apply render_cancels_earlier.
  - intros Hsettles. split.
    + intros Hw. destruct (Hshort Hw) as [Hroute Hspent].
      pose proof (settles_after_spent t2 _ k Hsettles Hq Hspent) as Hd.
      unfold displayed in Hd. injection Hd as Hr _. now rewrite Hr.
    + intros Hw. destruct (Hlong Hw) as [Hload Hk]. split.
      * eexists. split; [exact Hk|reflexivity].
      * pose proof (settles_while_live t2 _ k _ Hsettles Hq Hk eq_refl eq_refl)
          as Hd.
        destruct (first_settle k t2); [exact Hd|].
        unfold displayed in Hd. injection Hd as _ Hl. now rewrite Hl.
Qed.

(** The scenario of the specification, through the theorem: A is rendered,
    B supersedes it, B's answer arrives, and A's late answer changes
    nothing; the display is B's answer. *)
Lemma cancel_on_supersede_witness :
  displayed (step (run ([Render sequence_A]
                          ++ Render sequence_B :: [Settle 1 (answer 200)]))
               (Settle 0 (answer 100)))
  = displayed (run ([Render sequence_A]
                      ++ Render sequence_B :: [Settle 1 (answer 200)]))
  /\ displayed (run ([Render sequence_A]
                       ++ Render sequence_B :: [Settle 1 (answer 200)]))
     = (answer 200, false).
Proof.
  destruct (cancel_on_supersede [Render sequence_A] [Settle 1 (answer 200)]
              sequence_B) as [Hstale Hfinal].
  split.
  - apply Hstale. simpl. lia.
  - assert (Hs : Forall is_settle [Settle 1 (answer 200)])
      by (repeat constructor).
    destruct (Hfinal Hs) as [_ Hlong].
    assert (Hw : (2 <= List.length sequence_B)%nat) by (simpl; lia).
    destruct (Hlong Hw) as [_ Hshown]. exact Hshown.
Defined.

(** The same scenario with the answers arriving in the other order, by
    evaluation: A's answer, arriving first but after the change, is
    dropped. *)
Example stale_answer_first :
  displayed (run [Render sequence_A; Render sequence_B;
                  Settle 0 (answer 100)]) = (None, true)
  /\ displayed (run [Render sequence_A; Render sequence_B;
                     Settle 0 (answer 100); Settle 1 (answer 200)])
     = (answer 200, false).
Proof. split; reflexivity. Qed.

(** When the sequence drops below two waypoints while a request is in
    flight, the route is cleared and the late answer is dropped; the effect
    returns before it reaches [setLoading], so [loading] keeps the value the
    superseded invocation gave it. *)
Example loading_after_clear :
  displayed (run [Render sequence_A; Render []]) = (None, true)
  /\ displayed (run [Render sequence_A; Render []; Settle 0 (answer 100)])
     = (None, true).
Proof. split; reflexivity. Qed.

End UseRouteFacts.

(** ** hooks/useRoute.ts after the effect is torn down *)

Module UseRouteTeardown.
Import JS Travel UseRoute UseRouteFacts.

Lemma loading_run_cleanup (s : State) : loading (run_cleanup s) = loading s.
Proof. unfold run_cleanup. now destruct (cleanup s). Qed.

Lemma route_run_cleanup (s : State) : route (run_cleanup s) = route s.
Proof. unfold run_cleanup. now destruct (cleanup s). Qed.

(** After the cleanup alone no invocation is live. *)
Lemma after_cleanup (s : State) :
  supersede_inv s ->
  quiet (run_cleanup s) (List.length (invocations s))
  /\ spent (run_cleanup s) (List.length (invocations s)).
Proof.
  intros Hinv.
  destruct (run_cleanup_all_cancelled s Hinv) as (_ & Hlen & Hall).
  split.
  - intros j Hj _. apply Hall. now rewrite <- Hlen.
  - intros i Hi.
    assert (Hlt : (List.length (invocations s)
                   < List.length (invocations (run_cleanup s)))%nat)
      by (apply nth_error_Some; congruence).
    lia.
Qed.

(** X1. Once the effect is torn down without a successor, no answer
    reaches the display.  After a render with fewer than two waypoints the
    route is [null] and stays so, and the loading flag keeps the value it
    had before that render (it stays on if a request was in flight),
    whatever answers arrive later; after the component unmounts, route and
    loading flag stay as they were. *)
Theorem nothing_arrives_after_teardown (t settles : list event) :
  Forall is_settle settles ->
  (forall w, (List.length w < 2)%nat ->
             route (run (t ++ Render w :: settles)) = None
             /\ loading (run (t ++ Render w :: settles)) = loading (run t))
  /\ displayed (run (t ++ Unmount :: settles)) = displayed (run t).
Proof.
  intros Hsettles.
  assert (Hrun : forall e,
             run (t ++ e :: settles) = fold_left step settles (step (run t) e))
    by (intros e; unfold run; rewrite fold_left_app; reflexivity).
  split.
  - intros w Hw. rewrite Hrun.
    pose proof (after_render (run t) w (run_supersede_inv t)) as Hafter.
    cbv zeta in Hafter. destruct Hafter as (Hquiet & Hshort & _).
    destruct (Hshort Hw) as [Hroute Hspent].
    pose proof (settles_after_spent settles _ _ Hsettles Hquiet Hspent) as Hd.
    pose proof (f_equal fst Hd) as Hr. pose proof (f_equal snd Hd) as Hl.
    unfold displayed in Hr, Hl. cbn [fst snd] in Hr, Hl.
    rewrite Hr, Hl. split; [exact Hroute|].
    cbn [step]. unfold run_effect.
    destruct (Nat.ltb_spec (List.length w) 2); cbn [loading]; [|lia].
    apply loading_run_cleanup.
  - rewrite Hrun. cbn [step].
    destruct (after_cleanup (run t) (run_supersede_inv t)) as [Hquiet Hspent].
    rewrite (settles_after_spent settles _ _ Hsettles Hquiet Hspent).
    unfold displayed. now rewrite route_run_cleanup, loading_run_cleanup.
Qed.

(** With a request in flight, clearing the waypoints leaves the loading
    flag on, also after the answer has come. *)
Lemma nothing_arrives_after_teardown_witness :
  (forall w, (List.length w < 2)%nat ->
             route (run ([Render sequence_A]
                           ++ Render w :: [Settle 0 (answer 100)])) = None
             /\ loading (run ([Render sequence_A]
                                ++ Render w :: [Settle 0 (answer 100)]))
                = true)
  /\ displayed (run ([Render sequence_A]
                       ++ Unmount :: [Settle 0 (answer 100)]))
     = (None, true).
Proof.
  apply (nothing_arrives_after_teardown [Render sequence_A]
           [Settle 0 (answer 100)]).
  repeat constructor.
Defined.

End UseRouteTeardown.
(** ** Facts about hooks/useWaypoints.ts *)

Module UseWaypointsFacts.
Import JS UseWaypoints.

Lemma digits_of_inj (a b : N) : digits_of a = digits_of b -> a = b.
Proof.
  unfold digits_of. intros H.
  apply (f_equal DecimalString.NilEmpty.uint_of_string) in H.
  rewrite !DecimalString.NilEmpty.usu in H. injection H as H.
  apply (f_equal N.of_uint) in H.
  now rewrite !DecimalN.Unsigned.of_to in H.
Qed.

Lemma waypoint_id_inj (a b : N) : waypoint_id a = waypoint_id b -> a = b.
Proof.
  unfold waypoint_id. simpl. intros H. injection H as H.
  now apply digits_of_inj.
Qed.

Section StoreFacts.

Variable NumberToString : number -> string.

Abbreviation apply' := (apply NumberToString).
Abbreviation run' := (run NumberToString).

Lemma rename_keeps_absent (i j n : string) (l : list Waypoint) :
  absent i l -> absent i (map (fun w => if has_id j w then rename w n else w) l).
Proof.
  intros H. induction H as [|w l Hw _ IH]; cbn [map]; constructor; auto.
  destruct (has_id j w); auto.
Qed.

Lemma apply_keeps_absent (now : N) (o : operation) (l : list Waypoint) :
  keeps_fresh now o -> absent (waypoint_id now) l ->
  absent (waypoint_id now) (apply' l o).
Proof.
  intros Hk Ha.
  destruct o as [t lng lat | t lng lat g | i | | i u];
    cbn [apply keeps_fresh] in *.
  - unfold addWaypoint. apply Forall_app. split; [assumption|].
    constructor; [|constructor]. cbn [id]. intros H.
    apply Hk, waypoint_id_inj.
    exact (f_equal (fun o => match o with Some x => x | None => EmptyString end)
             H).
  - unfold addWaypoint_resume. destruct g as [n|e].
    + now apply rename_keeps_absent.
    + destruct (fallback_name NumberToString lng lat); [|assumption].
      now apply rename_keeps_absent.
  - unfold removeWaypoint. unfold absent in *. rewrite Forall_forall in *.
    intros w Hw. apply filter_In in Hw. now apply Ha.
  - constructor.
  - unfold updateWaypoint. unfold absent in *.
    induction Ha as [|w l Hw _ IH]; cbn [map]; constructor; auto.
    destruct (has_id i w); [|assumption].
    unfold spread. cbn [id]. unfold merge.
    destruct (u_id u) as [|v]; [assumption|].
    intros ->. now apply Hk.
Qed.

Lemma fold_keeps_absent (now : N) (history : list operation)
      (l : list Waypoint) :
  Forall (keeps_fresh now) history -> absent (waypoint_id now) l ->
  absent (waypoint_id now) (fold_left apply' history l).
Proof.
  intros H; revert l. induction H as [|o history Ho _ IH]; intros l Hl; simpl.
  - assumption.
  - apply IH. now apply apply_keeps_absent.
Qed.

(** C9, amended. [add] appends at the end of the sequence a waypoint whose
    id is "waypoint-" followed by the clock reading in milliseconds; that id
    differs from the id of every waypoint already in the sequence whenever
    no earlier add read the same millisecond and no earlier update carried
    that id as the value of its [id] key. *)
Theorem add_appends_timestamp_id (history : list operation) (now : N)
        (lng lat : number) :
  Forall (keeps_fresh now) history ->
  addWaypoint now lng lat (run' history)
  = run' history ++ [{| id := Some (waypoint_id now); lng := Some lng;
                        lat := Some lat; name := Some "..."%string |}]
  /\ ~ In (Some (waypoint_id now)) (map id (run' history)).
Proof.
  intros Hfresh. split; [reflexivity|].
  pose proof (fold_keeps_absent now history [] Hfresh (Forall_nil _)) as Ha.
  fold (run' history) in Ha. unfold absent in Ha. rewrite Forall_forall in Ha.
  intros Hin. apply in_map_iff in Hin. destruct Hin as (w & Hid & Hw).
  exact (Ha w Hw Hid).
Qed.

End StoreFacts.

(** C9, as the code has it: two adds that read the same millisecond give
    two waypoints with one id, so the id of the second add is already in
    the sequence. *)
Lemma rapid_adds_share_an_id :
  In (Some (waypoint_id some_millisecond))
    (map id (run sample_printer [Add some_millisecond (fst click_1) (snd click_1)]))
  /\ map id (run sample_printer [Add some_millisecond (fst click_1) (snd click_1);
                   Add some_millisecond (fst click_2) (snd click_2)])
     = [Some (waypoint_id some_millisecond); Some (waypoint_id some_millisecond)].
Proof. split; [left|]; reflexivity. Qed.

(** With one id on two waypoints, removing "the" waypoint removes both. *)
Example remove_after_rapid_adds :
  run sample_printer [Add some_millisecond (fst click_1) (snd click_1);
        Add some_millisecond (fst click_2) (snd click_2);
        Remove (waypoint_id some_millisecond)] = [].
Proof. reflexivity. Qed.

(** An update can write the id of a later clock reading onto a waypoint:
    the add at that reading then meets its id in the sequence, although no
    add has read that millisecond before. *)
Example update_takes_a_later_id :
  map id (run sample_printer
            [Add some_millisecond (fst click_1) (snd click_1);
             Update (waypoint_id some_millisecond)
               (take_id (some_millisecond + 1))])
  = [Some (waypoint_id (some_millisecond + 1))].
Proof. reflexivity. Qed.

(** An own key with the value [undefined] erases the field. *)
Example update_with_undefined_erases :
  map name (run sample_printer
              [Add some_millisecond (fst click_1) (snd click_1);
               Update (waypoint_id some_millisecond) erase_name])
  = [None].
Proof. reflexivity. Qed.

Lemma add_appends_timestamp_id_witness :
  Forall (keeps_fresh (some_millisecond + 1))
    [Add some_millisecond (fst click_1) (snd click_1);
     Update (waypoint_id some_millisecond) erase_name]
  /\ addWaypoint (some_millisecond + 1) (fst click_2) (snd click_2)
       (run sample_printer
          [Add some_millisecond (fst click_1) (snd click_1);
           Update (waypoint_id some_millisecond) erase_name])
     = run sample_printer
         [Add some_millisecond (fst click_1) (snd click_1);
          Update (waypoint_id some_millisecond) erase_name]
         ++ [{| id := Some (waypoint_id (some_millisecond + 1));
                lng := Some (fst click_2); lat := Some (snd click_2);
                name := Some "..."%string |}]
  /\ ~ In (Some (waypoint_id (some_millisecond + 1)))
         (map id (run sample_printer
                    [Add some_millisecond (fst click_1) (snd click_1);
                     Update (waypoint_id some_millisecond) erase_name])).
Proof.
  assert (H : Forall (keeps_fresh (some_millisecond + 1))
                [Add some_millisecond (fst click_1) (snd click_1);
                 Update (waypoint_id some_millisecond) erase_name]).
  { constructor; [|constructor; [|constructor]]; simpl; discriminate. }
  split; [exact H|].
  exact (add_appends_timestamp_id sample_printer
           [Add some_millisecond (fst click_1) (snd click_1);
            Update (waypoint_id some_millisecond) erase_name]
           (some_millisecond + 1) (fst click_2) (snd click_2) H).
Defined.

End UseWaypointsFacts.
(** ** Facts about lib/mapboxSearch.ts *)

Module MapboxSearchFacts.
Import JS MapboxSearch.

Section GetSuggestionsFacts.

Variable NumberToString : number -> string.
Variable to_string_other : value -> completion string.
Variable URLSearchParams_toString : list (string * string) -> string.
Variable Array_sort : (Ranked -> Ranked -> number) -> list Ranked -> list Ranked.
Variable token : option string.
Variable fetch : string -> completion Response.

Abbreviation getSuggestions' :=
  (getSuggestions NumberToString to_string_other URLSearchParams_toString
     Array_sort token fetch).
Abbreviation sorted' :=
  (sorted_suggestions NumberToString to_string_other Array_sort).
Abbreviation url' := (suggest_url NumberToString URLSearchParams_toString).
Abbreviation attempt :=
  (try_value NumberToString to_string_other Array_sort fetch).

(** With a token: one request, and whatever goes wrong after it is logged
    and answered with the empty list. *)
Lemma getSuggestions_request (query sessionToken accessToken : string)
      (options : option Options) :
  token = Some accessToken -> accessToken <> EmptyString ->
  getSuggestions' query sessionToken options
  = match attempt (url' query sessionToken accessToken options) with
    | Normal sortedSuggestions =>
        ([Fetch (url' query sessionToken accessToken options)],
         Normal sortedSuggestions)
    | Throw _ =>
        ([Fetch (url' query sessionToken accessToken options);
          ConsoleError "Error fetching search suggestions:"], Normal [])
    end.
Proof.
  intros -> Hne. unfold getSuggestions, try_value.
  destruct accessToken as [|c t]; [congruence|].
  cbv zeta. unfold fetch_from, try_catch, io_bind, pure, console_error.
  destruct (fetch _) as [response|e]; [|reflexivity].
  cbn [bind]. destruct (ok response); cbn [negb bind]; [|reflexivity].
  destruct (json response) as [data|e]; [|reflexivity].
  cbn [bind]. destruct (sorted' data); reflexivity.
Qed.

(** C10. [getSuggestions] never throws: its promise is always fulfilled
    with a list.  Without an access token it returns the empty list and
    issues no request; with one, it returns the empty list when the request
    fails, when the response is not ok, and when the body cannot be parsed
    or used (anything thrown inside the [try] block). *)
Theorem getSuggestions_never_throws (query sessionToken : string)
        (options : option Options) :
  (exists l, snd (getSuggestions' query sessionToken options) = Normal l)
  /\ (token = None \/ token = Some EmptyString ->
      getSuggestions' query sessionToken options
      = ([ConsoleError "Mapbox access token not found"], Normal []))
  /\ (forall accessToken,
        token = Some accessToken -> accessToken <> EmptyString ->
        (forall e, fetch (url' query sessionToken accessToken options) = Throw e ->
                   snd (getSuggestions' query sessionToken options) = Normal [])
        /\ (forall response,
              fetch (url' query sessionToken accessToken options)
              = Normal response ->
              (ok response = false ->
               snd (getSuggestions' query sessionToken options) = Normal [])
              /\ (forall e, json response = Throw e ->
                    snd (getSuggestions' query sessionToken options) = Normal [])
              /\ (forall data e,
                    json response = Normal data -> sorted' data = Throw e ->
                    snd (getSuggestions' query sessionToken options)
                    = Normal []))).
Proof.
  split; [|split].
  - assert (Hcases : token = None \/ token = Some EmptyString
                     \/ exists c t, token = Some (String c t))
      by (destruct token as [[|c t]|]; eauto).
    destruct Hcases as [Htok | [Htok | (c & t & Htok)]].
    + unfold getSuggestions. rewrite Htok. simpl. eauto.
    + unfold getSuggestions. rewrite Htok. simpl. eauto.
    + rewrite (getSuggestions_request _ _ (String c t) _ Htok) by discriminate.
      destruct (attempt _); simpl; eauto.
  - intros [Htok | Htok]; unfold getSuggestions; rewrite Htok; reflexivity.
  - intros accessToken Htok Hne.
    rewrite (getSuggestions_request _ _ accessToken _ Htok Hne).
    unfold try_value. split.
    + intros e He. rewrite He. reflexivity.
    + intros response Hresp. rewrite Hresp. cbn [bind]. split; [|split].
      * intros Hok. rewrite Hok. reflexivity.
      * intros e He. destruct (ok response); cbn [negb bind]; [|reflexivity].
        rewrite He. reflexivity.
      * intros data e Hdata Hsorted.
        destruct (ok response); cbn [negb bind]; [|reflexivity].
        rewrite Hdata. cbn [bind]. rewrite Hsorted. reflexivity.
Qed.

End GetSuggestionsFacts.

(** Offline, through the theorem: the request fails and the caller gets
    the empty list. *)
Lemma getSuggestions_never_throws_witness :
  snd (getSuggestions test_printer test_to_string test_query_text stable_sort
         (Some "test-token"%string) offline "salt" "session-token" None)
  = Normal [].
Proof.
  destruct (getSuggestions_never_throws test_printer test_to_string
              test_query_text stable_sort (Some "test-token"%string) offline
              "salt" "session-token" None) as (_ & _ & Htoken).
  assert (Hne : "test-token"%string <> EmptyString) by discriminate.
  destruct (Htoken _ eq_refl Hne) as [Hfails _].
  exact (Hfails NetworkFailure eq_refl).
Defined.

(** The repository's test case: the city comes first, the two points of
    interest keep their order. *)
Example getSuggestions_test_case :
  option_map (map mapboxId)
    (match snd (getSuggestions test_printer test_to_string test_query_text
                  stable_sort (Some "test-token"%string)
                  (test_fetch {| ok := true; statusText := "OK";
                                 json := Normal test_answer |})
                  "salt lake city" "session-token" None) with
     | Normal l => Some l
     | Throw _ => None
     end)
  = Some [VString "place-1"; VString "poi-1"; VString "poi-2"].
Proof. reflexivity. Qed.

(** A body that is [null], a [suggestions] member that is not an array, and
    a suggestion that is [null] all end in the [catch] block. *)
Example getSuggestions_unusable_bodies :
  map (fun body =>
         snd (getSuggestions test_printer test_to_string test_query_text
                stable_sort (Some "test-token"%string)
                (test_fetch {| ok := true; statusText := "OK";
                               json := Normal body |})
                "x" "session-token" None))
    [VNull;
     VObject [("suggestions"%string, VString "none")];
     VObject [("suggestions"%string, VArray [VNull])]]
  = [Normal []; Normal []; Normal []].
Proof. reflexivity. Qed.

End MapboxSearchFacts.

(** ** Facts about lib/geocoding.ts and the reverse lookup and retrieval of
    lib/mapboxSearch.ts *)

Module ReadsFacts.
Import JS Reads.

(** [toFixed] with a digit count within 0..100 prints every number. *)
Lemma toFixed_in_range (x : number) (digits : Z) :
  0 <= digits <= 100 -> exists s, toFixed x digits = Normal s.
Proof.
  intros Hd. unfold toFixed.
  replace ((digits <? 0) || (100 <? digits)) with false
    by (symmetry; apply Bool.orb_false_iff; split; apply Z.ltb_ge; lia).
  destruct x as [s| s| |s m e]; eauto.
  cbv zeta. destruct (Qle_bool _ _); eauto.
Qed.

Section Labels.

Variable NumberToString : number -> string.

Lemma fixed_total (x : number) (digits : Z) :
  0 <= digits <= 100 ->
  fixed NumberToString x digits = Normal (fixed_text NumberToString x digits).
Proof.
  intros Hd. unfold fixed, fixed_text.
  destruct (toFixed_in_range x digits Hd) as [s ->]. reflexivity.
Qed.

Lemma waypoint_label_total (lng lat : number) :
  waypoint_label NumberToString lng lat
  = Normal ("Waypoint (" ++ fixed_text NumberToString lat 4 ++ ", "
              ++ fixed_text NumberToString lng 4 ++ ")")%string.
Proof.
  unfold waypoint_label. rewrite !fixed_total by lia. reflexivity.
Qed.

Lemma location_label_total (lng lat : number) :
  location_label NumberToString lng lat
  = Normal ("Location at " ++ fixed_text NumberToString lat 2 ++ ", "
              ++ fixed_text NumberToString lng 2)%string.
Proof.
  unfold location_label. rewrite !fixed_total by lia. reflexivity.
Qed.

End Labels.

Lemma has_features_nonempty (to_number_other : value -> number)
      (data first : value) (rest : list value) :
  get data "features" = Normal (VArray (first :: rest)) ->
  has_features to_number_other data = Normal true.
Proof.
  intros Hf. unfold has_features. rewrite Hf. cbn [bind ToBoolean].
  apply RoutingFacts.nonempty_array_length.
Qed.

Lemma has_features_empty (to_number_other : value -> number) (data : value) :
  get data "features" = Normal (VArray []) ->
  has_features to_number_other data = Normal false.
Proof.
  intros Hf. unfold has_features. rewrite Hf. reflexivity.
Qed.

Lemma has_features_missing (to_number_other : value -> number) (data : value) :
  get data "features" = Normal VUndefined ->
  has_features to_number_other data = Normal false.
Proof.
  intros Hf. unfold has_features. rewrite Hf. reflexivity.
Qed.

End ReadsFacts.

Module GeocodingFacts.
Import JS Console Reads ReadsFacts Geocoding.

Section ReverseGeocodeFacts.

Variable NumberToString : number -> string.
Variable to_number_other : value -> number.
Variable token : option string.
Variable fetch : string -> completion Response.

Abbreviation reverseGeocode' :=
  (reverseGeocode NumberToString to_number_other token fetch).
Abbreviation url' := (geocoding_url NumberToString).
Abbreviation place_name' := (place_name NumberToString to_number_other).

Abbreviation waypoint_text := (waypoint_text NumberToString).
Abbreviation location_text := (location_text NumberToString).
Abbreviation attempt :=
  (try_value NumberToString to_number_other fetch).

(** With a token: one request, and anything thrown after it is answered
    with the coordinates. *)
Lemma reverseGeocode_request (lng lat : number) (accessToken : string) :
  token = Some accessToken -> accessToken <> EmptyString ->
  snd (reverseGeocode' lng lat)
  = match attempt lng lat accessToken with
    | Normal v => Normal v
    | Throw _ => Normal (waypoint_text lng lat)
    end
  /\ requests (reverseGeocode' lng lat)
     = [Did (Fetch (url' lng lat accessToken))].
Proof.
  intros Htok Hne. unfold reverseGeocode, try_value. rewrite Htok.
  destruct accessToken as [|c t]; [congruence|].
  cbv zeta. unfold fetch_from, try_catch, task_bind, lift, done, console_log,
              console_error.
  rewrite waypoint_label_total. cbn [fst snd map bind].
  destruct (fetch _) as [response|e]; [|split; reflexivity].
  cbn [bind app]. destruct (ok response); cbn [negb bind];
    [|split; reflexivity].
  destruct (json response) as [data|e]; [|split; reflexivity].
  cbn [bind app]. destruct (place_name' lng lat data); split; reflexivity.
Qed.


End ReverseGeocodeFacts.

End GeocodingFacts.

Module SearchBoxFacts.
Import JS Console Reads ReadsFacts SearchBox.

Section CallFacts.

Variable NumberToString : number -> string.
Variable to_number_other : value -> number.
Variable URLSearchParams_toString : list (string * string) -> string.
Variable token : option string.
Variable fetch : string -> completion Response.

Abbreviation reverse' :=
  (searchBoxReverseGeocode NumberToString to_number_other
     URLSearchParams_toString token fetch).
Abbreviation reverse_url' := (reverse_url NumberToString URLSearchParams_toString).
Abbreviation reverse_value' :=
  (reverse_value NumberToString to_number_other URLSearchParams_toString fetch).
Abbreviation retrieve' :=
  (retrieveSearchResult to_number_other URLSearchParams_toString token fetch).
Abbreviation retrieve_url' := (retrieve_url URLSearchParams_toString).
Abbreviation waypoint_text := (waypoint_text NumberToString).
Abbreviation location_text := (location_text NumberToString).

Lemma searchBoxReverseGeocode_request (lng lat : number)
      (options : option ReverseOptions) (accessToken : string) :
  token = Some accessToken -> accessToken <> EmptyString ->
  reverse' lng lat options
  = match reverse_value' lng lat accessToken options with
    | Normal v => ([Fetch (reverse_url' lng lat accessToken options)], Normal v)
    | Throw _ =>
        ([Fetch (reverse_url' lng lat accessToken options);
          ConsoleError "Error during Search Box reverse geocoding:"],
         Normal (waypoint_text lng lat))
    end.
Proof.
  intros Htok Hne. unfold searchBoxReverseGeocode, reverse_value. rewrite Htok.
  destruct accessToken as [|c t]; [congruence|].
  cbv zeta. unfold fetch_from, JS.try_catch, io_bind, pure, console_error.
  rewrite waypoint_label_total. cbn [bind].
  destruct (fetch _) as [response|e]; [|reflexivity].
  cbn [bind]. destruct (ok response); cbn [negb bind]; [|reflexivity].
  destruct (json response) as [data|e]; [|reflexivity].
  cbn [bind]. destruct (closest_name _ _ _ _ data); reflexivity.
Qed.

(** X3. [searchBoxReverseGeocode] never throws and prefers the city.
    Without an access token it issues no request and answers with the
    coordinates to four decimals, as it does with a token when the request
    fails, the response is not ok, or the body cannot be parsed or read.
    For a parsed body it answers with the name of the place in the context
    of the first feature when there is one, else with the name of the
    feature, else (and when there is no feature) with the coordinates to
    two decimals. *)
Theorem searchBoxReverseGeocode_prefers_city (lng lat : number)
        (options : option ReverseOptions) :
  (exists v, snd (reverse' lng lat options) = Normal v)
  /\ (token = None \/ token = Some EmptyString ->
      reverse' lng lat options
      = ([ConsoleError "Mapbox access token not found"],
         Normal (waypoint_text lng lat)))
  /\ (forall accessToken,
        token = Some accessToken -> accessToken <> EmptyString ->
        (forall e, fetch (reverse_url' lng lat accessToken options) = Throw e ->
                   snd (reverse' lng lat options)
                   = Normal (waypoint_text lng lat))
        /\ (forall response,
              fetch (reverse_url' lng lat accessToken options)
              = Normal response ->
              (ok response = false ->
               snd (reverse' lng lat options) = Normal (waypoint_text lng lat))
              /\ (forall e, json response = Throw e ->
                    snd (reverse' lng lat options)
                    = Normal (waypoint_text lng lat))
              /\ (forall data,
                    ok response = true -> json response = Normal data ->
                    (get data "features" = Normal (VArray [])
                     \/ get data "features" = Normal VUndefined ->
                     snd (reverse' lng lat options)
                     = Normal (location_text lng lat))
                    /\ (forall feature rest props,
                          get data "features"
                          = Normal (VArray (feature :: rest)) ->
                          get feature "properties" = Normal props ->
                          (forall e, city_name props = Throw e ->
                                     snd (reverse' lng lat options)
                                     = Normal (waypoint_text lng lat))
                          /\ (forall cityName,
                                city_name props = Normal cityName ->
                                (ToBoolean cityName = true ->
                                 snd (reverse' lng lat options)
                                 = Normal cityName)
                                /\ (forall name,
                                      ToBoolean cityName = false ->
                                      get props "name" = Normal name ->
                                      snd (reverse' lng lat options)
                                      = Normal (if ToBoolean name then name
                                                else location_text lng lat))))))).
Proof.
  split; [|split].
  - assert (Hcases : token = None \/ token = Some EmptyString
                     \/ exists c t, token = Some (String c t))
      by (destruct token as [[|c t]|]; eauto).
    destruct Hcases as [Htok | [Htok | (c & t & Htok)]].
    + unfold searchBoxReverseGeocode. rewrite Htok.
      unfold io_bind, pure, console_error. rewrite waypoint_label_total.
      simpl. eauto.
    + unfold searchBoxReverseGeocode. rewrite Htok.
      unfold io_bind, pure, console_error. rewrite waypoint_label_total.
      simpl. eauto.
    + rewrite (searchBoxReverseGeocode_request lng lat options (String c t) Htok)
        by discriminate.
      destruct (reverse_value' _ _ _ _); simpl; eauto.
  - intros [Htok | Htok]; unfold searchBoxReverseGeocode; rewrite Htok;
      unfold io_bind, pure, console_error; rewrite waypoint_label_total;
      reflexivity.
  - intros accessToken Htok Hne.
    rewrite (searchBoxReverseGeocode_request lng lat options accessToken Htok Hne).
    unfold reverse_value. split.
    + intros e He. rewrite He. reflexivity.
    + intros response Hresp. rewrite Hresp. cbn [bind]. split; [|split].
      * intros Hok. rewrite Hok. reflexivity.
      * intros e He. destruct (ok response); cbn [negb bind]; [|reflexivity].
        rewrite He. reflexivity.
      * intros data Hok Hdata. rewrite Hok, Hdata. cbn [negb bind].
        unfold closest_name. split.
        -- intros [Hf | Hf].
           ++ rewrite (has_features_empty _ _ Hf). cbn [bind].
              rewrite location_label_total. reflexivity.
           ++ rewrite (has_features_missing _ _ Hf). cbn [bind].
              rewrite location_label_total. reflexivity.
        -- intros feature rest props Hf Hprops.
           rewrite (has_features_nonempty _ _ _ _ Hf). cbn [bind].
           rewrite Hf. cbn [bind get_first hd]. rewrite Hprops. cbn [bind].
           split.
           ++ intros e He. rewrite He. reflexivity.
           ++ intros cityName Hcity. rewrite Hcity. cbn [bind]. split.
              ** intros Htruthy. rewrite Htruthy. reflexivity.
              ** intros name Hfalsy Hname. rewrite Hfalsy, Hname. cbn [bind].
                 destruct (ToBoolean name); [reflexivity|].
                 rewrite location_label_total. reflexivity.
Qed.

(** *** [retrieveSearchResult] *)

Abbreviation checked_coordinates' := (checked_coordinates to_number_other).
Abbreviation search_result' := (search_result to_number_other).

Lemma checked_coordinates_spec (coords : value) :
  (exists r, snd (checked_coordinates' coords) = Normal r)
  /\ (forall x y, snd (checked_coordinates' coords) = Normal (Some (x, y)) ->
                  isNaN x = false /\ isNaN y = false)
  /\ requests (checked_coordinates' coords) = [].
Proof.
  unfold checked_coordinates.
  destruct coords as [| |b|n|s|[|first [|second more]]|fields];
    try (cbn; split; [eexists; reflexivity|];
         split; [discriminate|reflexivity]).
  cbv zeta.
  destruct (isNaN (ToNumber to_number_other first)) eqn:Hx;
    destruct (isNaN (ToNumber to_number_other second)) eqn:Hy;
    cbn; (split; [eexists; reflexivity|]);
    (split; [|reflexivity]); try discriminate.
  intros x y [= <- <-]. auto.
Qed.

Lemma get_truthy (feature : value) (key : string) :
  ToBoolean feature = true -> exists v, get feature key = Normal v.
Proof.
  destruct feature; cbn; try discriminate; eauto;
    destruct (String.eqb key "length"); eauto.
Qed.

(** A small logic for calls that issue no request. *)
Lemma quietly_bind {A B} (Q : A -> Prop) (P : B -> Prop) (c : Task A)
      (k : A -> Task B) :
  quietly Q c -> (forall a, Q a -> quietly P (k a)) ->
  quietly P (task_bind c k).
Proof.
  unfold quietly, requests, task_bind. intros [Hreq Hc] Hk.
  destruct c as [log [a|e]]; cbn [fst snd] in *.
  - destruct (Hk a (Hc a eq_refl)) as [Hreq' Hk'].
    destruct (k a) as [log' r]. cbn [fst snd] in *.
    rewrite filter_app, Hreq, Hreq'. auto.
  - split; [assumption|discriminate].
Qed.

Lemma snd_task_bind {A B} (c : Task A) (k : A -> Task B) :
  snd (task_bind c k)
  = match snd c with
    | Normal a => snd (k a)
    | Throw e => Throw e
    end.
Proof.
  unfold task_bind. destruct c as [log [a|e]]; [|reflexivity].
  cbn [snd]. now destruct (k a).
Qed.

Lemma requests_task_bind {A B} (c : Task A) (k : A -> Task B) :
  requests (task_bind c k)
  = requests c ++ match snd c with
                  | Normal a => requests (k a)
                  | Throw e => []
                  end.
Proof.
  unfold requests, task_bind. destruct c as [log [a|e]]; cbn [fst snd].
  - destruct (k a) as [log' r]. cbn [fst]. apply filter_app.
  - now rewrite app_nil_r.
Qed.

Lemma snd_try_catch {A} (body : Task A) (handler : exn -> Task A) :
  snd (try_catch body handler)
  = match snd body with
    | Normal a => Normal a
    | Throw e => snd (handler e)
    end.
Proof.
  unfold try_catch. destruct body as [log [a|e]]; [reflexivity|].
  cbn [snd]. now destruct (handler e).
Qed.

Lemma requests_try_catch {A} (body : Task A) (handler : exn -> Task A) :
  requests (try_catch body handler)
  = requests body ++ match snd body with
                     | Normal a => []
                     | Throw e => requests (handler e)
                     end.
Proof.
  unfold requests, try_catch. destruct body as [log [a|e]]; cbn [fst snd].
  - now rewrite app_nil_r.
  - destruct (handler e) as [log' r]. cbn [fst]. apply filter_app.
Qed.

Lemma quietly_done {A} (P : A -> Prop) (c : completion A) :
  (forall a, c = Normal a -> P a) -> quietly P (done c).
Proof. intros H. split; [reflexivity|exact H]. Qed.

Lemma quietly_log (arguments : list value) :
  quietly (fun _ => True) (console_log arguments).
Proof. split; [reflexivity|auto]. Qed.

Lemma quietly_warn (arguments : list value) :
  quietly (fun _ => True) (console_warn arguments).
Proof. split; [reflexivity|auto]. Qed.

Lemma quietly_error (message : string) :
  quietly (fun _ => True) (lift (console_error message)).
Proof. split; [reflexivity|auto]. Qed.

Lemma quietly_any {A} (c : completion A) : quietly (fun _ => True) (done c).
Proof. apply quietly_done. auto. Qed.

Lemma checked_coordinates_quiet (coords : value) :
  quietly numbers (checked_coordinates' coords).
Proof.
  destruct (checked_coordinates_spec coords) as (_ & Hnan & Hreq).
  split; [exact Hreq|]. intros c Hc x y ->. now apply Hnan.
Qed.

(** What is done with a parsed body issues no request, and a result has
    coordinates that are numbers. *)
Lemma search_result_spec (data : value) :
  quietly (fun r => forall result,
               r = Some result ->
               isNaN (longitude result) = false
               /\ isNaN (latitude result) = false)
    (search_result' data).
Proof.
  unfold search_result.
  eapply quietly_bind; [apply quietly_log|]. intros _ _.
  eapply quietly_bind; [apply quietly_any|]. intros features _.
  eapply quietly_bind; [apply quietly_any|]. intros feature _.
  destruct (negb (ToBoolean feature)).
  { eapply quietly_bind; [apply quietly_warn|]. intros _ _.
    apply quietly_done. intros r [= <-]. discriminate. }
  eapply quietly_bind; [apply quietly_any|]. intros geometry _.
  eapply quietly_bind; [apply quietly_any|]. intros coords _.
  eapply quietly_bind; [apply checked_coordinates_quiet|].
  intros [[x y]|] Hxy.
  - destruct (Hxy x y eq_refl) as [Hx Hy].
    eapply quietly_bind; [apply quietly_any|]. intros properties _.
    eapply quietly_bind; [apply quietly_any|]. intros n _.
    eapply quietly_bind; [apply quietly_any|]. intros id _.
    eapply quietly_bind; [apply quietly_any|]. intros t _.
    eapply quietly_bind; [apply quietly_any|]. intros a _.
    eapply quietly_bind; [apply quietly_any|]. intros f _.
    eapply quietly_bind; [apply quietly_log|]. intros _ _.
    apply quietly_done. intros r [= <-] result [= <-]. auto.
  - apply quietly_done. intros r [= <-]. discriminate.
Qed.

Ltac close := intros; first [reflexivity | discriminate | congruence].
Ltac leaf :=
  split; [eexists; reflexivity|]; split; [close|]; split; [close|];
  split; [close|]; intros ? [= <-]; split; close.

(** X4. [retrieveSearchResult] never throws, and a result it returns has
    a longitude and a latitude that are not NaN.  Without an access token
    it issues no request and returns [null]; with one it issues exactly
    one request and returns [null] when the request fails, the response is
    not ok or the body cannot be parsed. *)
Theorem retrieveSearchResult_coordinates_are_numbers
        (mapboxId sessionToken : string) :
  (exists r, snd (retrieve' mapboxId sessionToken) = Normal r)
  /\ (forall r, snd (retrieve' mapboxId sessionToken) = Normal (Some r) ->
                isNaN (longitude r) = false /\ isNaN (latitude r) = false)
  /\ (token = None \/ token = Some EmptyString ->
      retrieve' mapboxId sessionToken
      = ([Did (ConsoleError "Mapbox access token not found")], Normal None))
  /\ (forall accessToken,
        token = Some accessToken -> accessToken <> EmptyString ->
        requests (retrieve' mapboxId sessionToken)
        = [Did (Fetch (retrieve_url' mapboxId sessionToken accessToken))]
        /\ (forall e,
              fetch (retrieve_url' mapboxId sessionToken accessToken) = Throw e ->
              snd (retrieve' mapboxId sessionToken) = Normal None)
        /\ (forall response,
              fetch (retrieve_url' mapboxId sessionToken accessToken)
              = Normal response ->
              (ok response = false ->
               snd (retrieve' mapboxId sessionToken) = Normal None)
              /\ (forall e, json response = Throw e ->
                    snd (retrieve' mapboxId sessionToken) = Normal None))).
Proof.
  assert (Hwith : forall c t,
             token = Some (String c t) ->
             let url := retrieve_url' mapboxId sessionToken (String c t) in
             (exists r, snd (retrieve' mapboxId sessionToken) = Normal r)
             /\ (forall r,
                   snd (retrieve' mapboxId sessionToken) = Normal (Some r) ->
                   isNaN (longitude r) = false /\ isNaN (latitude r) = false)
             /\ requests (retrieve' mapboxId sessionToken) = [Did (Fetch url)]
             /\ (forall e, fetch url = Throw e ->
                           snd (retrieve' mapboxId sessionToken) = Normal None)
             /\ (forall response, fetch url = Normal response ->
                   (ok response = false ->
                    snd (retrieve' mapboxId sessionToken) = Normal None)
                   /\ (forall e, json response = Throw e ->
                         snd (retrieve' mapboxId sessionToken) = Normal None))).
  { intros c t Htok. cbv zeta. unfold retrieveSearchResult. rewrite Htok.
    cbv zeta. rewrite snd_try_catch, requests_try_catch.
    rewrite !snd_task_bind, !requests_task_bind.
    cbn [snd fst lift fetch_from done map console_error requests filter
           is_request app].
    destruct (fetch _) as [response|e]; [|leaf].
    rewrite ?snd_task_bind, ?requests_task_bind.
    cbn [snd fst done requests filter app].
    destruct (ok response) eqn:Hok; cbn [negb]; [|leaf].
    rewrite ?snd_task_bind, ?requests_task_bind.
    cbn [snd fst done requests filter app].
    destruct (json response) as [data|e] eqn:Hjson; [|leaf].
    destruct (search_result_spec data) as [Hreq Hnan]. rewrite Hreq.
    destruct (snd (search_result' data)) as [r|e]; [|leaf].
    split; [eexists; reflexivity|].
    split; [intros result [= ->]; now apply (Hnan _ eq_refl)|].
    split; [reflexivity|]. split; [discriminate|].
    intros ? [= <-]. split; close. }
  assert (Hcases : token = None \/ token = Some EmptyString
                   \/ exists c t, token = Some (String c t))
    by (destruct token as [[|c t]|]; eauto).
  destruct Hcases as [Htok | [Htok | (c & t & Htok)]].
  - unfold retrieveSearchResult. rewrite Htok.
    split; [eexists; reflexivity|]. split; [discriminate|].
    split; [reflexivity|discriminate].
  - unfold retrieveSearchResult. rewrite Htok.
    split; [eexists; reflexivity|]. split; [discriminate|].
    split; [reflexivity|]. intros accessToken [= <-]. congruence.
  - destruct (Hwith c t Htok) as (Hret & Hnan & Hreq & Hfail & Hresp).
    split; [exact Hret|]. split; [exact Hnan|].
    split; [intros [H|H]; congruence|].
    intros accessToken Hacc Hne. rewrite Htok in Hacc.
    injection Hacc as <-. auto.
Qed.

End CallFacts.

End SearchBoxFacts.
(** ** The order of the suggestions *)

Module RankingFacts.
Import JS MapboxSearch Ranking.

Lemma get_not_nullish (s : value) (key : string) :
  nullish s = false -> get s key = Normal (field s key).
Proof.
  intros Hs. unfold field. destruct s; try discriminate; cbn;
    try reflexivity; destruct (String.eqb key "length"); reflexivity.
Qed.

Lemma raw_suggestion_not_nullish (s : value) (index : nat) :
  nullish s = false ->
  raw_suggestion s index
  = Normal {| suggestion := suggestion_of s; originalIndex := index |}.
Proof.
  intros Hs. unfold raw_suggestion. rewrite !get_not_nullish by assumption.
  reflexivity.
Qed.

Lemma map_indexed_not_nullish (elements : list value) :
  Forall (fun s => nullish s = false) elements ->
  forall index,
    map_indexed raw_suggestion index elements = Normal (indexed index elements).
Proof.
  induction 1 as [|s rest Hs _ IH]; intros index; cbn [map_indexed indexed].
  - reflexivity.
  - rewrite raw_suggestion_not_nullish by assumption. cbn [bind].
    rewrite IH. reflexivity.
Qed.

Lemma map_suggestion_indexed (elements : list value) :
  forall index,
    map suggestion (indexed index elements) = map suggestion_of elements.
Proof.
  induction elements as [|s rest IH]; intros index; cbn; [reflexivity|].
  now rewrite IH.
Qed.

(** Between two different ranks the comparator is their difference, and it
    is positive when the first is the larger. *)
Lemma rank_gap (ra rb : nat) :
  (ra <= 4)%nat -> (rb < ra)%nat ->
  eqb (priority_of_rank ra) (priority_of_rank rb) = false
  /\ ltb zero (sub (priority_of_rank ra) (priority_of_rank rb)) = true.
Proof.
  intros Ha Hb.
  destruct ra as [|[|[|[|[|ra]]]]]; try lia;
    destruct rb as [|[|[|[|rb]]]]; try lia; split; vm_compute; reflexivity.
Qed.

Lemma rank_le_4 (s : SearchSuggestion) : (rank s <= 4)%nat.
Proof.
  unfold rank. destruct (featureType s); try lia.
  repeat (destruct (String.eqb _ _); try lia).
Qed.

Section Order.

Variable NumberToString : number -> string.
Variable to_string_other : value -> completion string.
Variable URLSearchParams_toString : list (string * string) -> string.
Variable Array_sort : (Ranked -> Ranked -> number) -> list Ranked -> list Ranked.
Variable token : option string.
Variable fetch : string -> completion Response.

Abbreviation getSuggestions' :=
  (getSuggestions NumberToString to_string_other URLSearchParams_toString
     Array_sort token fetch).
Abbreviation sorted' :=
  (sorted_suggestions NumberToString to_string_other Array_sort).
Abbreviation url' := (suggest_url NumberToString URLSearchParams_toString).
Abbreviation with_priority' := (with_priority NumberToString to_string_other).

(** The second [map] gives an ordinary suggestion the priority of its
    rank. *)
Lemma priority_ordinary (r : Raw) (index : nat) :
  ordinary (suggestion r) = true ->
  with_priority' r index
  = Normal {| raw := r;
              priority := inl (VNumber (priority_of_rank (rank (suggestion r)))) |}.
Proof.
  unfold ordinary, with_priority, rank.
  destruct (featureType (suggestion r)) as [| |b|x|t|l|o]; cbn [ToBoolean];
    try reflexivity; try discriminate.
  - destruct b; [discriminate|reflexivity].
  - destruct x; try discriminate; reflexivity.
  - intros Hproto. apply Bool.negb_true_iff in Hproto.
    destruct (String.eqb_spec t EmptyString) as [->|Hne]; cbn [negb];
      [reflexivity|].
    cbn [property_key bind]. unfold typePriority. rewrite Hproto.
    destruct (String.eqb t "place"); [reflexivity|].
    destruct (String.eqb t "region"); [reflexivity|].
    destruct (String.eqb t "postcode"); [reflexivity|].
    destruct (String.eqb t "address"); reflexivity.
Qed.

(** It gives every suggestion whose feature type is primitive some
    priority. *)
Lemma priority_primitive (r : Raw) (index : nat) :
  primitive (featureType (suggestion r)) = true ->
  exists p, with_priority' r index = Normal {| raw := r; priority := p |}.
Proof.
  unfold primitive, with_priority.
  destruct (featureType (suggestion r)) as [| |b|x|t|l|o]; try discriminate;
    intros _; cbn [bind property_key];
    destruct (ToBoolean _); cbn [bind]; eauto.
Qed.

(** When the callback gives each element a priority, the second [map]
    returns the elements, each with a priority, in their order. *)
Lemma second_map_keeps (raws : list Raw) :
  Forall (fun r => forall index,
            exists p, with_priority' r index
                      = Normal {| raw := r; priority := p |}) raws ->
  forall index,
    exists ranked, map_indexed with_priority' index raws = Normal ranked
                   /\ map raw ranked = raws.
Proof.
  induction 1 as [|r rest Hr _ IH]; intros index; cbn [map_indexed].
  - exists []. split; reflexivity.
  - destruct (Hr index) as (p & ->). destruct (IH (S index)) as (l & -> & Hl).
    cbn [bind]. eexists. split; [reflexivity|]. cbn [map raw].
    now rewrite Hl.
Qed.

Lemma indexed_suggestions (P : SearchSuggestion -> Prop) (elements : list value) :
  Forall (fun s => P (suggestion_of s)) elements ->
  forall index, Forall (fun r => P (suggestion r)) (indexed index elements).
Proof.
  induction 1 as [|s rest Hs _ IH]; intros index; cbn [indexed];
    constructor; [exact Hs|apply IH].
Qed.

(** What the [try] block makes of a body whose elements can be read. *)
Lemma sorted_suggestions_readable (data : value) (elements : list value) :
  get data "suggestions" = Normal (VArray elements) ->
  Forall (fun s => nullish s = false) elements ->
  sorted' data
  = (ranked <- map_indexed with_priority' 0 (indexed 0 elements) ;;
     Normal (map rest_of (Array_sort compare_ranked ranked))).
Proof.
  intros Hdata Hread. unfold sorted_suggestions. rewrite Hdata.
  cbn [bind ToBoolean]. rewrite map_indexed_not_nullish by assumption.
  reflexivity.
Qed.

Lemma getSuggestions_answer (query sessionToken accessToken : string)
      (options : option Options) (response : Response) (data : value)
      (elements : list value) (ranked : list Ranked) :
  token = Some accessToken -> accessToken <> EmptyString ->
  fetch (url' query sessionToken accessToken options) = Normal response ->
  ok response = true -> json response = Normal data ->
  get data "suggestions" = Normal (VArray elements) ->
  Forall (fun s => nullish s = false) elements ->
  map_indexed with_priority' 0 (indexed 0 elements) = Normal ranked ->
  snd (getSuggestions' query sessionToken options)
  = Normal (map rest_of (Array_sort compare_ranked ranked)).
Proof.
  intros Htok Hne Hfetch Hok Hjson Hdata Hread Hranked.
  rewrite (MapboxSearchFacts.getSuggestions_request _ _ _ _ _ _ _ _
             accessToken _ Htok Hne).
  unfold try_value. rewrite Hfetch. cbn [bind]. rewrite Hok. cbn [negb bind].
  rewrite Hjson. cbn [bind].
  rewrite (sorted_suggestions_readable data elements Hdata Hread), Hranked.
  reflexivity.
Qed.

(** X5. [getSuggestions] neither drops nor invents a suggestion: for an
    ok response whose body holds an array of suggestions, none of them
    [null] or [undefined] and none with an object or an array as its
    feature type, the result is a rearrangement of exactly those
    suggestions, each with the four fields read off its element, provided
    [sort] rearranges the array it is handed. *)
Theorem getSuggestions_keeps_every_suggestion
        (query sessionToken accessToken : string) (options : option Options)
        (response : Response) (data : value) (elements : list value) :
  token = Some accessToken -> accessToken <> EmptyString ->
  fetch (url' query sessionToken accessToken options) = Normal response ->
  ok response = true -> json response = Normal data ->
  get data "suggestions" = Normal (VArray elements) ->
  Forall (fun s => nullish s = false) elements ->
  Forall (fun s => primitive (featureType (suggestion_of s)) = true) elements ->
  (forall ranked,
     map_indexed with_priority' 0 (indexed 0 elements) = Normal ranked ->
     Permutation (Array_sort compare_ranked ranked) ranked) ->
  exists result,
    snd (getSuggestions' query sessionToken options) = Normal result
    /\ Permutation result (map suggestion_of elements).
Proof.
  intros Htok Hne Hfetch Hok Hjson Hdata Hread Hprim Hsort.
  destruct (second_map_keeps (indexed 0 elements)) with (index := 0%nat)
    as (ranked & Hranked & Hraw).
  { apply Forall_forall. intros r Hr index. apply priority_primitive.
    pose proof (indexed_suggestions
                  (fun s => primitive (featureType s) = true) elements Hprim 0)
      as Hall.
    rewrite Forall_forall in Hall. now apply Hall. }
  rewrite (getSuggestions_answer _ _ _ _ _ _ _ _ Htok Hne Hfetch Hok Hjson
             Hdata Hread Hranked).
  eexists. split; [reflexivity|].
  rewrite (Permutation_map rest_of (Hsort ranked Hranked)).
  unfold rest_of. rewrite <- (map_map raw suggestion), Hraw.
  now rewrite map_suggestion_indexed.
Qed.

(** X6. [getSuggestions] ranks by feature type: under the same
    conditions, when every feature type is ordinary (a string that names
    no member of Object.prototype, or absent) and [sort] puts no element
    after one that the comparator places behind it, every place in the
    result comes before every region, every region before every postcode,
    every postcode before every address, and all of them before the
    suggestions of any other type. *)
Theorem getSuggestions_ranks_by_type
        (query sessionToken accessToken : string) (options : option Options)
        (response : Response) (data : value) (elements : list value) :
  token = Some accessToken -> accessToken <> EmptyString ->
  fetch (url' query sessionToken accessToken options) = Normal response ->
  ok response = true -> json response = Normal data ->
  get data "suggestions" = Normal (VArray elements) ->
  Forall (fun s => nullish s = false) elements ->
  Forall (fun s => ordinary (suggestion_of s) = true) elements ->
  (forall ranked,
     map_indexed with_priority' 0 (indexed 0 elements) = Normal ranked ->
     sorts Array_sort ranked) ->
  exists result,
    snd (getSuggestions' query sessionToken options) = Normal result
    /\ StronglySorted (fun a b => (rank a <= rank b)%nat) result.
Proof.
  intros Htok Hne Hfetch Hok Hjson Hdata Hread Hord Hsorts.
  pose proof (indexed_suggestions (fun s => ordinary s = true) elements
                Hord 0) as Hordinary.
  assert (Hranks : forall raws index,
             Forall (fun r => ordinary (suggestion r) = true) raws ->
             exists ranked,
               map_indexed with_priority' index raws = Normal ranked
               /\ Forall (fun r =>
                            ordinary (suggestion (raw r)) = true
                            /\ priority r
                               = inl (VNumber (priority_of_rank
                                                 (rank (suggestion (raw r))))))
                    ranked).
  { induction raws as [|r rest IH]; intros index Hall; cbn [map_indexed].
    - exists []. split; [reflexivity|constructor].
    - inversion Hall as [|? ? Hr Hrest]; subst.
      rewrite (priority_ordinary r index Hr). cbn [bind].
      destruct (IH (S index) Hrest) as (l & -> & Hl). cbn [bind].
      eexists. split; [reflexivity|]. constructor; [|exact Hl].
      split; [exact Hr|reflexivity]. }
  destruct (Hranks _ 0%nat Hordinary) as (ranked & Hranked & Hall).
  destruct (Hsorts ranked Hranked) as [Hperm Hsorted].
  rewrite (getSuggestions_answer _ _ _ _ _ _ _ _ Htok Hne Hfetch Hok Hjson
             Hdata Hread Hranked).
  eexists. split; [reflexivity|].
  assert (Hsortedall : Forall (fun r =>
                ordinary (suggestion (raw r)) = true
                /\ priority r
                   = inl (VNumber (priority_of_rank
                                     (rank (suggestion (raw r))))))
             (Array_sort compare_ranked ranked)).
  { apply Forall_forall. intros r Hr.
    apply (Permutation_in _ Hperm) in Hr.
    rewrite Forall_forall in Hall. now apply Hall. }
  clear Hperm Hall. revert Hsortedall.
  induction Hsorted as [|r l Hl IH Hr]; intros Hall; cbn [map];
    [constructor|].
  inversion Hall as [|? ? [Hx Hpx] Hrest]; subst.
  constructor; [now apply IH|].
  apply Forall_forall. intros b Hb. apply in_map_iff in Hb.
  destruct Hb as (rb & <- & Hin).
  rewrite Forall_forall in Hr, Hrest.
  specialize (Hr rb Hin). destruct (Hrest rb Hin) as [Hy Hpy].
  unfold rest_of.
  destruct (le_lt_dec (rank (suggestion (raw r))) (rank (suggestion (raw rb))))
    as [Hle|Hgt]; [assumption|]. exfalso.
  destruct (rank_gap _ _ (rank_le_4 (suggestion (raw r))) Hgt) as [Hne' Hpos].
  unfold compare_ranked in Hr. rewrite Hpx, Hpy in Hr.
  cbn [same_priority priority_number] in Hr. rewrite Hne' in Hr. congruence.
Qed.

End Order.

(** The insertion sort rearranges. *)
Lemma insert_sorted_perm (cmp : Ranked -> Ranked -> number) (x : Ranked)
      (l : list Ranked) :
  Permutation (insert_sorted cmp x l) (x :: l).
Proof.
  induction l as [|y l IH]; cbn; [reflexivity|].
  destruct (ltb (cmp x y) zero); [reflexivity|].
  rewrite IH. apply perm_swap.
Qed.

Lemma stable_sort_perm (cmp : Ranked -> Ranked -> number) (l : list Ranked) :
  Permutation (stable_sort cmp l) l.
Proof.
  unfold stable_sort. induction l as [|x l IH]; cbn; [reflexivity|].
  rewrite insert_sorted_perm. now constructor.
Qed.

Lemma getSuggestions_keeps_every_suggestion_witness :
  exists result,
    snd (getSuggestions test_printer test_to_string test_query_text stable_sort
           (Some "test-token"%string) (test_fetch test_response)
           "salt lake city" "session-token" None) = Normal result
    /\ Permutation result (map suggestion_of test_elements).
Proof.
  apply (getSuggestions_keeps_every_suggestion test_printer test_to_string
           test_query_text stable_sort (Some "test-token"%string)
           (test_fetch test_response) "salt lake city" "session-token"
           "test-token" None test_response test_answer test_elements).
  - reflexivity.
  - discriminate.
  - reflexivity.
  - reflexivity.
  - reflexivity.
  - reflexivity.
  - repeat constructor.
  - repeat constructor.
  - intros ranked _. apply stable_sort_perm.
Defined.

Lemma getSuggestions_ranks_by_type_witness :
  exists result,
    snd (getSuggestions test_printer test_to_string test_query_text stable_sort
           (Some "test-token"%string) (test_fetch test_response)
           "salt lake city" "session-token" None) = Normal result
    /\ StronglySorted (fun a b => (rank a <= rank b)%nat) result.
Proof.
  apply (getSuggestions_ranks_by_type test_printer test_to_string
           test_query_text stable_sort (Some "test-token"%string)
           (test_fetch test_response) "salt lake city" "session-token"
           "test-token" None test_response test_answer test_elements).
  - reflexivity.
  - discriminate.
  - reflexivity.
  - reflexivity.
  - reflexivity.
  - reflexivity.
  - repeat constructor.
  - repeat constructor.
  - intros ranked Hranked. vm_compute in Hranked.
    injection Hranked as <-.
    split; [apply stable_sort_perm|].
    match goal with
    | |- StronglySorted ?R ?l =>
        let l' := eval vm_compute in l in change (StronglySorted R l')
    end.
    repeat first [ apply SSorted_nil | apply SSorted_cons
                 | apply Forall_nil | apply Forall_cons
                 | vm_compute; reflexivity ].
Defined.

End RankingFacts.
(** ** Facts about [Math.random() * 16]

    Multiplying a double of [0, 1) by 16 is exact: the rounding only drops
    zero bits.  So the integer part of the product is one of 0..15. *)

Module RandomFacts.
Import JS SessionToken.

Lemma iter_pos_nat {A} (f : A -> A) (p : positive) (x : A) :
  iter_pos f p x = Nat.iter (Pos.to_nat p) f x.
Proof.
  revert x. induction p as [p IH|p IH|]; intros x; cbn [iter_pos].
  - rewrite !IH, Pos2Nat.inj_xI, Nat.iter_succ_r.
    replace (2 * Pos.to_nat p)%nat with (Pos.to_nat p + Pos.to_nat p)%nat
      by lia.
    now rewrite Nat.iter_add.
  - rewrite !IH, Pos2Nat.inj_xO.
    replace (2 * Pos.to_nat p)%nat with (Pos.to_nat p + Pos.to_nat p)%nat
      by lia.
    now rewrite Nat.iter_add.
  - reflexivity.
Qed.

Abbreviation exact m := {| shr_m := m; shr_r := false; shr_s := false |}.

Lemma shr_exact_nat (k : nat) (q : positive) :
  Nat.iter k shr_1 (exact (Zpos (Pos.shiftl_nat q k))) = exact (Zpos q).
Proof.
  induction k as [|k IH]; [reflexivity|].
  rewrite Nat.iter_succ_r.
  change (Pos.shiftl_nat q (S k)) with (xO (Pos.shiftl_nat q k)).
  exact IH.
Qed.

Lemma shiftl_nat_Z (q : positive) (k : nat) :
  Zpos (Pos.shiftl_nat q k) = Zpos q * 2 ^ Z.of_nat k.
Proof.
  induction k as [|k IH]; [cbn; lia|].
  change (Pos.shiftl_nat q (S k)) with (xO (Pos.shiftl_nat q k)).
  rewrite Nat2Z.inj_succ, Z.pow_succ_r, Pos2Z.inj_xO, IH by lia. lia.
Qed.

(** Shifting out [n] zero bits loses nothing. *)
Lemma shr_exact (q : positive) (e n : Z) :
  0 <= n -> shr (exact (Zpos q * 2 ^ n)) e n = (exact (Zpos q), e + n).
Proof.
  intros Hn. destruct n as [|p|p]; try lia.
  - cbn [shr]. now rewrite Z.pow_0_r, Z.mul_1_r, Z.add_0_r.
  - cbn [shr]. rewrite iter_pos_nat.
    replace (Zpos q * 2 ^ Zpos p)
      with (Zpos (Pos.shiftl_nat q (Pos.to_nat p)))
      by (now rewrite shiftl_nat_Z, positive_nat_Z).
    now rewrite shr_exact_nat.
Qed.

Lemma sixteen : of_Z 16 = S754_finite false 4503599627370496 (-48).
Proof. vm_compute. reflexivity. Qed.

Lemma one : of_Z 1 = S754_finite false 4503599627370496 (-52).
Proof. vm_compute. reflexivity. Qed.

(** The product of a double below 1 and 16, exactly. *)
Lemma mul_16_exact (m : positive) (e : Z) :
  bounded prec emax m e = true -> e <= -52 ->
  exists q n,
    0 <= n <= 52
    /\ Zpos q = Zpos m * 2 ^ (52 - n)
    /\ mul (S754_finite false m e) (of_Z 16)
       = S754_finite false q (e - 48 + n).
Proof.
  intros Hb He. rewrite sixteen. unfold mul. cbn [SFmul xorb].
  unfold bounded, canonical_mantissa in Hb.
  apply andb_true_iff in Hb. destruct Hb as [Hc _].
  apply Z.eqb_eq in Hc.
  set (d := Zpos (digits2_pos m)) in *.
  assert (Hd : d = Z.log2 (Zpos m) + 1)
    by (unfold d; rewrite <- (JSFacts.Zdigits2_log2 (Zpos m)); [reflexivity|lia]).
  assert (Hd1 : 1 <= d) by (pose proof (Z.log2_nonneg (Zpos m)); lia).
  set (n := fexp prec emax (d + 52 + (e + -48)) - (e + -48)).
  assert (Hn : 0 <= n <= 52)
    by (unfold n, fexp, emin, prec, emax in *; lia).
  set (q := Z.to_pos (Zpos m * 2 ^ (52 - n))).
  assert (H2 : 0 < 2 ^ (52 - n)) by (apply Z.pow_pos_nonneg; lia).
  assert (Hq : Zpos q = Zpos m * 2 ^ (52 - n))
    by (unfold q; rewrite Z2Pos.id; [reflexivity|lia]).
  exists q, n. split; [assumption|]. split; [assumption|].
  assert (Hmx : Zpos (m * 4503599627370496) = Zpos q * 2 ^ n).
  { rewrite Hq, <- Z.mul_assoc, <- Z.pow_add_r by lia.
    replace (52 - n + n) with 52 by lia. reflexivity. }
  assert (Hdigits : Zdigits2 (Zpos (m * 4503599627370496)) = d + 52).
  { rewrite JSFacts.Zdigits2_log2 by lia.
    rewrite Pos2Z.inj_mul.
    change (Zpos 4503599627370496) with (2 ^ 52).
    rewrite Z.log2_mul_pow2 by lia. lia. }
  assert (Hdq : Zdigits2 (Zpos q) = d + 52 - n).
  { rewrite JSFacts.Zdigits2_log2 by lia.
    rewrite Hq, Z.log2_mul_pow2 by lia. lia. }
  unfold binary_round_aux, shr_fexp.
  rewrite Hdigits. fold n.
  change (shr_record_of_loc (Zpos (m * 4503599627370496)) loc_Exact)
    with (exact (Zpos (m * 4503599627370496))).
  rewrite Hmx, shr_exact by lia.
  change (loc_of_shr_record (exact (Zpos q))) with loc_Exact.
  change (shr_m (exact (Zpos q))) with (Zpos q).
  change (round_nearest_even (Zpos q) loc_Exact) with (Zpos q).
  rewrite Hdq.
  replace (fexp prec emax (d + 52 - n + (e + -48 + n)) - (e + -48 + n))
    with 0 by (unfold n, fexp, emin, prec, emax in *; lia).
  cbn [shr shr_record_of_loc shr_m].
  replace (e + -48 + n <=? emax - prec) with true
    by (symmetry; apply Z.leb_le; unfold emax, prec; lia).
  reflexivity.
Qed.

(** The same product as a rational number. *)
Lemma to_Q_negative_exponent (q : positive) (k : Z) :
  0 <= k ->
  (to_Q (S754_finite false q (- k)) == inject_Z (Zpos q) / inject_Z (2 ^ k))%Q.
Proof.
  intros Hk. unfold to_Q. rewrite Qpower_opp, Zpower_Qpower by assumption.
  change (inject_Z 2) with 2%Q. unfold Qdiv. ring.
Qed.

(** [(Math.random() * 16) | 0] is one of 0..15. *)
Lemma draw_in_range (x : number) :
  unit_interval x = true -> 0 <= draw x < 16.
Proof.
  unfold unit_interval. destruct x as [[|]| | |[|] m e]; try discriminate.
  - intros _.
    assert (Hz : draw (S754_zero false) = 0) by (vm_compute; reflexivity).
    rewrite Hz. lia.
  - intros H. apply andb_true_iff in H. destruct H as [Hb Hlt].
    unfold valid_binary in Hb.
    rewrite one in Hlt. unfold ltb, SFltb in Hlt. cbn [SFcompare] in Hlt.
    assert (Hcan := Hb). unfold bounded, canonical_mantissa in Hcan.
    apply andb_true_iff in Hcan. destruct Hcan as [Hcan _].
    apply Z.eqb_eq in Hcan.
    assert (Hlog : Zpos (digits2_pos m) = Z.log2 (Zpos m) + 1)
      by (rewrite <- (JSFacts.Zdigits2_log2 (Zpos m)); [reflexivity|lia]).
    assert (Hm : Zpos m < 2 ^ 53 /\ e <= -52
                 /\ (e = -52 -> Zpos m < 2 ^ 52)).
    { assert (Hd53 : Z.log2 (Zpos m) < 53)
        by (unfold fexp, emin, prec, emax in Hcan; lia).
      split; [apply Z.log2_lt_pow2; lia|].
      revert Hlt.
      destruct (Z.compare_spec e (-52)) as [->|Hl|Hg];
        [|intros _; split; lia|intros Hlt; discriminate Hlt].
      destruct (Pos.compare_cont Eq m 4503599627370496) eqn:Hc;
        intros Hcmp; try discriminate Hcmp.
      split; [apply Z.le_refl|]. intros _.
      apply Pos2Z.pos_lt_pos. exact Hc. }
    destruct Hm as (Hm53 & He & Hm52).
    destruct (mul_16_exact m e Hb He) as (q & n & Hn & Hq & Hmul).
    unfold draw. rewrite Hmul. unfold ToInt32, truncate.
    set (v := to_Q (S754_finite false q (e - 48 + n))).
    assert (Hv : (0 <= v /\ v < 16)%Q).
    { unfold v. replace (e - 48 + n) with (- (48 - n - e)) by lia.
      rewrite to_Q_negative_exponent by lia.
      assert (Hpow : 0 < 2 ^ (48 - n - e)) by (apply Z.pow_pos_nonneg; lia).
      assert (HpowQ : (0 < inject_Z (2 ^ (48 - n - e)))%Q)
        by (change 0%Q with (inject_Z 0); rewrite <- Zlt_Qlt; exact Hpow).
      split.
      - apply Qle_shift_div_l; [exact HpowQ|].
        rewrite Qmult_0_l. change 0%Q with (inject_Z 0).
        rewrite <- Zle_Qle. lia.
      - apply Qlt_shift_div_r; [exact HpowQ|].
        change 16%Q with (inject_Z 16).
        rewrite <- inject_Z_mult, <- Zlt_Qlt, Hq.
        replace (48 - n - e) with ((52 - n) + (- e - 4)) by lia.
        rewrite Z.pow_add_r by lia.
        assert (H1 : 0 < 2 ^ (52 - n)) by (apply Z.pow_pos_nonneg; lia).
        assert (H2 : Zpos m < 16 * 2 ^ (- e - 4)).
        { change 16 with (2 ^ 4). rewrite <- Z.pow_add_r by lia.
          replace (4 + (- e - 4)) with (- e) by lia.
          destruct (Z.eq_dec e (-52)) as [->|Hne]; [now apply Hm52|].
          apply Z.lt_le_trans with (2 ^ 53); [assumption|].
          apply Z.pow_le_mono_r; lia. }
        nia. }
    destruct Hv as [Hv0 Hv16].
    pose proof (Qfloor_le v) as Hfl. pose proof (Qlt_floor v) as Hfu.
    assert (Hf : 0 <= Qfloor v < 16).
    { split.
      - assert (H : (inject_Z 0 < inject_Z (Qfloor v + 1))%Q)
          by (eapply Qle_lt_trans; [exact Hv0|exact Hfu]).
        rewrite <- Zlt_Qlt in H. lia.
      - assert (H : (inject_Z (Qfloor v) < inject_Z 16)%Q)
          by (eapply Qle_lt_trans; [exact Hfl|exact Hv16]).
        rewrite <- Zlt_Qlt in H. exact H. }
    rewrite Z.mod_small by lia.
    replace (2 ^ 31 <=? Qfloor v) with false
      by (symmetry; apply Z.leb_gt; lia).
    exact Hf.
Qed.

End RandomFacts.
(** ** Facts about [generateSessionToken] *)

Module SessionTokenFacts.
Import JS SessionToken.

(** A draw within 0..15 prints as one hexadecimal digit. *)
Lemma toString16_digit (r : Z) :
  0 <= r < 16 ->
  exists c, toString16 r = String c EmptyString /\ is_hex c = true.
Proof.
  intros Hr.
  assert (Hcases : r = 0 \/ r = 1 \/ r = 2 \/ r = 3 \/ r = 4 \/ r = 5 \/ r = 6
                   \/ r = 7 \/ r = 8 \/ r = 9 \/ r = 10 \/ r = 11 \/ r = 12
                   \/ r = 13 \/ r = 14 \/ r = 15) by lia.
  repeat (destruct Hcases as [-> | Hcases];
          [eexists; split; vm_compute; reflexivity|]).
  subst r. eexists; split; vm_compute; reflexivity.
Qed.

(** Whatever the draw, [(r & 0x3) | 0x8] prints as 8, 9, a or b. *)
Lemma toString16_variant (r : Z) :
  exists c, toString16 (Z.lor (Z.land r 3) 8) = String c EmptyString
            /\ is_variant c = true.
Proof.
  change 3 with (Z.ones 2). rewrite Z.land_ones by lia.
  assert (Hm : 0 <= r mod 2 ^ 2 < 4) by (apply Z.mod_pos_bound; lia).
  assert (Hcases : r mod 2 ^ 2 = 0 \/ r mod 2 ^ 2 = 1 \/ r mod 2 ^ 2 = 2
                   \/ r mod 2 ^ 2 = 3) by lia.
  destruct Hcases as [-> | [-> | [-> | ->]]];
    eexists; split; vm_compute; reflexivity.
Qed.

(** Replacing in a pattern gives a string of that pattern, when every call
    of the callback gives one character of the right kind. *)
Lemma replace_xy_matches (f : ascii -> nat -> string) (pattern : string) :
  (forall call, exists c, f "x"%char call = String c EmptyString
                          /\ is_hex c = true) ->
  (forall call, exists c, f "y"%char call = String c EmptyString
                          /\ is_variant c = true) ->
  forall calls,
    matches pattern (replace_xy f calls pattern) = true
    /\ String.length (replace_xy f calls pattern) = String.length pattern.
Proof.
  intros Hx Hy. induction pattern as [|p pattern IH]; intros calls.
  - split; reflexivity.
  - cbn [replace_xy].
    destruct (Ascii.eqb_spec p "x") as [->|Hnx].
    + cbn [orb]. destruct (Hx calls) as (c & -> & Hc).
      cbn [append matches String.length]. rewrite Ascii.eqb_refl, Hc.
      destruct (IH (S calls)) as [-> ->]. split; reflexivity.
    + destruct (Ascii.eqb_spec p "y") as [->|Hny].
      * cbn [orb]. destruct (Hy calls) as (c & -> & Hc).
        cbn [append matches String.length].
        replace (Ascii.eqb "y" "x") with false by reflexivity.
        rewrite Ascii.eqb_refl, Hc.
        destruct (IH (S calls)) as [-> ->]. split; reflexivity.
      * cbn [orb matches String.length].
        apply Ascii.eqb_neq in Hnx, Hny. rewrite Hnx, Hny, Ascii.eqb_refl.
        destruct (IH calls) as [-> ->]. split; reflexivity.
Qed.

(** X7. [generateSessionToken] returns a version 4 UUID: 36 characters in
    the pattern xxxxxxxx-xxxx-4xxx-yxxx-xxxxxxxxxxxx, with a lower-case
    hexadecimal digit for every x and one of 8, 9, a, b for the y,
    whatever doubles of [0, 1) the calls of [Math.random()] return. *)
Theorem generateSessionToken_is_uuid_v4 (random : nat -> number) :
  (forall call, unit_interval (random call) = true) ->
  matches template (generateSessionToken random) = true
  /\ String.length (generateSessionToken random) = 36%nat.
Proof.
  intros Hrandom. unfold generateSessionToken.
  apply (replace_xy_matches (digit random) template).
  - intros call. unfold digit. cbv zeta. rewrite Ascii.eqb_refl.
    apply toString16_digit, RandomFacts.draw_in_range, Hrandom.
  - intros call. unfold digit. cbv zeta.
    replace (Ascii.eqb "y" "x") with false by reflexivity.
    apply toString16_variant.
Qed.

Lemma generateSessionToken_is_uuid_v4_witness :
  matches template (generateSessionToken one_half) = true
  /\ String.length (generateSessionToken one_half) = 36%nat.
Proof.
  apply (generateSessionToken_is_uuid_v4 one_half).
  intros call. vm_compute. reflexivity.
Defined.

Example generateSessionToken_one_half :
  generateSessionToken one_half = "88888888-8888-4888-8888-888888888888"%string.
Proof. vm_compute. reflexivity. Qed.

End SessionTokenFacts.
(** ** Facts about hooks/useSearch.ts *)

Module UseSearchFacts.
Import JS MapboxSearch UseSearch.

Lemma filter_update_nth_off (f : Timer -> Timer) (l : list Timer) :
  (forall t, is_pending (f t) = false) ->
  forall k t, nth_error l k = Some t ->
              filter is_pending l = (if is_pending t then [t] else []) ->
              filter is_pending (UseRoute.update_nth k f l) = [].
Proof.
  intros Hoff. induction l as [|x l IH]; intros [|k] t Hk Hf;
    try discriminate.
  - cbn in Hk. injection Hk as ->. cbn [UseRoute.update_nth filter] in *.
    rewrite Hoff. destruct (is_pending t); [now injection Hf|exact Hf].
  - cbn [UseRoute.update_nth filter] in *. cbn in Hk.
    destruct (is_pending x) eqn:Hx.
    + exfalso. destruct (is_pending t) eqn:Ht; [|discriminate].
      injection Hf as Hxt Hrest.
      assert (Hin : In t (filter is_pending l))
        by (apply filter_In; split; [eapply nth_error_In; eauto|assumption]).
      rewrite Hrest in Hin. contradiction.
    + now apply (IH k t).
Qed.

Lemma clear_off (t : Timer) : is_pending (clear t) = false.
Proof.
  unfold clear, is_pending. destruct (t_status t) eqn:Hs; cbn; now rewrite ?Hs.
Qed.

Lemma single_pending (l : list Timer) (t : Timer) :
  filter is_pending l = [t] -> is_pending t = true.
Proof.
  intros Hf. assert (Hin : In t (filter is_pending l)) by (rewrite Hf; now left).
  apply filter_In in Hin. tauto.
Qed.

Lemma filter_update_nth_other (f : Timer -> Timer) (k : nat) (l : list Timer) :
  (forall t, is_pending t = false -> is_pending (f t) = false) ->
  (forall t, nth_error l k = Some t -> is_pending t = false) ->
  filter is_pending (UseRoute.update_nth k f l) = filter is_pending l.
Proof.
  intros Hf. revert k. induction l as [|x l IH]; intros [|k] Hk;
    cbn [UseRoute.update_nth filter]; try reflexivity.
  - assert (Hx : is_pending x = false) by (apply Hk; reflexivity).
    now rewrite Hx, (Hf x Hx).
  - rewrite IH; [reflexivity|]. intros t Ht. apply Hk. exact Ht.
Qed.

Section HookFacts.

Variable trim : string -> string.
Variable message : exn -> string.

Abbreviation step' := (step trim message).
Abbreviation run' := (run trim message).
Abbreviation last_query' := (last_query trim).

(** What [suggest] does to the timers, for a query that is not blank. *)
Lemma suggest_rearms (query : string) (s : State) :
  one_timer s -> String.eqb (trim query) EmptyString = false ->
  filter is_pending (timers (suggest trim query s))
  = [{| t_query := query; t_status := Pending |}]
  /\ one_timer (suggest trim query s)
  /\ calls (suggest trim query s) = calls s.
Proof.
  intros Hone Hq. unfold suggest. rewrite Hq. cbv zeta.
  cbn [timers debounceTimer calls].
  set (cleared := match debounceTimer s with
                  | Some k => update_nth k clear (timers s)
                  | None => timers s
                  end).
  assert (Hcleared : filter is_pending cleared = []).
  { unfold cleared. destruct Hone as [Hnone | (k & t & Href & Hk & Hf)].
    - destruct (debounceTimer s) as [k|]; [|assumption].
      unfold update_nth. rewrite filter_update_nth_other; [assumption| |].
      + intros t Ht. unfold clear, is_pending in *.
        destruct (t_status t) eqn:Hs; cbn in *; rewrite ?Hs; congruence.
      + intros t Ht. destruct (is_pending t) eqn:Hp; [|reflexivity].
        assert (Hin : In t (filter is_pending (timers s)))
          by (apply filter_In; split; [eapply nth_error_In; eauto|assumption]).
        rewrite Hnone in Hin. contradiction.
    - rewrite Href. unfold update_nth.
      apply (filter_update_nth_off clear (timers s) clear_off k t Hk).
      now rewrite Hf, (single_pending _ _ Hf). }
  assert (Hnew : filter is_pending
                   (cleared ++ [{| t_query := query; t_status := Pending |}])
                 = [{| t_query := query; t_status := Pending |}])
    by (rewrite filter_app, Hcleared; reflexivity).
  split; [exact Hnew|]. split; [|reflexivity].
  unfold one_timer. cbn [timers debounceTimer].
  right. exists (List.length cleared), {| t_query := query; t_status := Pending |}.
  split; [reflexivity|]. split; [|exact Hnew].
  rewrite nth_error_app2 by lia. now rewrite Nat.sub_diag.
Qed.

Lemma step_one_timer (s : State) (e : event) :
  one_timer s -> one_timer (step' s e).
Proof.
  intros Hone. destruct e as [query|k|j results|result|token|]; cbn [step].
  - destruct (String.eqb (trim query) EmptyString) eqn:Hq.
    + unfold suggest. rewrite Hq. exact Hone.
    + now apply suggest_rearms.
  - unfold timeout.
    destruct (nth_error (timers s) k) as [[query status]|] eqn:Hk;
      [|exact Hone].
    destruct status; try exact Hone.
    left. cbn [timers].
    destruct Hone as [Hnone | (k' & t & Href & Hk' & Hf)].
    + exfalso.
      assert (Hin : In {| t_query := query; t_status := Pending |}
                      (filter is_pending (timers s)))
        by (apply filter_In; split; [eapply nth_error_In; eauto|reflexivity]).
      rewrite Hnone in Hin. contradiction.
    + assert (Hsame : t = {| t_query := query; t_status := Pending |}).
      { assert (Hin : In {| t_query := query; t_status := Pending |}
                        (filter is_pending (timers s)))
          by (apply filter_In; split; [eapply nth_error_In; eauto|reflexivity]).
        rewrite Hf in Hin. destruct Hin as [Hin|[]]. exact Hin. }
      subst t. unfold update_nth.
      apply (filter_update_nth_off fire (timers s) (fun _ => eq_refl) k _ Hk).
      exact Hf.
  - unfold resume.
    destruct (nth_error (calls s) j) as [[cq ct [|]]|]; try exact Hone;
      destruct results; exact Hone.
  - unfold retrieve. destruct result; exact Hone.
  - exact Hone.
  - exact Hone.
Qed.

Lemma run_one_timer (token : string) (trace : list event) :
  one_timer (run' token trace).
Proof.
  unfold run.
  assert (Hgen : forall s, one_timer s -> one_timer (fold_left step' trace s)).
  { induction trace as [|e trace IH]; intros s Hs; cbn [fold_left];
      [assumption|]. apply IH. now apply step_one_timer. }
  apply Hgen. left. reflexivity.
Qed.

(** A run of keystrokes on a state with at most one timer pending. *)
Lemma keystrokes (queries : list string) :
  forall s,
    one_timer s ->
    let s' := fold_left step' (map Suggest queries) s in
    one_timer s'
    /\ calls s' = calls s
    /\ pending s'
       = match last_query' queries with
         | Some q => [q]
         | None => pending s
         end.
Proof.
  induction queries as [|q rest IH]; intros s Hone; cbn [map fold_left].
  - cbn [last_query]. auto.
  - cbn [last_query step].
    destruct (String.eqb (trim q) EmptyString) eqn:Hq.
    + assert (Hsame : one_timer (suggest trim q s)
                      /\ calls (suggest trim q s) = calls s
                      /\ pending (suggest trim q s) = pending s)
        by (unfold suggest; rewrite Hq; auto).
      destruct Hsame as (H1 & H2 & H3).
      destruct (IH _ H1) as (Hone' & Hcalls & Hpending).
      split; [assumption|]. split; [congruence|].
      rewrite Hpending.
      destruct (last_query' rest); [reflexivity|assumption].
    + destruct (suggest_rearms q s Hone Hq) as (Hnew & H1 & H2).
      destruct (IH _ H1) as (Hone' & Hcalls & Hpending).
      split; [assumption|]. split; [congruence|].
      rewrite Hpending.
      destruct (last_query' rest); [reflexivity|].
      unfold pending. now rewrite Hnew.
Qed.

(** X8. [suggest] debounces.  After any history, a run of calls of
    [suggest] leaves exactly one timer to fire, the one of the last query
    that is not blank (a blank query leaves the timer of an earlier query
    armed); the run itself calls [getSuggestions] not once, and when that
    timer fires there is one call, with the last query that was not blank
    and the current session token. *)
Theorem suggest_debounces (token : string) (history : list event)
        (queries : list string) (q : string) :
  last_query' queries = Some q ->
  let s := run' token (history ++ map Suggest queries) in
  pending s = [q]
  /\ calls s = calls (run' token history)
  /\ exists k,
       debounceTimer s = Some k
       /\ pending (step' s (Timeout k)) = []
       /\ calls (step' s (Timeout k))
          = calls s ++ [{| c_query := q; c_sessionToken := sessionToken s;
                           c_settled := false |}].
Proof.
  intros Hlast. cbv zeta. unfold run. rewrite fold_left_app.
  fold (run' token history).
  destruct (keystrokes queries (run' token history) (run_one_timer _ _))
    as (Hone & Hcalls & Hpending).
  cbv zeta in Hone, Hcalls, Hpending. rewrite Hlast in Hpending.
  set (s := fold_left step' (map Suggest queries) (run' token history)) in *.
  split; [assumption|]. split; [assumption|].
  destruct Hone as [Hnone | (k & t & Href & Hk & Hf)].
  - unfold pending in Hpending.
    rewrite Hnone in Hpending. discriminate.
  - exists k. split; [assumption|].
    unfold pending in Hpending.
    rewrite Hf in Hpending. injection Hpending as Hq.
    assert (Hp : is_pending t = true).
    { assert (Hin : In t (filter is_pending (timers s)))
        by (rewrite Hf; now left).
      apply filter_In in Hin. tauto. }
    destruct t as [tq ts]. cbn in Hq. subst tq.
    unfold is_pending in Hp. cbn in Hp. destruct ts; try discriminate.
    cbn [step]. unfold timeout. rewrite Hk. cbn [calls timers].
    split; [|reflexivity].
    unfold pending. cbn [timers]. unfold update_nth.
    rewrite (filter_update_nth_off fire (timers s) (fun _ => eq_refl) k _ Hk);
      [reflexivity|exact Hf].
Qed.

End HookFacts.

Lemma suggest_debounces_witness :
  let s := run trimmed any_message "token"
             (Scenarios.an_earlier_search ++ map Suggest Scenarios.typed) in
  pending s = ["salt"%string]
  /\ calls s = calls (run trimmed any_message "token"
                        Scenarios.an_earlier_search)
  /\ exists k,
       debounceTimer s = Some k
       /\ pending (step trimmed any_message s (Timeout k)) = []
       /\ calls (step trimmed any_message s (Timeout k))
          = calls s ++ [{| c_query := "salt"; c_sessionToken := sessionToken s;
                           c_settled := false |}].
Proof.
  apply (suggest_debounces trimmed any_message "token"
           Scenarios.an_earlier_search Scenarios.typed "salt"%string).
  reflexivity.
Defined.

End UseSearchFacts.
(** ** Facts about the database model *)

Module StorageFacts.
Import JS Storage Trpc Persisted.

Lemma round_half_away_close (q : Q) :
  (Qabs (inject_Z (round_half_away q) - q) <= 1 # 2)%Q.
Proof.
  unfold round_half_away. destruct (Qle_bool 0 q) eqn:Hs.
  - pose proof (Qfloor_le (q + (1 # 2))) as Hlo.
    pose proof (Qlt_floor (q + (1 # 2))) as Hhi.
    rewrite inject_Z_plus in Hhi. change (inject_Z 1) with 1%Q in Hhi.
    apply Qabs_case; intros; lra.
  - pose proof (Qfloor_le (- q + (1 # 2))) as Hlo.
    pose proof (Qlt_floor (- q + (1 # 2))) as Hhi.
    rewrite inject_Z_plus in Hhi. change (inject_Z 1) with 1%Q in Hhi.
    rewrite inject_Z_opp.
    apply Qabs_case; intros; lra.
Qed.

(** A coordinate that fits its column is stored within half a unit of the
    eighth fractional digit. *)
Lemma to_decimal_within (precision : Z) (q : Q) (v : decimal) :
  to_decimal precision q = Normal v -> within_precision q v.
Proof.
  unfold to_decimal, within_precision. cbv zeta.
  destruct (_ <? _); [|discriminate]. intros [= <-].
  apply round_half_away_close.
Qed.

(** A successful INSERT adds exactly the rows of its values, in order, at
    the end of the table. *)
Lemma insert_waypoints_spec (gen : nat -> uuid) (values : list NewWaypoint) :
  forall (j : nat) (d d' : Database) (rows : list WaypointRow),
    insert_waypoints gen j values d = Normal (d', rows) ->
    routes d' = routes d
    /\ waypoints d' = waypoints d ++ rows
    /\ Forall2 stored_row values rows.
Proof.
  induction values as [|v values IH]; intros j d d' rows; simpl.
  - intros [= <- <-]. rewrite app_nil_r. auto.
  - destruct (to_decimal 10 (nw_latitude v)) as [lat|] eqn:Hlat;
      [|discriminate].
    destruct (to_decimal 11 (nw_longitude v)) as [lng|] eqn:Hlng;
      [|discriminate].
    cbn [bind].
    destruct (has_route (nw_route_id v) d); [|discriminate]. cbn [negb].
    destruct (has_waypoint (gen j) d); [discriminate|].
    destruct (insert_waypoints gen (S j) values _) as [[d2 rest]|] eqn:Hrest;
      [|discriminate].
    cbn [bind fst snd]. intros [= <- <-].
    destruct (IH _ _ _ _ Hrest) as (Hr & Hw & Hrows). simpl in Hr, Hw.
    split; [assumption|]. split.
    + rewrite Hw, <- app_assoc. reflexivity.
    + constructor; [|assumption]. repeat split; assumption.
Qed.

(** A failed INSERT is an error, whatever the rows before the failing
    one. *)
Lemma insert_waypoints_overflow (gen : nat -> uuid) (j : nat)
      (v : NewWaypoint) (rest : list NewWaypoint) (d : Database) (e : exn) :
  to_decimal 10 (nw_latitude v) = Throw e ->
  insert_waypoints gen j (v :: rest) d = Throw e.
Proof. intros H. simpl. now rewrite H. Qed.

(** *** Sorting *)

Section SortFacts.

Context {A : Type}.
Variable before : A -> A -> bool.

Lemma insert_by_perm (x : A) (l : list A) :
  Permutation (insert_by before x l) (x :: l).
Proof.
  induction l as [|y l IH]; cbn [insert_by]; [reflexivity|].
  destruct (before x y); [reflexivity|]. rewrite IH. apply perm_swap.
Qed.

Lemma sort_by_perm (l : list A) : Permutation (sort_by before l) l.
Proof.
  unfold sort_by. induction l as [|x l IH]; cbn [fold_right]; [reflexivity|].
  rewrite insert_by_perm. now constructor.
Qed.

Lemma sort_by_ext (before' : A -> A -> bool) (l : list A) :
  (forall x y, before x y = before' x y) ->
  sort_by before l = sort_by before' l.
Proof.
  intros Hext. unfold sort_by.
  induction l as [|x l IH]; cbn [fold_right]; [reflexivity|]. rewrite IH.
  generalize (fold_right (insert_by before') [] l). intros m.
  induction m as [|y m IHm]; cbn [insert_by]; [reflexivity|].
  now rewrite Hext, IHm.
Qed.

Hypothesis total : forall x y, before x y = false -> before y x = true.

Lemma insert_by_sorted (x : A) (l : list A) :
  Sorted (fun a b => before a b = true) l ->
  Sorted (fun a b => before a b = true) (insert_by before x l).
Proof.
  induction 1 as [|y l Hs IH Hhd]; cbn [insert_by].
  - repeat constructor.
  - destruct (before x y) eqn:Hxy.
    + constructor; [constructor; assumption|constructor; assumption].
    + constructor; [exact IH|].
      destruct l as [|z l]; cbn [insert_by].
      * constructor. now apply total.
      * destruct (before x z); constructor; [now apply total|].
        now inversion Hhd.
Qed.

Lemma sort_by_sorted (l : list A) :
  Sorted (fun a b => before a b = true) (sort_by before l).
Proof.
  unfold sort_by. induction l as [|x l IH]; cbn [fold_right];
    [constructor|now apply insert_by_sorted].
Qed.

Hypothesis transitive :
  forall x y z, before x y = true -> before y z = true -> before x z = true.

Lemma Sorted_suffix (R : A -> A -> Prop) (a l : list A) :
  Sorted R (a ++ l) -> Sorted R l.
Proof.
  induction a as [|x a IH]; cbn [app]; [auto|].
  intros H. apply IH. now inversion H.
Qed.

(** Inserting into a sorted list does not depend on an element that is
    taken out of it. *)
Lemma insert_by_split (y x : A) (b : list A) :
  Sorted (fun a b => before a b = true) (x :: b) ->
  forall a,
    exists a' b',
      insert_by before y (a ++ x :: b) = a' ++ x :: b'
      /\ insert_by before y (a ++ b) = a' ++ b'.
Proof.
  intros Hs. induction a as [|z a IH]; cbn [app insert_by].
  - destruct (before y x) eqn:Hyx.
    + exists [y], b. split; [reflexivity|].
      destruct b as [|z b]; [reflexivity|]. cbn [insert_by app].
      assert (Hxz : before x z = true).
      { inversion Hs as [|? ? _ Hhd]; subst. now inversion Hhd. }
      now rewrite (transitive y x z Hyx Hxz).
    + exists [], (insert_by before y b). split; reflexivity.
  - destruct (before y z).
    + exists (y :: z :: a), b. split; reflexivity.
    + destruct IH as (a' & b' & H1 & H2). exists (z :: a'), b'.
      cbn [app]. now rewrite H1, H2.
Qed.

(** Sorting a list with one more element at its end gives the sorted list
    with that element somewhere in it. *)
Lemma sort_by_snoc (l : list A) (x : A) :
  exists a b,
    sort_by before (l ++ [x]) = a ++ x :: b /\ sort_by before l = a ++ b.
Proof.
  induction l as [|y l IH].
  - exists [], []. split; reflexivity.
  - destruct IH as (a & b & H1 & H2).
    change (sort_by before ((y :: l) ++ [x]))
      with (insert_by before y (sort_by before (l ++ [x]))).
    change (sort_by before (y :: l))
      with (insert_by before y (sort_by before l)).
    rewrite H1, H2.
    assert (Hs : Sorted (fun a b => before a b = true) (x :: b)).
    { apply (Sorted_suffix _ a). rewrite <- H1. apply sort_by_sorted. }
    destruct (insert_by_split y x b Hs a) as (a' & b' & H3 & H4).
    exists a', b'. split; assumption.
Qed.

Lemma insert_by_before_last (z x : A) (l : list A) :
  before z x = true ->
  insert_by before z (l ++ [x]) = insert_by before z l ++ [x].
Proof.
  intros Hzx. induction l as [|y l IH]; cbn [app insert_by].
  - now rewrite Hzx.
  - destruct (before z y); [reflexivity|]. now rewrite IH.
Qed.

Lemma insert_by_last (x : A) (l : list A) :
  Forall (fun z => before x z = false) l -> insert_by before x l = l ++ [x].
Proof.
  induction 1 as [|z l Hz _ IH]; cbn [insert_by app]; [reflexivity|].
  now rewrite Hz, IH.
Qed.

(** An element that belongs behind all others is sorted to the end, and
    the others are sorted as without it. *)
Lemma sort_by_strictly_last (x : A) (b : list A) :
  forall a,
    Forall (fun z => before z x = true /\ before x z = false) (a ++ b) ->
    sort_by before (a ++ x :: b) = sort_by before (a ++ b) ++ [x].
Proof.
  induction a as [|z a IH]; cbn [app]; intros Hall.
  - change (sort_by before (x :: b)) with (insert_by before x (sort_by before b)).
    apply insert_by_last. apply Forall_forall. intros z Hz.
    apply (Permutation_in _ (sort_by_perm b)) in Hz.
    rewrite Forall_forall in Hall. now apply Hall.
  - inversion Hall as [|? ? [Hz _] Hrest]; subst.
    change (sort_by before (z :: a ++ x :: b))
      with (insert_by before z (sort_by before (a ++ x :: b))).
    rewrite (IH Hrest). now apply insert_by_before_last.
Qed.

End SortFacts.

Lemma Sorted_impl {A} (R R' : A -> A -> Prop) (l : list A) :
  (forall a b, R a b -> R' a b) -> Sorted R l -> Sorted R' l.
Proof.
  intros HR. induction 1 as [|x l _ IH Hhd]; constructor; [exact IH|].
  destruct Hhd; constructor. now apply HR.
Qed.

(** *** SELECT ... ORDER BY position *)

Lemma select_by_position_perm (place : uuid -> Z) (route : uuid) (d : Database) :
  Permutation (select_by_position place route d) (waypoints_of route d).
Proof.
  unfold select_by_position, order_by_position, seq_scan.
  now rewrite !sort_by_perm.
Qed.

Lemma select_by_position_sorted (place : uuid -> Z) (route : uuid)
      (d : Database) :
  Sorted (fun a b => w_position a <= w_position b)
    (select_by_position place route d).
Proof.
  unfold select_by_position, order_by_position.
  apply (Sorted_impl (fun a b => (w_position a <=? w_position b) = true)).
  - intros a b. apply Z.leb_le.
  - apply sort_by_sorted. intros x y Hxy. apply Z.leb_le.
    apply Z.leb_gt in Hxy. lia.
Qed.

(** Two sorted arrangements of rows with pairwise distinct positions are
    the same list. *)
Lemma sorted_by_position_unique (l1 : list WaypointRow) :
  forall l2,
    Sorted (fun a b => w_position a <= w_position b) l1 ->
    Sorted (fun a b => w_position a <= w_position b) l2 ->
    Permutation l1 l2 -> NoDup (map w_position l1) -> l1 = l2.
Proof.
  assert (Htrans : Relations_1.Transitive
                     (fun a b : WaypointRow => w_position a <= w_position b))
    by (intros a b c; lia).
  induction l1 as [|x1 t1 IH]; intros l2 H1 H2 Hp Hnd.
  - apply Permutation_nil in Hp. now subst.
  - destruct l2 as [|x2 t2];
      [apply Permutation_sym, Permutation_nil in Hp; discriminate|].
    pose proof (Sorted_StronglySorted Htrans H1) as S1.
    pose proof (Sorted_StronglySorted Htrans H2) as S2.
    inversion S1 as [|? ? _ F1]; subst. inversion S2 as [|? ? _ F2]; subst.
    rewrite Forall_forall in F1, F2.
    assert (Hin2 : In x2 (x1 :: t1))
      by (apply (Permutation_in _ (Permutation_sym Hp)); now left).
    assert (Hin1 : In x1 (x2 :: t2))
      by (apply (Permutation_in _ Hp); now left).
    assert (Hle1 : w_position x1 <= w_position x2)
      by (destruct Hin2 as [<-|Hin2]; [lia|now apply F1]).
    assert (Hle2 : w_position x2 <= w_position x1)
      by (destruct Hin1 as [<-|Hin1]; [lia|now apply F2]).
    inversion Hnd as [|? ? Hnot Hnd']; subst.
    assert (Heq : x1 = x2).
    { destruct Hin2 as [Heq|Hin2]; [assumption|]. exfalso. apply Hnot.
      replace (w_position x1) with (w_position x2) by lia.
      now apply in_map. }
    subst x2. f_equal. apply IH.
    + now inversion H1.
    + now inversion H2.
    + now apply Permutation_cons_inv in Hp.
    + assumption.
Qed.

(** Rows whose positions increase are read back as they are, however the
    scan finds them. *)
Lemma select_by_position_increasing (place : uuid -> Z) (route : uuid)
      (d : Database) :
  Sorted (fun a b => w_position a < w_position b) (waypoints_of route d) ->
  select_by_position place route d = waypoints_of route d.
Proof.
  intros Hinc.
  assert (Htrans : Relations_1.Transitive
                     (fun a b : WaypointRow => w_position a < w_position b))
    by (intros a b c; lia).
  pose proof (Sorted_StronglySorted Htrans Hinc) as Hstrong.
  symmetry. apply sorted_by_position_unique.
  - clear Hstrong. induction Hinc as [|x l _ IH Hhd]; constructor; [exact IH|].
    destruct Hhd; constructor. lia.
  - apply select_by_position_sorted.
  - apply Permutation_sym, select_by_position_perm.
  - clear Hinc. induction Hstrong as [|x l _ IH Hall]; cbn [map];
      constructor; [|exact IH].
    rewrite in_map_iff. intros (y & Hy & Hin).
    rewrite Forall_forall in Hall. specialize (Hall y Hin). lia.
Qed.

(** A row whose position is above all others of its route is read last,
    behind the rows that were read without it. *)
Lemma select_by_position_last (place : uuid -> Z) (route : uuid)
      (d d' : Database) (row : WaypointRow) :
  waypoints_of route d' = waypoints_of route d ++ [row] ->
  Forall (fun w => w_position w < w_position row) (waypoints_of route d) ->
  select_by_position place route d'
  = select_by_position place route d ++ [row].
Proof.
  intros Hof Hall. unfold select_by_position, seq_scan. rewrite Hof.
  destruct (sort_by_snoc (fun x y => place (w_id x) <=? place (w_id y)))
    with (l := waypoints_of route d) (x := row) as (a & b & H1 & H2).
  - intros x y Hxy. apply Z.leb_le. apply Z.leb_gt in Hxy. lia.
  - intros x y z Hxy Hyz. apply Z.leb_le. apply Z.leb_le in Hxy, Hyz. lia.
  - rewrite H1, H2. unfold order_by_position.
    apply sort_by_strictly_last. apply Forall_forall. intros z Hz.
    assert (Hin : In z (waypoints_of route d)).
    { apply (Permutation_in (l := a ++ b)); [|assumption].
      rewrite <- H2. apply sort_by_perm. }
    rewrite Forall_forall in Hall. specialize (Hall z Hin).
    split; [apply Z.leb_le|apply Z.leb_gt]; lia.
Qed.

Lemma waypoints_of_app (route : uuid) (r : list RouteRow)
      (a b : list WaypointRow) :
  waypoints_of route {| routes := r; waypoints := a ++ b |}
  = waypoints_of route {| routes := r; waypoints := a |}
      ++ filter (fun w => String.eqb (w_route_id w) route) b.
Proof. unfold waypoints_of. simpl. apply filter_app. Qed.

Lemma filter_all {A} (f : A -> bool) (l : list A) :
  Forall (fun x => f x = true) l -> filter f l = l.
Proof. induction 1 as [|x l Hx _ IH]; simpl; [|rewrite Hx, IH]; reflexivity. Qed.

Lemma filter_none {A} (f : A -> bool) (l : list A) :
  Forall (fun x => f x = false) l -> filter f l = [].
Proof. induction 1 as [|x l Hx _ IH]; simpl; [|rewrite Hx, IH]; reflexivity. Qed.

Lemma has_route_false (id : uuid) (d : Database) :
  has_route id d = false ->
  Forall (fun r => String.eqb (r_id r) id = false) (routes d).
Proof.
  unfold has_route. intros H. apply Forall_forall. intros r Hr.
  destruct (String.eqb (r_id r) id) eqn:E; [|reflexivity].
  assert (existsb (fun r => String.eqb (r_id r) id) (routes d) = true)
    by (apply existsb_exists; eauto).
  congruence.
Qed.

(** In a database with referential integrity a route id that is not in
    use has no waypoints. *)
Lemma fresh_route_has_no_waypoints (id : uuid) (d : Database) :
  referential_integrity d -> has_route id d = false -> waypoints_of id d = [].
Proof.
  intros Hri Hfresh. unfold waypoints_of. apply filter_none.
  unfold referential_integrity in Hri. rewrite Forall_forall in *.
  intros w Hw. specialize (Hri w Hw).
  destruct (String.eqb_spec (w_route_id w) id) as [Heq|]; [|reflexivity].
  rewrite Heq in Hri. congruence.
Qed.

Section WaypointsData.

Variable toString : number -> Q.

Lemma waypointsData_positions (route : uuid) (supplied : list WaypointInput) :
  forall start,
    map nw_position
      (map_index (fun wp index =>
                    {| nw_route_id := route;
                       nw_latitude := toString (latitude wp);
                       nw_longitude := toString (longitude wp);
                       nw_name := name wp;
                       nw_position := Z.of_nat index |}) start supplied)
    = map Z.of_nat (seq start (List.length supplied)).
Proof.
  induction supplied as [|wp supplied IH]; intros start; simpl;
    [|rewrite IH]; reflexivity.
Qed.

(** The rows stored for the values built from [supplied] store
    [supplied]. *)
Lemma stored_rows_store (route : uuid) (supplied : list WaypointInput)
      (rows : list WaypointRow) :
  Forall2 stored_row (DrizzleRouter.waypointsData toString route supplied) rows ->
  stores toString route supplied rows.
Proof.
  unfold DrizzleRouter.waypointsData, stores.
  rewrite <- (waypointsData_positions route supplied 0).
  generalize 0%nat.
  revert rows; induction supplied as [|wp supplied IH]; intros rows start H;
    simpl in *.
  - inversion H; subst. repeat split; constructor.
  - inversion H as [|v row vs rest Hrow Hrest]; subst.
    destruct (IH rest (S start) Hrest) as (Hholds & Hpos & Hroute).
    destruct Hrow as (Hr & Hp & Hlat & Hlng & Hname). simpl in *.
    repeat split.
    + constructor; [|assumption]. repeat split.
      * now apply to_decimal_within with (precision := 10).
      * now apply to_decimal_within with (precision := 11).
      * assumption.
    + simpl. now rewrite Hp, Hpos.
    + constructor; assumption.
Qed.

Lemma seq_positions_sorted (rows : list WaypointRow) :
  forall start n,
    map w_position rows = map Z.of_nat (seq start n) ->
    Sorted (fun a b => w_position a < w_position b) rows.
Proof.
  induction rows as [|x rows IH]; intros start n H; [constructor|].
  destruct n as [|n]; [discriminate|]. simpl in H. injection H as Hx Hrest.
  constructor; [now apply (IH (S start) n)|].
  destruct rows as [|y rows]; constructor.
  destruct n as [|n]; [discriminate|]. simpl in Hrest.
  injection Hrest as Hy _. lia.
Qed.

End WaypointsData.

End StorageFacts.

(** ** The waypoint store as a whole: hooks/useWaypoints.ts *)

Module StoreFacts.
Import JS UseWaypoints ReadsFacts.

Lemma merge_idempotent {A} (old : option A) (k : key A) :
  merge (merge old k) k = merge old k.
Proof. destruct k; reflexivity. Qed.

Lemma spread_idempotent (w : Waypoint) (u : PartialWaypoint) :
  spread (spread w u) u = spread w u.
Proof.
  unfold spread. cbn [id lng lat name]. now rewrite !merge_idempotent.
Qed.

Lemma has_id_false (i : string) (w : Waypoint) :
  id w <> Some i <-> has_id i w = false.
Proof.
  unfold has_id. destruct (id w) as [x|]; [|split; [reflexivity|discriminate]].
  destruct (String.eqb_spec x i) as [->|Hne]; split; congruence.
Qed.

Lemma map_if_absent (i : string) (f : Waypoint -> Waypoint) (l : list Waypoint) :
  absent i l ->
  map (fun w => if has_id i w then f w else w) l = l.
Proof.
  induction 1 as [|w l Hw _ IH]; cbn [map]; [reflexivity|].
  apply has_id_false in Hw. now rewrite Hw, IH.
Qed.

Lemma remove_absent (i : string) (l : list Waypoint) :
  absent i l -> removeWaypoint i l = l.
Proof.
  intros Ha. unfold removeWaypoint. apply StorageFacts.filter_all.
  eapply Forall_impl; [|exact Ha]. cbv beta. intros w Hw.
  apply has_id_false in Hw. now rewrite Hw.
Qed.

(** X9. [removeWaypoint] takes out the waypoints with the id and no other:
    afterwards the id is absent, and a waypoint with another id is in the
    result exactly when it was in the sequence; a sequence without the id
    is returned as it is; when one waypoint carries the id, the others stay
    in place around the gap; and, provided the id was not in use before,
    removing the id that an [addWaypoint] has just given to a new waypoint
    restores the sequence from before the add. *)
Theorem remove_undoes_add (i : string) (now : N) (lng lat : number)
        (prev : list Waypoint) :
  absent i (removeWaypoint i prev)
  /\ (forall w, id w <> Some i ->
                (In w (removeWaypoint i prev) <-> In w prev))
  /\ (absent i prev -> removeWaypoint i prev = prev)
  /\ (forall before w after,
        prev = before ++ w :: after -> id w = Some i ->
        absent i before -> absent i after ->
        removeWaypoint i prev = before ++ after)
  /\ (absent (waypoint_id now) prev ->
      removeWaypoint (waypoint_id now) (addWaypoint now lng lat prev) = prev).
Proof.
  assert (Hone : forall j before w after,
             id w = Some j -> absent j before -> absent j after ->
             removeWaypoint j (before ++ w :: after) = before ++ after).
  { intros j before w after Hw Hb Ha. unfold removeWaypoint.
    rewrite filter_app. cbn [filter]. unfold has_id at 2. rewrite Hw.
    rewrite String.eqb_refl. cbn [negb].
    fold (removeWaypoint j before). fold (removeWaypoint j after).
    now rewrite !remove_absent. }
  split; [|split; [|split; [|split]]].
  - unfold removeWaypoint, absent. apply Forall_forall. intros w Hw.
    apply filter_In in Hw. destruct Hw as [_ Hw].
    now apply has_id_false, Bool.negb_true_iff.
  - intros w Hw. unfold removeWaypoint. rewrite filter_In.
    apply has_id_false in Hw. rewrite Hw. cbn [negb]. tauto.
  - apply remove_absent.
  - intros before w after -> Hw Hb Ha. now apply Hone.
  - intros Ha. unfold addWaypoint. cbv zeta.
    rewrite (Hone (waypoint_id now) prev _ []); [apply app_nil_r|reflexivity
                                                 |assumption|constructor].
Qed.

Section Geocoded.

Variable NumberToString : number -> string.

Abbreviation resume' := (addWaypoint_resume NumberToString).

(** [toFixed(2)] prints every number, so the fallback name always
    exists. *)
Lemma fallback_name_total (lng lat : number) :
  exists n, fallback_name NumberToString lng lat = Normal n.
Proof.
  unfold fallback_name.
  destruct (toFixed_in_range lat 2) as [a ->]; [lia|].
  destruct (toFixed_in_range lng 2) as [b ->]; [lia|].
  cbn [bind]. eauto.
Qed.

(** The continuation of [addWaypoint] is a renaming of the waypoints with
    the id, by one name. *)
Lemma resume_is_rename (now : N) (lng lat : number) (g : completion string)
      (prev : list Waypoint) :
  exists n,
    resume' now lng lat g prev
    = map (fun w => if has_id (waypoint_id now) w then rename w n else w) prev
    /\ (forall given, g = Normal given -> n = given).
Proof.
  unfold addWaypoint_resume. cbv zeta. destruct g as [given|e].
  - exists given. split; [reflexivity|]. now intros ? [= ->].
  - destruct (fallback_name_total lng lat) as [n ->]. exists n.
    split; [reflexivity|discriminate].
Qed.

(** X10. The answer of the geocoder only renames.  When [addWaypoint]
    resumes, with a name or with an error, the sequence keeps its length,
    order, ids and coordinates; waypoints with another id are untouched;
    the waypoints with the id of this add all get the geocoded name; and
    if the waypoint was removed in the meantime, the sequence is left as
    it is. *)
Theorem geocoding_only_renames (now : N) (lng lat : number)
        (g : completion string) (prev : list Waypoint) :
  map id (resume' now lng lat g prev) = map id prev
  /\ map UseWaypoints.lng (resume' now lng lat g prev)
     = map UseWaypoints.lng prev
  /\ map UseWaypoints.lat (resume' now lng lat g prev)
     = map UseWaypoints.lat prev
  /\ (forall w, In w prev -> id w <> Some (waypoint_id now) ->
                In w (resume' now lng lat g prev))
  /\ (forall given w, g = Normal given ->
                      In w (resume' now lng lat g prev) ->
                      id w = Some (waypoint_id now) -> name w = Some given)
  /\ (absent (waypoint_id now) prev -> resume' now lng lat g prev = prev).
Proof.
  destruct (resume_is_rename now lng lat g prev) as (n & -> & Hgiven).
  repeat split.
  - rewrite map_map. apply map_ext. intros w.
    now destruct (has_id (waypoint_id now) w).
  - rewrite map_map. apply map_ext. intros w.
    now destruct (has_id (waypoint_id now) w).
  - rewrite map_map. apply map_ext. intros w.
    now destruct (has_id (waypoint_id now) w).
  - intros w Hin Hne. apply in_map_iff. exists w. split; [|assumption].
    apply has_id_false in Hne. now rewrite Hne.
  - intros given w Hg Hin Hid. rewrite (Hgiven given Hg) in Hin.
    apply in_map_iff in Hin. destruct Hin as (x & Hx & _).
    destruct (has_id (waypoint_id now) x) eqn:He.
    + now subst w.
    + subst w. apply has_id_false in He. contradiction.
  - apply map_if_absent.
Qed.

End Geocoded.

(** X11. [updateWaypoint] merges the updates into the waypoints with the
    id and leaves the rest alone: the length is kept, an id that is not in
    the sequence changes nothing, a waypoint with the id gets every own
    key of the updates (a key whose value is [undefined] erases the
    field) and keeps its other fields, updates without an [id] key keep
    every id, and applying the same update twice is the same as applying
    it once. *)
Theorem update_merges_in_place (i : string) (updates : PartialWaypoint)
        (prev : list Waypoint) :
  List.length (updateWaypoint i updates prev) = List.length prev
  /\ (absent i prev -> updateWaypoint i updates prev = prev)
  /\ (forall before w after,
        prev = before ++ w :: after -> id w = Some i ->
        absent i before -> absent i after ->
        updateWaypoint i updates prev
        = before ++ {| id := merge (id w) (u_id updates);
                       lng := merge (lng w) (u_lng updates);
                       lat := merge (lat w) (u_lat updates);
                       name := merge (name w) (u_name updates) |} :: after)
  /\ (u_id updates = Absent ->
      map id (updateWaypoint i updates prev) = map id prev)
  /\ updateWaypoint i updates (updateWaypoint i updates prev)
     = updateWaypoint i updates prev.
Proof.
  unfold updateWaypoint. split; [|split; [|split; [|split]]].
  - apply length_map.
  - apply map_if_absent.
  - intros before w after -> Hw Hb Ha. rewrite map_app. cbn [map].
    rewrite !map_if_absent by assumption.
    assert (Hhas : has_id i w = true)
      by (unfold has_id; rewrite Hw; apply String.eqb_refl).
    now rewrite Hhas.
  - intros Hid. rewrite map_map. apply map_ext. intros w.
    destruct (has_id i w); [|reflexivity].
    unfold spread. cbn [id]. now rewrite Hid.
  - rewrite map_map. apply map_ext. intros w.
    destruct (has_id i w) eqn:Hw; [|now rewrite Hw].
    destruct (has_id i (spread w updates));
      [apply spread_idempotent|reflexivity].
Qed.

End StoreFacts.
(** ** Facts about the Drizzle router *)

Module DrizzleFacts.
Import JS Storage Trpc Persisted StorageFacts.

Section RouterFacts.

Variable toString : number -> Q.
Variable is_uuid : string -> bool.

Abbreviation create' := (DrizzleRouter.create toString).
Abbreviation get' := (DrizzleRouter.get is_uuid).
Abbreviation update' := (DrizzleRouter.update toString is_uuid).
Abbreviation waypointsData' := (DrizzleRouter.waypointsData toString).

(** What a successful [create] has done: one route row with a new id, then
    one INSERT of all the waypoint rows. *)
Lemma create_success (ctx : Context) (i : CreateInput) (env : Env)
      (d : Database) (s' : Session) (route : RouteRow) :
  create' ctx i env (start d) = (s', Normal route) ->
  exists user rows,
    userId ctx = Some user /\ user <> EmptyString
    /\ route = {| r_id := gen_random_uuid env 0%nat 0%nat;
                  r_user_id := Some user;
                  r_name := c_name i; r_description := c_description i;
                  r_created_at := now env; r_updated_at := now env |}
    /\ has_route (r_id route) d = false
    /\ insert_waypoints (gen_random_uuid env 1%nat) 0
         (waypointsData' (r_id route) (c_waypoints i))
         {| routes := routes d ++ [route]; waypoints := waypoints d |}
       = Normal (db s', rows).
Proof.
  unfold DrizzleRouter.create, protectedProcedure.
  destruct (userId ctx) as [[|c user]|] eqn:Hctx; try discriminate.
  unfold input. destruct (_ && _); [|discriminate].
  unfold mbind at 1. unfold RouteRepository.createRoute, execute at 1, start.
  cbn [tick db commits]. destruct (transport_fails env 0); [discriminate|].
  unfold insert_route.
  destruct (has_route (gen_random_uuid env 0%nat 0%nat) d) eqn:Hfresh;
    [discriminate|].
  cbn [r_id]. intros H. exists (String c user).
  destruct (c_waypoints i) as [|wp rest] eqn:Hwps.
  - exists []. cbn in H. injection H as <- <-.
    repeat split; try assumption; try discriminate; try reflexivity.
  - unfold mbind, ret in H. unfold WaypointRepository.createWaypoints in H.
    cbn [DrizzleRouter.waypointsData map_index] in H.
    unfold execute in H. cbn [tick db commits] in H.
    destruct (transport_fails env 1); [discriminate|].
    match type of H with
    | context [insert_waypoints ?g ?j ?v ?d0] =>
        destruct (insert_waypoints g j v d0) as [[d2 rows]|] eqn:Hins
    end; [|discriminate].
    injection H as <- <-. exists rows.
    repeat split; try assumption; try discriminate.
Qed.

(** What a row stores of a printed coordinate is close to the
    coordinate. *)
Lemma close_to_printed (x : number) (v : decimal) :
  prints toString x -> within_precision (toString x) v -> close_to x v.
Proof.
  unfold prints, within_precision, close_to.
  change (inject_Z (10 ^ 8)) with (100000000 # 1)%Q.
  set (p := toString x). set (q := to_Q x). set (u := half_ulp x).
  intros Hp Hv.
  assert (Hv' : (Qabs (inject_Z v / (100000000 # 1) - p)
                 <= (1 # 2) / (100000000 # 1))%Q).
  { apply Qabs_Qle_condition in Hv. apply Qabs_Qle_condition.
    unfold Qdiv. change (/ (100000000 # 1))%Q with (1 # 100000000)%Q.
    destruct Hv as [Hlo Hhi]. split; lra. }
  apply Qabs_Qle_condition in Hp, Hv'. apply Qabs_Qle_condition.
  unfold Qdiv in *. change (/ (100000000 # 1))%Q with (1 # 100000000)%Q in *.
  destruct Hp as [Hp1 Hp2], Hv' as [Hv1 Hv2]. split; lra.
Qed.

Lemma stores_reads_back (supplied : list WaypointInput) :
  forall (route : uuid) (rows : list WaypointRow),
    Forall (printed toString) supplied ->
    stores toString route supplied rows -> reads_back route supplied rows.
Proof.
  intros route rows Hprinted (Hholds & Hpos & Hroute).
  split; [|split; assumption]. clear Hpos Hroute.
  induction Hholds as [|wp row supplied rows (Hlat & Hlng & Hname) _ IH];
    [constructor|].
  inversion Hprinted as [|? ? [Hp1 Hp2] Hrest]; subst.
  constructor; [|now apply IH].
  repeat split; [| |assumption]; eapply close_to_printed; eassumption.
Qed.

(** C7. Round trip.  In a database with referential integrity, when
    [create] succeeds for an owner and a waypoint array, a following [get]
    of the returned id by the same owner (the generated id being a UUID for
    the input check, the database reachable, and however the scans of the
    [get] find the rows) returns that route with one waypoint per supplied
    element, in the supplied order, with positions 0 .. n-1, the same
    names, and each coordinate equal to the supplied double up to half a
    unit of the eighth decimal plus half a unit in the last place of the
    double, given that [toString] prints every supplied coordinate within
    half a unit in its last place, as Number::toString does. *)
Theorem create_then_get_round_trip (ctx : Context) (i : CreateInput)
        (env env2 : Env) (d : Database) (s' : Session) (route : RouteRow) :
  referential_integrity d ->
  create' ctx i env (start d) = (s', Normal route) ->
  is_uuid (r_id route) = true ->
  transport_fails env2 0 = false -> transport_fails env2 1 = false ->
  Forall (printed toString) (c_waypoints i) ->
  exists s2 rows,
    get' ctx (r_id route) env2 (start (db s')) = (s2, Normal (route, rows))
    /\ reads_back (r_id route) (c_waypoints i) rows.
Proof.
  intros Hri Hcreate Huuid Hq0 Hq1 Hprinted.
  destruct (create_success ctx i env d s' route Hcreate)
    as (user & rows & Hctx & Huser & Hroute & Hfresh & Hins).
  destruct (insert_waypoints_spec _ _ _ _ _ _ Hins) as (Hr & Hw & Hrows).
  simpl in Hr, Hw.
  pose proof (stored_rows_store toString _ _ _ Hrows) as Hstores.
  assert (Hof : waypoints_of (r_id route) (db s') = rows).
  { unfold waypoints_of. rewrite Hw, filter_app.
    pose proof (fresh_route_has_no_waypoints (r_id route) d Hri Hfresh) as Hn.
    unfold waypoints_of in Hn. rewrite Hn. simpl.
    apply filter_all. destruct Hstores as (_ & _ & Hall).
    rewrite Forall_forall in *. intros w Hwin. rewrite (Hall w Hwin).
    apply String.eqb_refl. }
  assert (Hread : select_by_position (place env2 1) (r_id route) (db s') = rows).
  { transitivity (waypoints_of (r_id route) (db s')); [|exact Hof].
    apply select_by_position_increasing. rewrite Hof.
    destruct Hstores as (_ & Hpos & _).
    exact (seq_positions_sorted rows _ _ Hpos). }
  assert (Hfound : filter (RouteRepository.owned_route (r_id route) user)
                     (routes (db s')) = [route]).
  { rewrite Hr, filter_app.
    rewrite (filter_none _ (routes d)).
    - simpl. unfold RouteRepository.owned_route.
      rewrite String.eqb_refl. rewrite Hroute at 1. simpl.
      now rewrite String.eqb_refl.
    - pose proof (has_route_false _ _ Hfresh) as Hnone.
      rewrite Forall_forall in *. intros r Hrin.
      unfold RouteRepository.owned_route. now rewrite (Hnone r Hrin). }
  exists {| db := db s'; tick := 2; commits := [] |}, rows.
  split; [|now apply stores_reads_back].
  unfold DrizzleRouter.get, input. rewrite Huuid, Hctx.
  destruct user as [|c user]; [congruence|].
  unfold RouteRepository.getRouteWithWaypoints, mbind, query, query_rows,
    start, ret.
  cbn [tick db commits]. rewrite Hq0. rewrite Hfound.
  cbn [tick db commits]. rewrite Hq1, Hread. reflexivity.
Qed.

(** The metadata step of [update] leaves the waypoints table alone and
    commits at most once. *)
Lemma updateRoute_keeps_waypoints (id : uuid) (user : string)
      (n dsc : option string) (env : Env) (s : Session) :
  waypoints (db (fst (RouteRepository.updateRoute id user n dsc env s)))
  = waypoints (db s)
  /\ (commits (fst (RouteRepository.updateRoute id user n dsc env s)) = commits s
      \/ commits (fst (RouteRepository.updateRoute id user n dsc env s))
         = commits s ++ [db (fst (RouteRepository.updateRoute id user n dsc env s))]).
Proof.
  unfold RouteRepository.updateRoute, mbind, execute, ret.
  destruct (transport_fails env (tick s)); simpl; auto.
Qed.

Lemma filter_other_route (id other : uuid) (l : list WaypointRow) :
  other <> id ->
  filter (fun w => String.eqb (w_route_id w) other)
    (filter (fun w => negb (String.eqb (w_route_id w) id)) l)
  = filter (fun w => String.eqb (w_route_id w) other) l.
Proof.
  intros Hne. induction l as [|w l IH]; [reflexivity|]. simpl.
  destruct (String.eqb_spec (w_route_id w) id) as [Hid|Hid]; simpl.
  - destruct (String.eqb_spec (w_route_id w) other); [congruence|assumption].
  - now rewrite IH.
Qed.

Lemma filter_same_route (id : uuid) (l : list WaypointRow) :
  filter (fun w => String.eqb (w_route_id w) id)
    (filter (fun w => negb (String.eqb (w_route_id w) id)) l) = [].
Proof.
  induction l as [|w l IH]; [reflexivity|]. simpl.
  destruct (String.eqb (w_route_id w) id) eqn:E; simpl; [assumption|].
  now rewrite E.
Qed.

(** [replaceWaypoints] is all or nothing: it commits once, the complete
    replacement, or it commits nothing and leaves the database as it was. *)
Lemma replaceWaypoints_atomic (id : uuid) (values : list NewWaypoint)
      (env : Env) (s : Session) :
  (exists rows,
      snd (WaypointRepository.replaceWaypoints id values env s) = Normal tt
      /\ Forall2 stored_row values rows
      /\ db (fst (WaypointRepository.replaceWaypoints id values env s))
         = replaced_in (db s) id rows
      /\ commits (fst (WaypointRepository.replaceWaypoints id values env s))
         = commits s ++ [replaced_in (db s) id rows])
  \/ (exists e,
        snd (WaypointRepository.replaceWaypoints id values env s) = Throw e
        /\ db (fst (WaypointRepository.replaceWaypoints id values env s)) = db s
        /\ commits (fst (WaypointRepository.replaceWaypoints id values env s))
           = commits s).
Proof.
  unfold WaypointRepository.replaceWaypoints, transaction, mbind, execute, ret.
  cbn [tick db commits].
  destruct (transport_fails env (tick s)); [right; eexists; simpl; eauto|].
  cbn [delete_waypoints fst snd tick db commits].
  destruct values as [|v values].
  - cbn [tick db commits].
    destruct (transport_fails env (S (tick s))); [right; eexists; simpl; eauto|].
    left. exists []. simpl. unfold replaced_in. rewrite app_nil_r.
    repeat split; constructor.
  - cbn [tick db commits].
    destruct (transport_fails env (S (tick s))); [right; eexists; simpl; eauto|].
    match goal with
    | |- context [insert_waypoints ?g ?j ?vs ?d0] =>
        destruct (insert_waypoints g j vs d0) as [[d2 rows]|e] eqn:Hins
    end.
    + cbn [tick db commits].
      destruct (transport_fails env (S (S (tick s))));
        [right; eexists; simpl; eauto|].
      destruct (insert_waypoints_spec _ _ _ _ _ _ Hins) as (Hr & Hw & Hrows).
      simpl in Hr, Hw.
      assert (Hd2 : d2 = replaced_in (db s) id rows).
      { destruct d2 as [rs ws]. simpl in *. unfold replaced_in. congruence. }
      left. exists rows. simpl. rewrite Hd2. auto.
    + right. eexists. simpl. eauto.
Qed.

Lemma waypoints_of_replaced_in (d : Database) (id : uuid)
      (rows : list WaypointRow) :
  Forall (fun row => w_route_id row = id) rows ->
  waypoints_of id (replaced_in d id rows) = rows
  /\ (forall other, other <> id ->
        waypoints_of other (replaced_in d id rows) = waypoints_of other d).
Proof.
  intros Hall. unfold waypoints_of, replaced_in. simpl. split.
  - rewrite filter_app, filter_same_route. simpl. apply filter_all.
    rewrite Forall_forall in *. intros w Hw. rewrite (Hall w Hw).
    apply String.eqb_refl.
  - intros other Hne. rewrite filter_app, filter_other_route by assumption.
    rewrite (filter_none _ rows); [apply app_nil_r|].
    rewrite Forall_forall in *. intros w Hw. rewrite (Hall w Hw).
    now apply String.eqb_neq, not_eq_sym.
Qed.

Lemma waypoints_of_ext (id : uuid) (c d : Database) :
  waypoints c = waypoints d -> waypoints_of id c = waypoints_of id d.
Proof. unfold waypoints_of. now intros ->. Qed.

(** The waypoint step of [update], started in a session whose database
    and earlier commits all have the waypoints table of [d]. *)
Lemma replace_step (id : uuid) (ws : list WaypointInput) (env : Env)
      (d : Database) (s1 : Session) :
  waypoints (db s1) = waypoints d ->
  Forall (fun c => waypoints c = waypoints d) (commits s1) ->
  let result :=
    (let* _ := WaypointRepository.replaceWaypoints id (waypointsData' id ws) in
     ret tt) env s1 in
  Forall (unchanged_or_replaced toString id ws d) (commits (fst result))
  /\ (snd result = Normal tt ->
      unchanged_or_replaced toString id ws d (db (fst result))
      /\ stores toString id ws (waypoints_of id (db (fst result)))
      /\ forall other, other <> id ->
           waypoints_of other (db (fst result)) = waypoints_of other d)
  /\ (forall e, snd result = Throw e -> waypoints (db (fst result)) = waypoints d).
Proof.
  intros Hdb Hcommits. cbv zeta. unfold mbind, ret.
  assert (Hold : Forall (unchanged_or_replaced toString id ws d) (commits s1)).
  { eapply Forall_impl; [|exact Hcommits]. intros c Hc. now left. }
  destruct (replaceWaypoints_atomic id (waypointsData' id ws) env s1)
    as [(rows & Hr & Hrows & Hd & Hc) | (e & Hr & Hd & Hc)];
    destruct (WaypointRepository.replaceWaypoints id _ env s1) as [s2 r];
    simpl in *; subst r.
  - pose proof (stored_rows_store toString _ _ _ Hrows) as Hstores.
    destruct (waypoints_of_replaced_in (db s1) id rows) as [Hsame Hothers];
      [apply Hstores|].
    assert (Hnew : stores toString id ws (waypoints_of id (db s2))
                   /\ forall other, other <> id ->
                        waypoints_of other (db s2) = waypoints_of other d).
    { rewrite Hd. split; [now rewrite Hsame|].
      intros other Hne. rewrite (Hothers other Hne).
      now apply waypoints_of_ext. }
    simpl. split; [|split].
    + rewrite Hc. apply Forall_app. split; [assumption|].
      constructor; [|constructor]. right. rewrite <- Hd. exact Hnew.
    + intros _. split; [right; exact Hnew|exact Hnew].
    + discriminate.
  - simpl. split; [|split].
    + now rewrite Hc.
    + discriminate.
    + intros _ _. now rewrite Hd.
Qed.

(** [update] with a [waypoints] array stops with an error before it
    touches a waypoint, or it reaches the waypoint step having committed
    nothing but the metadata of the route. *)
Lemma update_reaches_replace (ctx : Context) (id : uuid)
      (n dsc : option string) (ws : list WaypointInput) (env : Env)
      (d : Database) :
  (exists s e,
      update' ctx {| u_id := id; u_name := n; u_description := dsc;
                     u_waypoints := Some ws |} env (start d) = (s, Throw e)
      /\ waypoints (db s) = waypoints d
      /\ Forall (fun c => waypoints c = waypoints d) (commits s))
  \/ (exists s1,
        update' ctx {| u_id := id; u_name := n; u_description := dsc;
                       u_waypoints := Some ws |} env (start d)
        = (let* _ := WaypointRepository.replaceWaypoints id
                       (waypointsData' id ws) in ret tt) env s1
        /\ waypoints (db s1) = waypoints d
        /\ Forall (fun c => waypoints c = waypoints d) (commits s1)).
Proof.
  unfold DrizzleRouter.update, protectedProcedure.
  destruct (userId ctx) as [[|c user]|];
    try (left; eexists; eexists; split; [reflexivity|];
         split; [reflexivity|constructor]).
  unfold input. cbn [u_id u_name u_description u_waypoints].
  destruct (_ && _);
    [|left; eexists; eexists; split; [reflexivity|];
      split; [reflexivity|constructor]].
  destruct n as [n|], dsc as [dsc|];
    try (unfold mbind;
         match goal with
         | |- context [RouteRepository.updateRoute ?a ?b ?x ?y env (start d)] =>
             pose proof (updateRoute_keeps_waypoints a b x y env (start d))
               as [Hw Hc];
             destruct (RouteRepository.updateRoute a b x y env (start d))
               as [s1 [[row|]|e]] eqn:Hupd
         end; simpl in Hw, Hc;
         assert (Hcs : Forall (fun c => waypoints c = waypoints d) (commits s1))
           by (destruct Hc as [-> | ->]; repeat constructor; assumption);
         cbv beta iota zeta;
         [ right; exists s1; split; [reflexivity|split; assumption]
         | left; exists s1; eexists; split; [reflexivity|split; assumption]
         | left; exists s1; eexists; split; [reflexivity|split; assumption] ]).
  right. exists (start d). split; [reflexivity|]. split; [reflexivity|constructor].
Qed.

(** The Drizzle router replaces in one transaction.  For [update] with a
    [waypoints] array, of any length, for any caller, route and database,
    every state the request commits (so every state another client can
    read) has the waypoints table untouched or has, for this route, exactly
    the supplied waypoints at positions 0 .. n-1 in array order while every
    other route keeps its waypoints; when the request succeeds the final
    state is of the second kind, and when it fails the waypoints table is
    as it was. *)
Theorem update_replaces_atomically (ctx : Context) (id : uuid)
        (n dsc : option string) (ws : list WaypointInput) (env : Env)
        (d : Database) :
  Forall (unchanged_or_replaced toString id ws d)
    (commits (fst (update' ctx {| u_id := id; u_name := n;
                                   u_description := dsc;
                                   u_waypoints := Some ws |} env (start d))))
  /\ (snd (update' ctx {| u_id := id; u_name := n; u_description := dsc;
                          u_waypoints := Some ws |} env (start d)) = Normal tt ->
      stores toString id ws
        (waypoints_of id
           (db (fst (update' ctx {| u_id := id; u_name := n;
                                    u_description := dsc;
                                    u_waypoints := Some ws |} env (start d)))))
      /\ forall other, other <> id ->
           waypoints_of other
             (db (fst (update' ctx {| u_id := id; u_name := n;
                                      u_description := dsc;
                                      u_waypoints := Some ws |} env (start d))))
           = waypoints_of other d)
  /\ (forall e,
        snd (update' ctx {| u_id := id; u_name := n; u_description := dsc;
                            u_waypoints := Some ws |} env (start d)) = Throw e ->
        waypoints
          (db (fst (update' ctx {| u_id := id; u_name := n;
                                   u_description := dsc;
                                   u_waypoints := Some ws |} env (start d))))
        = waypoints d).
Proof.
  destruct (update_reaches_replace ctx id n dsc ws env d)
    as [(s & e & -> & Hdb & Hc) | (s1 & -> & Hdb & Hc)].
  - simpl. split; [|split]; try discriminate; auto.
    eapply Forall_impl; [|exact Hc]. intros c Hcc. now left.
  - destruct (replace_step id ws env d s1 Hdb Hc) as (H1 & H2 & H3).
    split; [exact H1|]. split; [|exact H3].
    intros Hok. now destruct (H2 Hok) as (_ & ? & ?).
Qed.

End RouterFacts.

(** The round trip on the sample database, through the theorem; the read
    finds the second new row before the first. *)
Lemma create_then_get_round_trip_witness :
  exists s2 rows,
    DrizzleRouter.get any_text as_alice (r_id trip_route) shuffling_env
      (start (db after_trip)) = (s2, Normal (trip_route, rows))
    /\ reads_back (r_id trip_route) (c_waypoints trip) rows.
Proof.
  apply (create_then_get_round_trip exact_text any_text as_alice trip
           quiet_env shuffling_env sample_db after_trip trip_route).
  - repeat constructor.
  - vm_compute. reflexivity.
  - reflexivity.
  - reflexivity.
  - reflexivity.
  - repeat constructor; vm_compute; discriminate.
Defined.

(** Without ORDER BY the same read would return the rows as the scan
    finds them, the second before the first. *)
Example scan_order_of_the_trip :
  map w_position
    (seq_scan w_id (place shuffling_env 1)
       (waypoints_of (r_id trip_route) (db after_trip))) = [1; 0]
  /\ map w_position
       (select_by_position (place shuffling_env 1) (r_id trip_route)
          (db after_trip)) = [0; 1].
Proof. split; vm_compute; reflexivity. Qed.

(** Alice replaces the waypoints of her route, through the theorem. *)
Lemma update_replaces_atomically_witness :
  stores exact_text route_1 two_stops (waypoints_of route_1 (db after_replace)).
Proof.
  destruct (update_replaces_atomically exact_text any_text as_alice route_1
              None None two_stops quiet_env sample_db) as (_ & Hdone & _).
  assert (Hok : snd (DrizzleRouter.update exact_text any_text as_alice
                       {| u_id := route_1; u_name := None;
                          u_description := None;
                          u_waypoints := Some two_stops |} quiet_env
                       (start sample_db)) = Normal tt)
    by (vm_compute; reflexivity).
  exact (proj1 (Hdone Hok)).
Defined.

(** [update] reads the owner only in its metadata step: a request that
    carries waypoints and neither name nor description replaces the
    waypoints of any route. *)
Example update_waypoints_of_another_user :
  snd (DrizzleRouter.update exact_text any_text as_bob
         {| u_id := route_1; u_name := None; u_description := None;
            u_waypoints := Some [] |} quiet_env (start sample_db)) = Normal tt
  /\ waypoints_of route_1
       (db (fst (DrizzleRouter.update exact_text any_text as_bob
                   {| u_id := route_1; u_name := None; u_description := None;
                      u_waypoints := Some [] |} quiet_env (start sample_db))))
     = [].
Proof. split; reflexivity. Qed.

(** [removeWaypoint] of the Drizzle router deletes any existing waypoint
    for any signed-in caller: the owner of the route is never read. *)
Lemma removeWaypoint_any_caller (is_uuid : string -> bool) (caller : string)
      (id : uuid) (env : Env) (d : Database) :
  caller <> EmptyString -> is_uuid id = true ->
  transport_fails env 0 = false -> has_waypoint id d = true ->
  snd (DrizzleRouter.removeWaypoint is_uuid {| userId := Some caller |} id env
         (start d)) = Normal tt
  /\ has_waypoint id
       (db (fst (DrizzleRouter.removeWaypoint is_uuid
                   {| userId := Some caller |} id env (start d)))) = false.
Proof.
  intros Hcaller Huuid Hok Hhas.
  unfold DrizzleRouter.removeWaypoint, protectedProcedure. cbn [userId].
  destruct caller as [|c caller]; [congruence|].
  unfold input. rewrite Huuid.
  unfold WaypointRepository.deleteWaypoint, mbind, execute, ret, start.
  cbn [tick db commits]. rewrite Hok. cbn [delete_waypoints fst snd].
  unfold has_waypoint in Hhas. apply existsb_exists in Hhas.
  destruct Hhas as (w & Hin & Hw).
  assert (Hfound : In w (filter (fun w => String.eqb (w_id w) id) (waypoints d)))
    by (apply filter_In; auto).
  destruct (filter (fun w => String.eqb (w_id w) id) (waypoints d)) as [|x l];
    [contradiction|].
  cbn [hd_error fst snd db]. split; [reflexivity|].
  unfold has_waypoint. cbn [waypoints].
  destruct (existsb _ _) eqn:E; [|reflexivity].
  apply existsb_exists in E. destruct E as (y & Hy & Hyid).
  apply filter_In in Hy. destruct Hy as [_ Hy]. now rewrite Hyid in Hy.
Qed.


(** When the INSERT of the waypoints fails after the INSERT of the route
    has committed, [create] throws and the route row stays, without
    waypoints. *)
Lemma create_leaves_orphan (toString : number -> Q) (ctx : Context)
      (i : CreateInput) (env : Env) (d : Database) (s' : Session) (e : exn) :
  referential_integrity d ->
  DrizzleRouter.create toString ctx i env (start d) = (s', Throw e) ->
  commits s' <> [] ->
  orphaned (gen_random_uuid env 0%nat 0%nat) (db s').
Proof.
  intros Hri. unfold DrizzleRouter.create, protectedProcedure.
  destruct (userId ctx) as [[|c user]|]; try (intros [= <- _] H; now elim H).
  unfold input. destruct (_ && _); [|intros [= <- _] H; now elim H].
  unfold mbind at 1. unfold RouteRepository.createRoute, execute at 1, start.
  cbn [tick db commits].
  destruct (transport_fails env 0); [intros [= <- _] H; now elim H|].
  unfold insert_route.
  destruct (has_route (gen_random_uuid env 0%nat 0%nat) d) eqn:Hfresh;
    [intros [= <- _] H; now elim H|].
  cbn [r_id].
  destruct (c_waypoints i) as [|wp rest]; [discriminate|].
  unfold mbind, ret, WaypointRepository.createWaypoints.
  cbn [DrizzleRouter.waypointsData map_index].
  unfold execute. cbn [tick db commits].
  assert (Horphan : orphaned (gen_random_uuid env 0%nat 0%nat)
            {| routes := routes d
                 ++ [{| r_id := gen_random_uuid env 0%nat 0%nat;
                        r_user_id := Some (String c user);
                        r_name := c_name i; r_description := c_description i;
                        r_created_at := now env; r_updated_at := now env |}];
               waypoints := waypoints d |}).
  { split.
    - unfold has_route. cbn [routes]. rewrite existsb_app. simpl.
      rewrite String.eqb_refl. apply orb_true_r.
    - exact (fresh_route_has_no_waypoints _ d Hri Hfresh). }
  destruct (transport_fails env 1); [intros [= <- _] _; exact Horphan|].
  match goal with
  | |- context [insert_waypoints ?g ?j ?v ?d0] =>
      destruct (insert_waypoints g j v d0) as [[d2 rows]|e'] eqn:Hins
  end; [discriminate|].
  intros [= <- _] _. exact Horphan.
Qed.

(** C6, as the Drizzle router has it: Alice saves a route whose waypoint
    has latitude 100.  [z.number()] accepts it, [decimal(10, 8)] does not:
    the call fails, and the route row it inserted first is left in the
    database without any waypoint. *)
Theorem create_not_atomic :
  snd (DrizzleRouter.create exact_text as_alice bad_trip quiet_env
         (start sample_db))
  = Throw overflow
  /\ has_route new_route_id sample_db = false
  /\ orphaned new_route_id
       (db (fst (DrizzleRouter.create exact_text as_alice bad_trip quiet_env
                   (start sample_db)))).
Proof. repeat split; vm_compute; reflexivity. Qed.

End DrizzleFacts.

(** ** Facts about the Supabase routers *)

Module SupabaseFacts.
Import JS Storage Trpc Persisted.

(** The owner-checked router refuses the call that the Drizzle router
    lets through, and leaves the waypoint in place. *)
Example supabase_removeWaypoint_checks_owner :
  SupabaseRouter.removeWaypoint any_text as_bob wp_1 quiet_env (start sample_db)
  = ({| db := sample_db; tick := 2; commits := [] |},
     Throw not_your_route)
  /\ snd (SupabaseRouter.removeWaypoint any_text as_alice wp_1 quiet_env
            (start sample_db)) = Normal tt.
Proof. split; reflexivity. Qed.

(** The first router has no caller identity at all: anyone removes any
    waypoint. *)
Example anonymous_removeWaypoint :
  snd (AnonymousRouter.removeWaypoint any_text wp_1 quiet_env (start sample_db))
  = Normal tt
  /\ waypoints_of route_1
       (db (fst (AnonymousRouter.removeWaypoint any_text wp_1 quiet_env
                   (start sample_db))))
     = tl alices_waypoints.
Proof. split; reflexivity. Qed.

(** The first router's [create] has the same two separate writes. *)
Example anonymous_create_not_atomic :
  snd (AnonymousRouter.create exact_text bad_trip quiet_env (start sample_db))
  = Throw overflow
  /\ orphaned new_route_id
       (db (fst (AnonymousRouter.create exact_text bad_trip quiet_env
                   (start sample_db)))).
Proof. repeat split; vm_compute; reflexivity. Qed.

(** The first router's [update] deletes and inserts in two autocommitted
    statements: when the insert fails the old waypoints are already gone. *)
Example anonymous_update_not_atomic :
  snd (AnonymousRouter.update exact_text any_text bad_update quiet_env
         (start sample_db))
  = Throw overflow
  /\ waypoints_of route_1 sample_db = alices_waypoints
  /\ waypoints_of route_1
       (db (fst (AnonymousRouter.update exact_text any_text bad_update
                   quiet_env (start sample_db)))) = [].
Proof. repeat split; vm_compute; reflexivity. Qed.

(** The delete of the first router's [update] is committed on its own:
    whenever the request gets as far as the insert, the state in which
    the route has no waypoint at all has been committed. *)
Lemma anonymous_update_commits_the_delete (toString : number -> Q)
      (is_uuid : string -> bool) (id : uuid) (ws : list WaypointInput)
      (env : Env) (d : Database) :
  is_uuid id = true -> forallb z_waypoint ws = true ->
  transport_fails env 0 = false ->
  exists c,
    hd_error (commits (fst (AnonymousRouter.update toString is_uuid
                              {| u_id := id; u_name := None;
                                 u_description := None;
                                 u_waypoints := Some ws |} env (start d))))
    = Some c
    /\ waypoints_of id c = []
    /\ routes c = routes d.
Proof.
  intros Huuid Hvalid Hok.
  unfold AnonymousRouter.update, input. cbn [u_id u_name u_description
                                              u_waypoints].
  rewrite Huuid, Hvalid. cbn [andb AnonymousRouter.truthy_string].
  unfold mbind at 1. unfold ret at 1. unfold mbind at 1.
  unfold Supabase.delete_waypoints_call, Supabase.call, mbind at 1.
  unfold execute at 1, start. cbn [tick db commits]. rewrite Hok.
  cbn [delete_waypoints fst snd app]. unfold ret at 1.
  unfold mbind at 1. unfold Supabase.throw_if_error at 1.
  cbn [Supabase.error snd]. unfold ret at 1.
  set (c := {| routes := routes d;
              waypoints := filter (fun w => negb (String.eqb (w_route_id w) id))
                             (waypoints d) |}).
  assert (Hkeeps : forall (A : Type) (m : M A) (s : Session),
             hd_error (commits s) = Some c ->
             (forall env s0, exists l, commits (fst (m env s0)) = commits s0 ++ l) ->
             hd_error (commits (fst (m env s))) = Some c).
  { intros A m s Hs Hm. destruct (Hm env s) as [l ->].
    destruct (commits s); [discriminate|assumption]. }
  exists c. split; [|split; [apply DrizzleFacts.filter_same_route|reflexivity]].
  apply Hkeeps; [reflexivity|]. clear. intros env s0.
  unfold mbind, Supabase.insert_waypoints_call, Supabase.call, mbind, execute,
    ret, Supabase.throw_if_error, Supabase.error, throw.
  destruct (transport_fails env (tick s0)); cbn [fst snd commits];
    [exists []; now rewrite app_nil_r|].
  destruct (insert_waypoints _ _ _ _) as [[d2 rows]|e]; cbn [fst snd commits].
  - eexists. reflexivity.
  - exists []. now rewrite app_nil_r.
Qed.

(** C8, as the first router has it: [update] of lib/trpc/routes.ts does not
    replace atomically.  Carol's route has two waypoints; an [update]
    supplies two new ones, the second of which the column cannot hold.
    The id passes the UUID check, the call throws, the only state committed
    is the one after the delete, and the route is left with no waypoint at
    all, neither the old ones nor the new ones. *)
Theorem anonymous_update_loses_waypoints :
  lower_case_uuid_v4 (u_id carols_update) = true
  /\ waypoints_of carols_route_id carols_db = carols_waypoints
  /\ snd (AnonymousRouter.update exact_text lower_case_uuid_v4 carols_update
            quiet_env (start carols_db)) = Throw overflow
  /\ commits (fst (AnonymousRouter.update exact_text lower_case_uuid_v4
                     carols_update quiet_env (start carols_db)))
     = [{| routes := [carols_route]; waypoints := [] |}]
  /\ waypoints_of carols_route_id
       (db (fst (AnonymousRouter.update exact_text lower_case_uuid_v4
                   carols_update quiet_env (start carols_db)))) = [].
Proof. repeat split; vm_compute; reflexivity. Qed.

(** The same request on the Drizzle router rolls back. *)
Example drizzle_update_rolls_back :
  DrizzleRouter.update exact_text any_text as_alice bad_update quiet_env
    (start sample_db)
  = ({| db := sample_db; tick := 2; commits := [] |},
     Throw overflow).
Proof. vm_compute. reflexivity. Qed.

End SupabaseFacts.

(** ** Keys and membership *)

Module KeyFacts.
Import JS Storage Trpc StorageFacts.

Lemma has_route_In (id : uuid) (d : Database) :
  has_route id d = true <-> In id (map r_id (routes d)).
Proof.
  unfold has_route. rewrite existsb_exists, in_map_iff. split.
  - intros (r & Hr & He). apply String.eqb_eq in He. eauto.
  - intros (r & He & Hr). exists r. split; [assumption|].
    now apply String.eqb_eq.
Qed.

Lemma has_waypoint_In (id : uuid) (d : Database) :
  has_waypoint id d = true <-> In id (map w_id (waypoints d)).
Proof.
  unfold has_waypoint. rewrite existsb_exists, in_map_iff. split.
  - intros (w & Hw & He). apply String.eqb_eq in He. eauto.
  - intros (w & He & Hw). exists w. split; [assumption|].
    now apply String.eqb_eq.
Qed.

Lemma NoDup_snoc {A} (l : list A) (x : A) :
  NoDup l -> ~ In x l -> NoDup (l ++ [x]).
Proof.
  intros Hl Hx. apply NoDup_app; [assumption|repeat constructor; intros []|].
  intros y Hy [<-|[]]. contradiction.
Qed.

Lemma NoDup_map_filter {Row Key} (key : Row -> Key) (keep : Row -> bool)
      (rows : list Row) (Hkeys : NoDup (map key rows)) :
  NoDup (map key (filter keep rows)).
Proof.
  rename keep into p. revert Hkeys.
  induction rows as [|x l IH]; simpl; [auto|]. intros H.
  inversion H as [|y ys Hnot Hrest]; subst.
  destruct (p x); simpl; [|auto]. constructor; [|auto].
  rewrite in_map_iff in *. intros (z & Hz & Hin).
  apply filter_In in Hin. apply Hnot. exists z. tauto.
Qed.

End KeyFacts.
(** ** Facts about the procedures of the Drizzle router *)

Module ProcedureFacts.
Import JS Storage Trpc Persisted StorageFacts.

Abbreviation by_position := DrizzleProcedures.by_position.
Abbreviation newest_first := DrizzleProcedures.newest_first.
Abbreviation owned_route := RouteRepository.owned_route.

(** *** ORDER BY *)

Lemma select_by_position_by_position (place : uuid -> Z) (route : uuid)
      (d : Database) :
  by_position (select_by_position place route d).
Proof. apply select_by_position_sorted. Qed.

Lemma order_by_created_at_perm (l : list RouteRow) :
  Permutation (DrizzleProcedures.order_by_created_at_desc l) l.
Proof. apply sort_by_perm. Qed.

Lemma order_by_created_at_newest_first (l : list RouteRow) :
  newest_first (DrizzleProcedures.order_by_created_at_desc l).
Proof.
  unfold DrizzleProcedures.order_by_created_at_desc,
    DrizzleProcedures.newest_first.
  apply (Sorted_impl
           (fun a b => (r_created_at b <=? r_created_at a)%N = true)).
  - intros a b. apply N.leb_le.
  - apply sort_by_sorted. intros x y Hxy. apply N.leb_le.
    apply N.leb_gt in Hxy. lia.
Qed.

Lemma fold_max_ge (l : list Z) :
  forall p, p <= fold_left Z.max l p
            /\ Forall (fun x => x <= fold_left Z.max l p) l.
Proof.
  induction l as [|x l IH]; intros p; simpl.
  - split; [lia|constructor].
  - destruct (IH (Z.max p x)) as [Hp Hl]. split; [lia|].
    constructor; [lia|assumption].
Qed.

Lemma nextPosition_above (l : list WaypointRow) :
  Forall (fun w => w_position w < DrizzleProcedures.nextPosition l) l.
Proof.
  unfold DrizzleProcedures.nextPosition. destruct l as [|w l]; [constructor|].
  cbn [map]. destruct (fold_max_ge (map w_position l) (w_position w)) as [Hp Hl].
  constructor; [lia|]. rewrite Forall_map in Hl.
  eapply Forall_impl; [|exact Hl]. cbv beta. intros; lia.
Qed.

(** *** Ownership *)

Lemma owned_route_spec (id : uuid) (user : string) (r : RouteRow) :
  owned_route id user r = true <-> r_id r = id /\ r_user_id r = Some user.
Proof.
  unfold RouteRepository.owned_route, option_string_eqb.
  rewrite Bool.andb_true_iff, String.eqb_eq.
  destruct (r_user_id r) as [u|].
  - rewrite String.eqb_eq. split; intros [H1 H2]; split; congruence.
  - split; intros [H1 H2]; [discriminate|discriminate].
Qed.

Lemma filter_owned_none (id : uuid) (user : string) (l : list RouteRow) :
  (forall r, In r l -> r_id r = id -> r_user_id r <> Some user) ->
  Forall (fun r => owned_route id user r = false) l.
Proof.
  intros H. apply Forall_forall. intros r Hr.
  destruct (owned_route id user r) eqn:Ho; [|reflexivity].
  apply owned_route_spec in Ho. destruct Ho as [Hid Hu].
  exfalso. exact (H r Hr Hid Hu).
Qed.

Lemma NoDup_map_inj {A B} (f : A -> B) (l : list A) (a b : A) :
  NoDup (map f l) -> In a l -> In b l -> f a = f b -> a = b.
Proof.
  induction l as [|x l IH]; simpl; [contradiction|].
  intros Hnd Ha Hb Hf. inversion Hnd as [|? ? Hnot Hrest]; subst.
  destruct Ha as [<-|Ha], Hb as [<-|Hb]; auto.
  - exfalso. apply Hnot. rewrite Hf. now apply in_map.
  - exfalso. apply Hnot. rewrite <- Hf. now apply in_map.
Qed.


(** *** Statements on a healthy connection *)

Lemma query_ok {A} (select : Database -> A) (env : Env) (s : Session) :
  transport_fails env (tick s) = false ->
  query select env s
  = ({| db := db s; tick := S (tick s); commits := commits s |},
     Normal (select (db s))).
Proof. intros H. unfold query. now rewrite H. Qed.

Lemma query_rows_ok {A} (select : (uuid -> Z) -> Database -> A) (env : Env)
      (s : Session) :
  transport_fails env (tick s) = false ->
  query_rows select env s
  = ({| db := db s; tick := S (tick s); commits := commits s |},
     Normal (select (place env (tick s)) (db s))).
Proof. intros H. unfold query_rows. now rewrite H. Qed.

Lemma execute_ok {A}
      (statement : Env -> nat -> Database -> completion (Database * A))
      (env : Env) (s : Session) (d' : Database) (a : A) :
  transport_fails env (tick s) = false ->
  statement env (tick s) (db s) = Normal (d', a) ->
  execute statement env s
  = ({| db := d'; tick := S (tick s); commits := commits s ++ [d'] |},
     Normal a).
Proof. intros H Hst. unfold execute. now rewrite H, Hst. Qed.

Lemma execute_error {A}
      (statement : Env -> nat -> Database -> completion (Database * A))
      (env : Env) (s : Session) :
  (forall e, snd (execute statement env s) = Throw e ->
             db (fst (execute statement env s)) = db s
             /\ commits (fst (execute statement env s)) = commits s).
Proof.
  unfold execute. destruct (transport_fails env (tick s)); [auto|].
  destruct (statement env (tick s) (db s)) as [[d' a]|e']; [discriminate|auto].
Qed.

Lemma mbind_throw {A B} (c : M A) (k : A -> M B) (env : Env)
      (s s' : Session) (e : exn) :
  c env s = (s', Throw e) -> mbind c k env s = (s', Throw e).
Proof. intros H. unfold mbind. now rewrite H. Qed.

Lemma mbind_normal {A B} (c : M A) (k : A -> M B) (env : Env)
      (s s' : Session) (a : A) :
  c env s = (s', Normal a) -> mbind c k env s = k a env s'.
Proof. intros H. unfold mbind. now rewrite H. Qed.

Lemma database_eta (d : Database) :
  {| routes := routes d; waypoints := waypoints d |} = d.
Proof. now destruct d. Qed.

Lemma map_if_false {A} (cond : A -> bool) (f : A -> A) (l : list A) :
  Forall (fun x => cond x = false) l ->
  map (fun x => if cond x then f x else x) l = l.
Proof.
  induction 1 as [|x l Hx _ IH]; simpl; [reflexivity|].
  now rewrite Hx, IH.
Qed.

(** A DELETE or UPDATE whose condition matches no route changes nothing. *)
Lemma delete_routes_none (cond : RouteRow -> bool) (d : Database) :
  Forall (fun r => cond r = false) (routes d) ->
  delete_routes cond d = (d, []).
Proof.
  intros Hnone. unfold delete_routes. cbv zeta.
  rewrite (filter_none _ _ Hnone). cbn [existsb negb].
  rewrite (filter_all (fun r => negb (cond r))).
  - rewrite (filter_all (fun _ => true)); [now rewrite database_eta|].
    apply Forall_forall. reflexivity.
  - eapply Forall_impl; [|exact Hnone]. cbv beta. now intros r ->.
Qed.

Lemma update_routes_none (cond : RouteRow -> bool)
      (assign : RouteRow -> RouteRow) (d : Database) :
  Forall (fun r => cond r = false) (routes d) ->
  update_routes cond assign d = (d, []).
Proof.
  intros Hnone. unfold update_routes.
  rewrite (filter_none _ _ Hnone), (map_if_false _ _ _ Hnone).
  now rewrite database_eta.
Qed.


Lemma filter_update {A} (cond : A -> bool) (assign : A -> A) (l : list A) :
  (forall x, cond (assign x) = cond x) ->
  filter cond (map (fun x => if cond x then assign x else x) l)
  = map assign (filter cond l).
Proof.
  intros Hkeep. induction l as [|x l IH]; simpl; [reflexivity|].
  destruct (cond x) eqn:Hx.
  - rewrite Hkeep, Hx. simpl. now rewrite IH.
  - now rewrite Hx.
Qed.

(** *** Coordinates that fit their column *)

Lemma to_decimal_fits (precision : Z) (bound : Z) (q : Q) :
  (Qabs q <= inject_Z bound)%Q ->
  bound * 10 ^ 8 < 10 ^ precision ->
  exists v, to_decimal precision q = Normal v.
Proof.
  intros Hq Hbound. unfold to_decimal. cbv zeta.
  set (x := (q * inject_Z (10 ^ 8))%Q).
  pose proof (round_half_away_close x) as Hclose.
  apply Qabs_Qle_condition in Hclose. apply Qabs_Qle_condition in Hq.
  assert (Hx : (- inject_Z (bound * 10 ^ 8) <= x
                /\ x <= inject_Z (bound * 10 ^ 8))%Q).
  { unfold x. rewrite inject_Z_mult.
    assert (H8 : (0 < inject_Z (10 ^ 8))%Q) by reflexivity.
    split; nra. }
  assert (Hv : - (bound * 10 ^ 8) <= round_half_away x <= bound * 10 ^ 8).
  { destruct Hx as [Hlo Hhi], Hclose as [Hclo Hchi].
    split.
    - assert (H : (inject_Z (- (bound * 10 ^ 8) - 1) < inject_Z (round_half_away x))%Q).
      { replace (- (bound * 10 ^ 8) - 1) with (- (bound * 10 ^ 8) + - (1))
          by lia.
        rewrite inject_Z_plus, !inject_Z_opp.
        change (inject_Z 1) with 1%Q. lra. }
      rewrite <- Zlt_Qlt in H. lia.
    - assert (H : (inject_Z (round_half_away x) < inject_Z (bound * 10 ^ 8 + 1))%Q).
      { rewrite inject_Z_plus. change (inject_Z 1) with 1%Q. lra. }
      rewrite <- Zlt_Qlt in H. lia. }
  assert (Hfit : (Z.abs (round_half_away x) <? 10 ^ precision) = true)
    by (apply Z.ltb_lt; lia).
  rewrite Hfit. eauto.
Qed.

Abbreviation fits := DrizzleProcedures.fits.

Lemma on_the_globe_fits (toString : number -> Q) (route : uuid)
      (wp : WaypointInput) (index : nat) :
  DrizzleProcedures.on_the_globe toString wp ->
  fits {| nw_route_id := route;
          nw_latitude := toString (latitude wp);
          nw_longitude := toString (longitude wp);
          nw_name := name wp;
          nw_position := Z.of_nat index |}.
Proof.
  intros [Hlat Hlng]. unfold DrizzleProcedures.fits. cbn [nw_latitude nw_longitude].
  destruct (to_decimal_fits 10 90 _ Hlat) as [lat Hl]; [reflexivity|].
  destruct (to_decimal_fits 11 180 _ Hlng) as [lng Hg]; [reflexivity|].
  eauto.
Qed.

(** An INSERT succeeds when every value fits, references a stored route
    and draws an id that is not in use. *)
Lemma insert_waypoints_succeeds (gen : nat -> uuid) (values : list NewWaypoint) :
  forall (j : nat) (d : Database),
    Forall fits values ->
    Forall (fun v => has_route (nw_route_id v) d = true) values ->
    NoDup (map gen (seq j (List.length values))) ->
    (forall k, (j <= k < j + List.length values)%nat ->
               has_waypoint (gen k) d = false) ->
    exists d' rows, insert_waypoints gen j values d = Normal (d', rows).
Proof.
  induction values as [|v values IH]; intros j d Hfits Hfk Hnd Hfresh; simpl.
  - eauto.
  - inversion Hfits as [|? ? (lat & lng & Hlat & Hlng) Hfits']; subst.
    inversion Hfk as [|? ? Hv Hfk']; subst.
    simpl in Hnd. inversion Hnd as [|? ? Hnot Hnd']; subst.
    rewrite Hlat, Hlng. cbn [bind]. rewrite Hv. cbn [negb].
    rewrite (Hfresh j) by (simpl; lia).
    destruct (IH (S j)
                {| routes := routes d;
                   waypoints :=
                     waypoints d
                       ++ [{| w_id := gen j; w_route_id := nw_route_id v;
                              w_position := nw_position v;
                              w_latitude := lat; w_longitude := lng;
                              w_name := nw_name v |}] |})
      as (d' & rows & Hins); try assumption.
    + intros k Hk. unfold has_waypoint. cbn [waypoints].
      rewrite existsb_app. cbn [existsb w_id].
      rewrite Bool.orb_false_r.
      assert (Hold : has_waypoint (gen k) d = false)
        by (apply Hfresh; simpl; lia).
      unfold has_waypoint in Hold. rewrite Hold. cbn [orb].
      apply String.eqb_neq. intros Heq. apply Hnot. rewrite Heq.
      apply in_map, in_seq. lia.
    + rewrite Hins. cbn [bind]. eauto.
Qed.

Section Procedures.

Variable toString : number -> Q.
Variable is_uuid : string -> bool.

Abbreviation get' := (DrizzleRouter.get is_uuid).
Abbreviation update' := (DrizzleRouter.update toString is_uuid).
Abbreviation delete' := (DrizzleRouter.delete is_uuid).
Abbreviation create' := (DrizzleRouter.create toString).
Abbreviation addWaypoint' := (DrizzleProcedures.addWaypoint toString is_uuid).
Abbreviation serve' := (DrizzleProcedures.serve toString is_uuid).

(** What a [get] that returns has read. *)
Lemma get_success (ctx : Context) (id : uuid) (env : Env) (s s' : Session)
      (route : RouteRow) (rows : list WaypointRow) :
  get' ctx id env s = (s', Normal (route, rows)) ->
  exists user others,
    userId ctx = Some user /\ user <> EmptyString /\ is_uuid id = true
    /\ filter (owned_route id user) (routes (db s)) = route :: others
    /\ rows = select_by_position (place env (S (tick s))) id (db s)
    /\ db s' = db s /\ commits s' = commits s.
Proof.
  unfold DrizzleRouter.get, input.
  destruct (is_uuid id); [|discriminate].
  destruct (userId ctx) as [[|c user]|]; try discriminate.
  unfold RouteRepository.getRouteWithWaypoints, mbind, query, query_rows,
    ret, throw.
  destruct (transport_fails env (tick s)); [discriminate|].
  destruct (filter _ (routes (db s))) as [|found others] eqn:Hfound;
    [discriminate|].
  cbn [tick db commits].
  destruct (transport_fails env (S (tick s))); [discriminate|].
  intros [= <- <- <-]. exists (String c user), others.
  repeat split; try reflexivity; try assumption. discriminate.
Qed.

(** X13. [get] is private and read-only: a route that [get] returns has the
    requested id and belongs to the caller, its waypoints are exactly the
    stored waypoints of that route in non-decreasing order of position,
    and the request has written nothing. *)
Theorem get_returns_only_own_route (ctx : Context) (id : uuid) (env : Env)
        (s s' : Session) (route : RouteRow) (rows : list WaypointRow) :
  get' ctx id env s = (s', Normal (route, rows)) ->
  r_id route = id /\ r_user_id route = userId ctx
  /\ In route (routes (db s))
  /\ Permutation rows (waypoints_of id (db s))
  /\ by_position rows
  /\ db s' = db s /\ commits s' = commits s.
Proof.
  intros Hget.
  destruct (get_success _ _ _ _ _ _ _ Hget)
    as (user & others & Hctx & Huser & Huuid & Hfound & Hrows & Hdb & Hc).
  assert (Hin : In route (filter (owned_route id user) (routes (db s))))
    by (rewrite Hfound; now left).
  apply filter_In in Hin. destruct Hin as [Hin Howned].
  apply owned_route_spec in Howned. destruct Howned as [Hid Hu].
  subst rows. repeat split; try assumption.
  - congruence.
  - apply select_by_position_perm.
  - apply select_by_position_by_position.
Qed.

(** X14. A caller who is not signed in reaches no statement: whatever the
    request, the session is left as it was; a protected procedure throws
    the UNAUTHORIZED error of the middleware, [list] answers with the empty
    array and [get] throws. *)
Theorem signed_out_reaches_no_statement (ctx : Context)
        (r : DrizzleProcedures.request) (env : Env) (s : Session) :
  userId ctx = None \/ userId ctx = Some EmptyString ->
  fst (serve' ctx r env s) = s
  /\ (DrizzleProcedures.is_protected r = true ->
      snd (serve' ctx r env s)
      = Throw (TRPCError "UNAUTHORIZED"
                 "You must be signed in to perform this action"))
  /\ (r = DrizzleProcedures.List ->
      snd (serve' ctx r env s) = Normal (DrizzleProcedures.Routes []))
  /\ (forall id, r = DrizzleProcedures.Get id ->
                 exists e, snd (serve' ctx r env s) = Throw e).
Proof.
  intros Hout.
  assert (Hguard : forall A (resolver : string -> M A),
             protectedProcedure ctx resolver env s
             = (s, Throw (TRPCError "UNAUTHORIZED"
                            "You must be signed in to perform this action"))).
  { intros A resolver. unfold protectedProcedure.
    destruct Hout as [-> | ->]; reflexivity. }
  destruct r as [i| |id|i|id|i|id];
    cbn [DrizzleProcedures.serve DrizzleProcedures.is_protected];
    unfold mbind, DrizzleRouter.create, DrizzleRouter.update,
      DrizzleRouter.delete, DrizzleRouter.removeWaypoint,
      DrizzleProcedures.addWaypoint;
    rewrite ?Hguard; cbn [fst snd].
  - repeat split; [discriminate|discriminate].
  - unfold DrizzleProcedures.list.
    destruct Hout as [Hn | Hn]; rewrite Hn; (split; [reflexivity|]);
      (split; [discriminate|]); (split; [reflexivity|discriminate]).
  - unfold DrizzleRouter.get, input.
    destruct (is_uuid id); destruct Hout as [Hn | Hn]; rewrite ?Hn;
      (split; [reflexivity|]); (split; [discriminate|]);
      (split; [discriminate|]); intros; eexists; reflexivity.
  - repeat split; [discriminate|discriminate].
  - repeat split; [discriminate|discriminate].
  - repeat split; [discriminate|discriminate].
  - repeat split; [discriminate|discriminate].
Qed.


(** What [DELETE ... WHERE id = ... AND user_id = ...] does to a database
    with unique route ids in which the caller owns the route. *)
Lemma delete_routes_owned (id : uuid) (user : string) (d : Database)
      (r : RouteRow) :
  NoDup (map r_id (routes d)) ->
  In r (routes d) -> r_id r = id -> r_user_id r = Some user ->
  let d' := fst (delete_routes (owned_route id user) d) in
  snd (delete_routes (owned_route id user) d) = [r]
  /\ has_route id d' = false
  /\ waypoints_of id d' = []
  /\ (forall x, In x (routes d') <-> In x (routes d) /\ r_id x <> id)
  /\ (forall other, other <> id -> waypoints_of other d' = waypoints_of other d).
Proof.
  intros Hnd Hin Hid Hu. cbv zeta.
  assert (Howned : forall x, In x (routes d) ->
                             owned_route id user x = true <-> x = r).
  { intros x Hx. rewrite owned_route_spec. split.
    - intros [Hxid _]. apply (NoDup_map_inj r_id (routes d)); congruence.
    - intros ->. auto. }
  assert (Hgone : filter (owned_route id user) (routes d) = [r]).
  { clear Hid Hu. induction (routes d) as [|x l IH]; [contradiction|].
    simpl in *. inversion Hnd as [|? ? Hnot Hrest]; subst.
    destruct (owned_route id user x) eqn:Hx.
    - apply (Howned x (or_introl eq_refl)) in Hx. subst x. f_equal.
      apply filter_none. apply Forall_forall. intros y Hy.
      destruct (owned_route id user y) eqn:Hoy; [|reflexivity].
      apply (Howned y (or_intror Hy)) in Hoy. subst y.
      exfalso. apply Hnot. now apply in_map.
    - destruct Hin as [->|Hin].
      + assert (owned_route id user r = true)
          by (apply (Howned r (or_introl eq_refl)); reflexivity).
        congruence.
      + apply IH; try assumption. intros y Hy. apply Howned. now right. }
  unfold delete_routes. cbv zeta. cbn [fst snd]. rewrite Hgone.
  split; [reflexivity|].
  assert (Hroutes : forall x,
             In x (filter (fun r0 => negb (owned_route id user r0)) (routes d))
             <-> In x (routes d) /\ r_id x <> id).
  { intros x. rewrite filter_In, Bool.negb_true_iff. split.
    - intros [Hx Hno]. split; [assumption|]. intros Hxid.
      assert (x = r) by (apply (NoDup_map_inj r_id (routes d)); congruence).
      subst x. assert (owned_route id user r = true)
        by (apply owned_route_spec; auto). congruence.
    - intros [Hx Hne]. split; [assumption|].
      destruct (owned_route id user x) eqn:Hox; [|reflexivity].
      apply owned_route_spec in Hox. tauto. }
  split; [|split; [|split]].
  - unfold has_route. cbn [routes].
    destruct (existsb _ _) eqn:He; [|reflexivity].
    apply existsb_exists in He. destruct He as (x & Hx & Hxid).
    apply Hroutes in Hx. apply String.eqb_eq in Hxid. tauto.
  - unfold waypoints_of. cbn [waypoints existsb]. apply filter_none.
    apply Forall_forall. intros w Hw. apply filter_In in Hw.
    destruct Hw as [_ Hkept]. rewrite Bool.orb_false_r in Hkept.
    apply Bool.negb_true_iff in Hkept. rewrite <- Hkept, Hid.
    apply String.eqb_sym.
  - exact Hroutes.
  - intros other Hne. unfold waypoints_of. cbn [waypoints existsb].
    rewrite Hid.
    induction (waypoints d) as [|w l IH]; [reflexivity|]. simpl.
    rewrite Bool.orb_false_r.
    destruct (String.eqb_spec id (w_route_id w)) as [Heq|Hneq]; simpl.
    + destruct (String.eqb_spec (w_route_id w) other); [congruence|exact IH].
    + now rewrite IH.
Qed.

(** X15. [delete] by the owner removes the route and, by the cascade, all
    of its waypoints, in one committed step; every other route and the
    waypoints of every other route stay as they were. *)
Theorem delete_removes_route_and_waypoints (ctx : Context) (user : string)
        (id : uuid) (env : Env) (d : Database) :
  userId ctx = Some user -> user <> EmptyString -> is_uuid id = true ->
  transport_fails env 0 = false ->
  NoDup (map r_id (routes d)) ->
  (exists r, In r (routes d) /\ r_id r = id /\ r_user_id r = Some user) ->
  exists s',
    delete' ctx id env (start d) = (s', Normal tt)
    /\ commits s' = [db s']
    /\ has_route id (db s') = false
    /\ waypoints_of id (db s') = []
    /\ (forall x, In x (routes (db s')) <-> In x (routes d) /\ r_id x <> id)
    /\ (forall other, other <> id ->
                      waypoints_of other (db s') = waypoints_of other d).
Proof.
  intros Hctx Huser Huuid Hnet Hnd (r & Hin & Hid & Hu).
  destruct (delete_routes_owned id user d r Hnd Hin Hid Hu)
    as (Hgone & Hfacts).
  unfold DrizzleRouter.delete, protectedProcedure, input.
  rewrite Hctx, Huuid. destruct user as [|c user]; [congruence|].
  unfold RouteRepository.deleteRoute, mbind.
  rewrite (execute_ok _ env (start d)
             (fst (delete_routes (owned_route id (String c user)) d)) [r]);
    [|assumption|cbn [start db tick]; rewrite <- Hgone;
                  now destruct (delete_routes _ d)].
  cbn [hd_error ret]. eexists. split; [reflexivity|].
  cbn [commits db start app]. split; [reflexivity|]. exact Hfacts.
Qed.

(** X16. [delete] of a route that the caller does not own, or that does not
    exist, throws and leaves the database as it was; with a valid id and
    the database reachable the error is the one about ownership. *)
Theorem delete_rejects_foreign_route (ctx : Context) (id : uuid) (env : Env)
        (d : Database) :
  (forall r, In r (routes d) -> r_id r = id -> r_user_id r <> userId ctx) ->
  db (fst (delete' ctx id env (start d))) = d
  /\ (exists e, snd (delete' ctx id env (start d)) = Throw e)
  /\ (forall c user,
        userId ctx = Some (String c user) -> is_uuid id = true ->
        transport_fails env 0 = false ->
        snd (delete' ctx id env (start d))
        = Throw (Error "Unauthorized: You can only delete your own routes")).
Proof.
  intros Hforeign.
  unfold DrizzleRouter.delete, protectedProcedure, input.
  destruct (userId ctx) as [[|c user]|] eqn:Hctx;
    try (repeat split; [eexists; reflexivity|discriminate]).
  destruct (is_uuid id);
    [|repeat split; [eexists; reflexivity|discriminate]].
  unfold RouteRepository.deleteRoute, mbind, execute. cbn [start tick db commits].
  destruct (transport_fails env 0);
    [repeat split; [eexists; reflexivity|discriminate]|].
  rewrite delete_routes_none
    by (apply filter_owned_none; assumption).
  cbn [hd_error ret fst snd db].
  split; [reflexivity|split; [eexists; reflexivity|intros; reflexivity]].
Qed.

(** X17. [update] that carries a name or a description for a route the
    caller does not own throws before anything changes: the database is as
    it was, in every committed state, whether or not the request also
    carries waypoints. *)
Theorem update_rejects_foreign_metadata (ctx : Context) (i : UpdateInput)
        (env : Env) (d : Database) :
  u_name i <> None \/ u_description i <> None ->
  (forall r, In r (routes d) -> r_id r = u_id i -> r_user_id r <> userId ctx) ->
  db (fst (update' ctx i env (start d))) = d
  /\ Forall (eq d) (commits (fst (update' ctx i env (start d))))
  /\ exists e, snd (update' ctx i env (start d)) = Throw e.
Proof.
  intros Hmeta Hforeign.
  unfold DrizzleRouter.update, protectedProcedure, input.
  destruct (userId ctx) as [[|c user]|] eqn:Hctx;
    try (repeat split; [constructor|eexists; reflexivity]).
  destruct (_ && _); [|repeat split; [constructor|eexists; reflexivity]].
  assert (Hstep :
            let r := (let* updated :=
                        RouteRepository.updateRoute (u_id i) (String c user)
                          (u_name i) (u_description i) in
                      match updated with
                      | None =>
                          throw (Error "Unauthorized: You can only update your own routes")
                      | Some _ => ret tt
                      end) env (start d) in
            db (fst r) = d /\ Forall (eq d) (commits (fst r))
            /\ exists e, snd r = Throw e).
  { cbv zeta. unfold RouteRepository.updateRoute, mbind, execute.
    cbn [start tick db commits].
    destruct (transport_fails env 0);
      [repeat split; [constructor|eexists; reflexivity]|].
    rewrite update_routes_none
      by (apply filter_owned_none; assumption).
    cbn [hd_error ret throw fst snd db commits app].
    repeat split; [repeat constructor|eexists; reflexivity]. }
  cbv zeta in Hstep.
  destruct (u_name i) as [n|], (u_description i) as [dsc|];
    try (destruct Hmeta; congruence); cbv beta iota;
    match type of Hstep with
    | db (fst ?r) = _ /\ _ =>
        destruct r as [s1 [[]|e]] eqn:Hrun; cbn [fst snd] in Hstep;
        destruct Hstep as (Hd & Hc & e' & He); try discriminate;
        rewrite (mbind_throw _ _ _ _ _ _ Hrun); cbn [fst snd];
        repeat split; [assumption|assumption|eexists; reflexivity]
    end.
Qed.

(** X18. Metadata round trip.  When the caller can [get] a route, an
    [update] of its name or description (without waypoints) succeeds on a
    reachable database, and a following [get] returns the route with the
    supplied fields replaced, the others kept, [updated_at] set to the time
    of the update, and the same waypoints as before: the same rows in
    order of position, and the very same list when the positions of the
    route are pairwise distinct or the read scans the table as the earlier
    read did. *)
Theorem update_metadata_then_get (ctx : Context) (id : uuid)
        (n dsc : option string) (env0 env env2 : Env) (d : Database)
        (s0 : Session) (route : RouteRow) (rows : list WaypointRow) :
  n <> None \/ dsc <> None ->
  get' ctx id env0 (start d) = (s0, Normal (route, rows)) ->
  transport_fails env 0 = false ->
  transport_fails env2 0 = false -> transport_fails env2 1 = false ->
  exists s' s2 rows2,
    update' ctx {| u_id := id; u_name := n; u_description := dsc;
                   u_waypoints := None |} env (start d) = (s', Normal tt)
    /\ waypoints (db s') = waypoints d
    /\ get' ctx id env2 (start (db s'))
       = (s2, Normal ({| r_id := r_id route; r_user_id := r_user_id route;
                         r_name := match n with
                                   | Some x => x
                                   | None => r_name route
                                   end;
                         r_description := match dsc with
                                          | Some x => Some x
                                          | None => r_description route
                                          end;
                         r_created_at := r_created_at route;
                         r_updated_at := now env |}, rows2))
    /\ Permutation rows2 rows
    /\ by_position rows2
    /\ (NoDup (map w_position rows) -> rows2 = rows)
    /\ ((forall w, place env2 1 w = place env0 1 w) -> rows2 = rows).
Proof.
  intros Hmeta Hget Hnet Hq0 Hq1.
  destruct (get_success _ _ _ _ _ _ _ Hget)
    as (user & others & Hctx & Huser & Huuid & Hfound & Hrows & _ & _).
  cbn [start db tick] in Hfound, Hrows.
  set (assign := fun r : RouteRow =>
         {| r_id := r_id r; r_user_id := r_user_id r;
            r_name := match n with Some x => x | None => r_name r end;
            r_description := match dsc with
                             | Some x => Some x
                             | None => r_description r
                             end;
            r_created_at := r_created_at r; r_updated_at := now env |}).
  set (d1 := fst (update_routes (owned_route id user) assign d)).
  assert (Hstep : RouteRepository.updateRoute id user n dsc env (start d)
                  = ({| db := d1; tick := 1; commits := [d1] |},
                     Normal (Some (assign route)))).
  { unfold RouteRepository.updateRoute, mbind, execute.
    cbn [start tick db commits]. rewrite Hnet.
    unfold d1, update_routes. rewrite Hfound. reflexivity. }
  assert (Hof : waypoints_of id d1 = waypoints_of id d) by reflexivity.
  exists {| db := d1; tick := 1; commits := [d1] |},
         {| db := d1; tick := 2; commits := [] |},
         (select_by_position (place env2 1) id d1).
  split; [|split; [|split; [|split; [|split; [|split]]]]].
  - unfold DrizzleRouter.update, protectedProcedure, input.
    cbn [u_id u_name u_description u_waypoints].
    rewrite Hctx, Huuid. destruct user as [|c user]; [congruence|].
    cbn [andb].
    assert (Hmeta' :
              (let* updated :=
                 RouteRepository.updateRoute id (String c user) n dsc in
               match updated with
               | None =>
                   throw (Error "Unauthorized: You can only update your own routes")
               | Some _ => ret tt
               end) env (start d)
              = ({| db := d1; tick := 1; commits := [d1] |}, Normal tt))
      by (now rewrite (mbind_normal _ _ _ _ _ _ Hstep)).
    destruct n as [n|], dsc as [dsc|]; try (destruct Hmeta; congruence);
      now rewrite (mbind_normal _ _ _ _ _ _ Hmeta').
  - reflexivity.
  - cbn [db]. unfold DrizzleRouter.get, input. rewrite Huuid, Hctx.
    destruct user as [|c user]; [congruence|]. cbv beta iota.
    unfold RouteRepository.getRouteWithWaypoints, mbind, query, query_rows.
    cbn [start tick db commits]. rewrite Hq0.
    unfold d1 at 1, update_routes. cbn [fst routes].
    rewrite filter_update
      by (intros r; unfold RouteRepository.owned_route; reflexivity).
    rewrite Hfound. cbn [map tick db commits]. rewrite Hq1.
    cbn [db tick commits ret]. reflexivity.
  - subst rows. rewrite !select_by_position_perm. now rewrite Hof.
  - apply select_by_position_by_position.
  - intros Hdistinct. symmetry. apply sorted_by_position_unique.
    + subst rows. apply select_by_position_sorted.
    + apply select_by_position_sorted.
    + subst rows. rewrite !select_by_position_perm. now rewrite Hof.
    + assumption.
  - intros Hsame. subst rows. unfold select_by_position. rewrite Hof.
    f_equal. unfold seq_scan. apply sort_by_ext. intros x y.
    now rewrite !Hsame.
Qed.

(** X19. [addWaypoint] by the owner, on a reachable database, with
    coordinates on the globe and a new id that is not in use, stores one
    more waypoint whose position is above every position of the route, so
    that the waypoints of the route read in order of position, however the
    read scans the table, are the ones read before followed by the new
    one; nothing else changes. *)
Theorem addWaypoint_appends_last (ctx : Context) (user : string)
        (i : DrizzleProcedures.AddWaypointInput) (env : Env) (d : Database) :
  userId ctx = Some user -> user <> EmptyString ->
  is_uuid (DrizzleProcedures.a_routeId i) = true ->
  z_number (DrizzleProcedures.a_latitude i) = true ->
  z_number (DrizzleProcedures.a_longitude i) = true ->
  (Qabs (toString (DrizzleProcedures.a_latitude i)) <= 90)%Q ->
  (Qabs (toString (DrizzleProcedures.a_longitude i)) <= 180)%Q ->
  (exists r, In r (routes d) /\ r_id r = DrizzleProcedures.a_routeId i
             /\ r_user_id r = Some user) ->
  Forall (fun w => w_position w < 2 ^ 31 - 1)
    (waypoints_of (DrizzleProcedures.a_routeId i) d) ->
  (forall k, (k < 4)%nat -> transport_fails env k = false) ->
  has_waypoint (gen_random_uuid env 3%nat 0%nat) d = false ->
  exists s' row,
    addWaypoint' ctx i env (start d) = (s', Normal (Some row))
    /\ routes (db s') = routes d
    /\ waypoints (db s') = waypoints d ++ [row]
    /\ w_route_id row = DrizzleProcedures.a_routeId i
    /\ w_name row = DrizzleProcedures.a_name i
    /\ within_precision (toString (DrizzleProcedures.a_latitude i))
         (w_latitude row)
    /\ within_precision (toString (DrizzleProcedures.a_longitude i))
         (w_longitude row)
    /\ Forall (fun w => w_position w < w_position row)
         (waypoints_of (DrizzleProcedures.a_routeId i) d)
    /\ forall place,
         select_by_position place (DrizzleProcedures.a_routeId i) (db s')
         = select_by_position place (DrizzleProcedures.a_routeId i) d
             ++ [row].
Proof.
  intros Hctx Huser Huuid Hzlat Hzlng Hlat Hlng (r & Hin & Hid & Hu) _ Hnet
         Hfresh.
  set (id := DrizzleProcedures.a_routeId i) in *.
  destruct (to_decimal_fits 10 90 _ Hlat) as [lat Hl]; [reflexivity|].
  destruct (to_decimal_fits 11 180 _ Hlng) as [lng Hg]; [reflexivity|].
  set (existing := select_by_position (place env 2) id d).
  set (row := {| w_id := gen_random_uuid env 3%nat 0%nat; w_route_id := id;
                 w_position := DrizzleProcedures.nextPosition existing;
                 w_latitude := lat; w_longitude := lng;
                 w_name := DrizzleProcedures.a_name i |}).
  set (d' := {| routes := routes d; waypoints := waypoints d ++ [row] |}).
  assert (Hfound : exists first others,
             filter (owned_route id user) (routes d) = first :: others).
  { assert (Hr : In r (filter (owned_route id user) (routes d)))
      by (apply filter_In; split; [assumption|now apply owned_route_spec]).
    destruct (filter _ (routes d)) as [|first others]; [contradiction|eauto]. }
  destruct Hfound as (first & others & Hfound).
  assert (Habove : Forall (fun w => w_position w < w_position row)
                     (waypoints_of id d)).
  { pose proof (nextPosition_above existing) as Hex.
    rewrite Forall_forall in *. intros w Hw. apply Hex.
    unfold existing.
    apply (Permutation_in _ (Permutation_sym (select_by_position_perm _ _ _))).
    exact Hw. }
  exists {| db := d'; tick := 4; commits := [d'] |}, row.
  split; [|repeat split; try reflexivity; try assumption].
  - unfold DrizzleProcedures.addWaypoint, protectedProcedure, input.
    fold id. rewrite Hctx, Huuid, Hzlat, Hzlng.
    destruct user as [|c user]; [congruence|]. cbn [andb]. cbv beta iota.
    unfold RouteRepository.getRouteWithWaypoints,
      WaypointRepository.getWaypointsByRouteId,
      WaypointRepository.createWaypoint, mbind, query, query_rows, execute,
      ret.
    cbn [start db tick commits].
    rewrite (Hnet 0%nat) by lia. rewrite Hfound.
    cbn [db tick commits]. rewrite (Hnet 1%nat) by lia.
    cbn [db tick commits]. rewrite (Hnet 2%nat) by lia.
    cbn [db tick commits]. fold existing.
    cbn [db tick commits insert_waypoints nw_latitude nw_longitude
           nw_route_id nw_position nw_name].
    rewrite (Hnet 3%nat) by lia. rewrite Hl, Hg. cbn [bind].
    replace (has_route id d) with true
      by (symmetry; apply KeyFacts.has_route_In;
          rewrite <- Hid; now apply in_map).
    cbn [negb]. rewrite Hfresh. reflexivity.
  - now apply to_decimal_within with (precision := 10).
  - now apply to_decimal_within with (precision := 11).
  - intros place. cbn [db]. apply select_by_position_last; [|assumption].
    unfold d'. rewrite waypoints_of_app.
    cbn [filter w_route_id row]. now rewrite String.eqb_refl.
Qed.

(** X20. [addWaypoint] to a route that the caller does not own, or that
    does not exist, throws; no waypoint is stored and nothing is
    committed. *)
Theorem addWaypoint_rejects_foreign_route (ctx : Context)
        (i : DrizzleProcedures.AddWaypointInput) (env : Env) (d : Database) :
  (forall r, In r (routes d) -> r_id r = DrizzleProcedures.a_routeId i ->
             r_user_id r <> userId ctx) ->
  db (fst (addWaypoint' ctx i env (start d))) = d
  /\ commits (fst (addWaypoint' ctx i env (start d))) = []
  /\ exists e, snd (addWaypoint' ctx i env (start d)) = Throw e.
Proof.
  intros Hforeign.
  unfold DrizzleProcedures.addWaypoint, protectedProcedure, input.
  destruct (userId ctx) as [[|c user]|] eqn:Hctx;
    try (repeat split; eexists; reflexivity).
  destruct (_ && _); [|repeat split; eexists; reflexivity].
  unfold RouteRepository.getRouteWithWaypoints, mbind, query.
  cbn [start tick db commits].
  destruct (transport_fails env 0); [repeat split; eexists; reflexivity|].
  rewrite (filter_none (owned_route _ _))
    by (apply filter_owned_none; assumption).
  repeat split. eexists; reflexivity.
Qed.

(** Every element of [Promise.all] is one query: on a healthy connection
    all of them answer, each with a read of the waypoints of its route,
    and nothing is written. *)
Lemma promise_all_waypoints (env : Env) (found : list RouteRow) :
  (forall k, transport_fails env k = false) ->
  forall s,
    exists result,
      DrizzleProcedures.promise_all
        (fun route =>
           let* waypoints :=
             WaypointRepository.getWaypointsByRouteId (r_id route) in
           ret (route, waypoints)) found env s
      = ({| db := db s; tick := tick s + List.length found;
            commits := commits s |}, Normal result)
      /\ map fst result = found
      /\ Forall (fun entry =>
                   exists place,
                     snd entry
                     = select_by_position place (r_id (fst entry)) (db s))
           result.
Proof.
  intros Hnet. induction found as [|route rest IH]; intros s.
  - exists []. cbn [DrizzleProcedures.promise_all List.length map].
    rewrite Nat.add_0_r. split; [now destruct s|]. split; constructor.
  - cbn [DrizzleProcedures.promise_all].
    unfold WaypointRepository.getWaypointsByRouteId at 1.
    rewrite (mbind_normal _ _ _ _ _ _ (query_rows_ok _ env s (Hnet (tick s)))).
    cbn [ret].
    destruct (IH {| db := db s; tick := S (tick s); commits := commits s |})
      as (result & -> & Hfst & Hall).
    cbn [db tick commits bind map List.length] in *.
    eexists. split; [do 2 f_equal; lia|]. cbn [map fst].
    split; [now rewrite Hfst|]. constructor; [|exact Hall].
    cbn [fst snd]. eauto.
Qed.

(** X21. [list] for a signed-in caller on a reachable database returns
    exactly the routes of that caller, newest first, each with exactly its
    stored waypoints in non-decreasing order of position, and writes
    nothing. *)
Theorem list_returns_own_routes_newest_first (ctx : Context) (user : string)
        (env : Env) (d : Database) :
  userId ctx = Some user -> user <> EmptyString ->
  (forall k, transport_fails env k = false) ->
  exists s' result,
    DrizzleProcedures.list ctx env (start d) = (s', Normal result)
    /\ db s' = d /\ commits s' = []
    /\ Permutation (map fst result)
         (filter (fun r => option_string_eqb (r_user_id r) (Some user))
            (routes d))
    /\ newest_first (map fst result)
    /\ Forall (fun entry =>
                 Permutation (snd entry) (waypoints_of (r_id (fst entry)) d)
                 /\ by_position (snd entry))
         result.
Proof.
  intros Hctx Huser Hnet. unfold DrizzleProcedures.list. rewrite Hctx.
  destruct user as [|c user]; [congruence|].
  unfold DrizzleProcedures.getRoutesByUserId.
  rewrite (mbind_normal _ _ _ _ _ _
             (query_rows_ok _ env (start d) (Hnet 0%nat))).
  match goal with
  | |- context [DrizzleProcedures.promise_all ?f ?found env ?s] =>
      destruct (promise_all_waypoints env found Hnet s)
        as (result & -> & Hfst & Hall)
  end.
  cbn [start db tick commits] in *.
  eexists. exists result. split; [reflexivity|]. cbn [db commits].
  split; [reflexivity|]. split; [reflexivity|].
  rewrite Hfst.
  split; [unfold seq_scan;
          now rewrite order_by_created_at_perm, sort_by_perm|].
  split; [apply order_by_created_at_newest_first|].
  eapply Forall_impl; [|exact Hall]. cbv beta. intros entry (place & ->).
  split; [apply select_by_position_perm|apply select_by_position_by_position].
Qed.

(** The values that [create] and [update] build from waypoints on the
    globe fit their columns and reference the route. *)
Lemma waypointsData_fits (route : uuid) (supplied : list WaypointInput) :
  Forall (DrizzleProcedures.on_the_globe toString) supplied ->
  Forall fits (DrizzleRouter.waypointsData toString route supplied)
  /\ Forall (fun v => nw_route_id v = route)
       (DrizzleRouter.waypointsData toString route supplied)
  /\ List.length (DrizzleRouter.waypointsData toString route supplied)
     = List.length supplied.
Proof.
  unfold DrizzleRouter.waypointsData. generalize 0%nat.
  induction supplied as [|wp supplied IH]; intros start Hall; simpl.
  - repeat split; constructor.
  - inversion Hall as [|? ? Hwp Hrest]; subst.
    destruct (IH (S start) Hrest) as (Hf & Hr & Hlen).
    repeat split.
    + constructor; [now apply on_the_globe_fits|assumption].
    + constructor; [reflexivity|assumption].
    + now rewrite Hlen.
Qed.

(** X22. [create] succeeds for waypoints on the globe: for a signed-in
    caller, a non-empty name, finite coordinates that print within
    latitude 90 and longitude 180, a reachable database and generated ids
    that are not in use, [create] returns the new route of the caller and
    has stored one row per supplied waypoint, in order, at positions
    0 .. n-1. *)
Theorem create_succeeds_on_the_globe (ctx : Context) (user : string)
        (i : CreateInput) (env : Env) (d : Database) :
  userId ctx = Some user -> user <> EmptyString ->
  c_name i <> EmptyString ->
  forallb z_waypoint (c_waypoints i) = true ->
  Forall (DrizzleProcedures.on_the_globe toString) (c_waypoints i) ->
  transport_fails env 0 = false -> transport_fails env 1 = false ->
  has_route (gen_random_uuid env 0%nat 0%nat) d = false ->
  NoDup (map (gen_random_uuid env 1%nat)
           (seq 0 (List.length (c_waypoints i)))) ->
  (forall j, (j < List.length (c_waypoints i))%nat ->
             has_waypoint (gen_random_uuid env 1%nat j) d = false) ->
  exists s' route rows,
    create' ctx i env (start d) = (s', Normal route)
    /\ r_user_id route = Some user /\ r_name route = c_name i
    /\ r_description route = c_description i
    /\ routes (db s') = routes d ++ [route]
    /\ waypoints (db s') = waypoints d ++ rows
    /\ stores toString (r_id route) (c_waypoints i) rows.
Proof.
  intros Hctx Huser Hname Hfinite Hglobe Hnet0 Hnet1 Hid Hnd Hfresh.
  set (route := {| r_id := gen_random_uuid env 0%nat 0%nat;
                   r_user_id := Some user; r_name := c_name i;
                   r_description := c_description i;
                   r_created_at := now env; r_updated_at := now env |}).
  set (d1 := {| routes := routes d ++ [route]; waypoints := waypoints d |}).
  assert (Hroute : RouteRepository.createRoute user (c_name i)
                     (c_description i) env (start d)
                   = ({| db := d1; tick := 1; commits := [d1] |}, Normal route)).
  { unfold RouteRepository.createRoute.
    apply (execute_ok _ env (start d) d1 route Hnet0).
    cbn [start db tick]. unfold insert_route. now rewrite Hid. }
  unfold DrizzleRouter.create, protectedProcedure, input. rewrite Hctx.
  destruct user as [|c user]; [congruence|].
  replace (negb (String.eqb (c_name i) EmptyString)) with true
    by (symmetry; apply Bool.negb_true_iff, String.eqb_neq; assumption).
  rewrite Hfinite. cbn [andb].
  rewrite (mbind_normal _ _ _ _ _ _ Hroute).
  destruct (c_waypoints i) as [|wp rest] eqn:Hwps.
  - exists {| db := d1; tick := 1; commits := [d1] |}, route, [].
    split; [reflexivity|]. cbn [db d1 routes waypoints].
    rewrite app_nil_r. repeat split; constructor.
  - rewrite <- Hwps in *.
    destruct (waypointsData_fits (r_id route) (c_waypoints i) Hglobe)
      as (Hfits & Hrefs & Hlen).
    destruct (insert_waypoints_succeeds (gen_random_uuid env 1%nat)
                (DrizzleRouter.waypointsData toString (r_id route)
                   (c_waypoints i)) 0 d1)
      as (d2 & rows & Hins).
    + assumption.
    + eapply Forall_impl; [|exact Hrefs]. cbv beta. intros v ->.
      apply KeyFacts.has_route_In. cbn [d1 routes]. rewrite map_app.
      apply in_or_app. right. now left.
    + now rewrite Hlen.
    + rewrite Hlen. intros k Hk. unfold has_waypoint. cbn [d1 waypoints].
      apply Hfresh. lia.
    + destruct (insert_waypoints_spec _ _ _ _ _ _ Hins) as (Hr & Hw & Hrows).
      exists {| db := d2; tick := 2; commits := [d1; d2] |}, route, rows.
      split.
      * unfold WaypointRepository.createWaypoints.
        destruct (DrizzleRouter.waypointsData toString (r_id route)
                    (c_waypoints i)) as [|v vs] eqn:Hdata.
        { rewrite Hwps in Hlen. discriminate. }
        rewrite <- Hdata in *.
        unfold mbind, execute. cbn [db tick commits].
        rewrite Hnet1, Hins. reflexivity.
      * cbn [db]. split; [reflexivity|]. split; [reflexivity|].
        split; [reflexivity|]. split; [exact Hr|]. split; [exact Hw|].
        now apply stored_rows_store.
Qed.

End Procedures.

(** *** The theorems on the sample data *)

Lemma sample_db_unique_routes : NoDup (map r_id (routes sample_db)).
Proof. repeat constructor. simpl. tauto. Qed.

Lemma delete_removes_route_and_waypoints_witness :
  exists s',
    DrizzleRouter.delete any_text as_alice route_1 quiet_env (start sample_db)
    = (s', Normal tt)
    /\ commits s' = [db s']
    /\ has_route route_1 (db s') = false
    /\ waypoints_of route_1 (db s') = []
    /\ (forall x, In x (routes (db s'))
                  <-> In x (routes sample_db) /\ r_id x <> route_1)
    /\ (forall other, other <> route_1 ->
                      waypoints_of other (db s') = waypoints_of other sample_db).
Proof.
  apply (delete_removes_route_and_waypoints any_text as_alice alice route_1
           quiet_env sample_db).
  - reflexivity.
  - discriminate.
  - reflexivity.
  - reflexivity.
  - repeat constructor. simpl. tauto.
  - exists alices_route. simpl. auto.
Defined.

Lemma delete_rejects_foreign_route_witness :
  db (fst (DrizzleRouter.delete any_text as_bob route_1 quiet_env
             (start sample_db))) = sample_db
  /\ (exists e, snd (DrizzleRouter.delete any_text as_bob route_1 quiet_env
                       (start sample_db)) = Throw e)
  /\ (forall c user,
        userId as_bob = Some (String c user) -> any_text route_1 = true ->
        transport_fails quiet_env 0 = false ->
        snd (DrizzleRouter.delete any_text as_bob route_1 quiet_env
               (start sample_db))
        = Throw (Error "Unauthorized: You can only delete your own routes")).
Proof.
  apply (delete_rejects_foreign_route any_text as_bob route_1 quiet_env
           sample_db).
  simpl. intros r [<-|[]] _. discriminate.
Defined.

Lemma update_metadata_then_get_witness :
  exists s' s2 rows2,
    DrizzleRouter.update exact_text any_text as_alice Scenarios.rename_only
      quiet_env (start sample_db) = (s', Normal tt)
    /\ waypoints (db s') = waypoints sample_db
    /\ DrizzleRouter.get any_text as_alice route_1 shuffling_env
         (start (db s'))
       = (s2, Normal ({| r_id := route_1; r_user_id := Some alice;
                         r_name := "Shore"; r_description := None;
                         r_created_at := 1; r_updated_at := 2 |}, rows2))
    /\ Permutation rows2 alices_waypoints
    /\ DrizzleProcedures.by_position rows2
    /\ (NoDup (map w_position alices_waypoints) -> rows2 = alices_waypoints)
    /\ ((forall w, place shuffling_env 1 w = place quiet_env 1 w) ->
        rows2 = alices_waypoints).
Proof.
  apply (update_metadata_then_get exact_text any_text as_alice route_1
           (Some "Shore"%string) None quiet_env quiet_env shuffling_env
           sample_db {| db := sample_db; tick := 2; commits := [] |}
           alices_route alices_waypoints).
  - left. discriminate.
  - reflexivity.
  - reflexivity.
  - reflexivity.
  - reflexivity.
Defined.

Lemma update_rejects_foreign_metadata_witness :
  db (fst (DrizzleRouter.update exact_text any_text as_bob
             Scenarios.rename_only quiet_env (start sample_db))) = sample_db
  /\ Forall (eq sample_db)
       (commits (fst (DrizzleRouter.update exact_text any_text as_bob
                        Scenarios.rename_only quiet_env (start sample_db))))
  /\ exists e,
       snd (DrizzleRouter.update exact_text any_text as_bob
              Scenarios.rename_only quiet_env (start sample_db)) = Throw e.
Proof.
  apply (update_rejects_foreign_metadata exact_text any_text as_bob
           Scenarios.rename_only quiet_env sample_db).
  - left. discriminate.
  - simpl. intros r [<-|[]] _. discriminate.
Defined.

Lemma addWaypoint_appends_last_witness :
  exists s' row,
    DrizzleProcedures.addWaypoint exact_text any_text as_alice Scenarios.a_stop
      quiet_env (start sample_db) = (s', Normal (Some row))
    /\ routes (db s') = routes sample_db
    /\ waypoints (db s') = waypoints sample_db ++ [row]
    /\ w_route_id row = route_1
    /\ w_name row = Some "Lunch"%string
    /\ within_precision (exact_text (of_Z 42)) (w_latitude row)
    /\ within_precision (exact_text (of_Z (-72))) (w_longitude row)
    /\ Forall (fun w => w_position w < w_position row)
         (waypoints_of route_1 sample_db)
    /\ forall place,
         select_by_position place route_1 (db s')
         = select_by_position place route_1 sample_db ++ [row].
Proof.
  apply (addWaypoint_appends_last exact_text any_text as_alice alice
           Scenarios.a_stop quiet_env sample_db).
  - reflexivity.
  - discriminate.
  - reflexivity.
  - reflexivity.
  - reflexivity.
  - vm_compute. discriminate.
  - vm_compute. discriminate.
  - exists alices_route. simpl. auto.
  - repeat constructor.
  - reflexivity.
  - reflexivity.
Defined.

Lemma addWaypoint_rejects_foreign_route_witness :
  db (fst (DrizzleProcedures.addWaypoint exact_text any_text as_bob
             Scenarios.a_stop quiet_env (start sample_db))) = sample_db
  /\ commits (fst (DrizzleProcedures.addWaypoint exact_text any_text as_bob
                     Scenarios.a_stop quiet_env (start sample_db))) = []
  /\ exists e,
       snd (DrizzleProcedures.addWaypoint exact_text any_text as_bob
              Scenarios.a_stop quiet_env (start sample_db)) = Throw e.
Proof.
  apply (addWaypoint_rejects_foreign_route exact_text any_text as_bob
           Scenarios.a_stop quiet_env sample_db).
  simpl. intros r [<-|[]] _. discriminate.
Defined.

Lemma get_returns_only_own_route_witness :
  r_id alices_route = route_1 /\ r_user_id alices_route = userId as_alice
  /\ In alices_route (routes sample_db)
  /\ Permutation alices_waypoints (waypoints_of route_1 sample_db)
  /\ DrizzleProcedures.by_position alices_waypoints
  /\ sample_db = sample_db /\ @nil Database = [].
Proof.
  apply (get_returns_only_own_route any_text as_alice route_1 quiet_env
           (start sample_db) {| db := sample_db; tick := 2; commits := [] |}
           alices_route alices_waypoints).
  reflexivity.
Defined.

Lemma signed_out_reaches_no_statement_witness :
  fst (DrizzleProcedures.serve exact_text any_text Scenarios.signed_out
         (DrizzleProcedures.Delete route_1) quiet_env (start sample_db))
  = start sample_db
  /\ (DrizzleProcedures.is_protected (DrizzleProcedures.Delete route_1) = true ->
      snd (DrizzleProcedures.serve exact_text any_text Scenarios.signed_out
             (DrizzleProcedures.Delete route_1) quiet_env (start sample_db))
      = Throw (TRPCError "UNAUTHORIZED"
                 "You must be signed in to perform this action"))
  /\ (DrizzleProcedures.Delete route_1 = DrizzleProcedures.List ->
      snd (DrizzleProcedures.serve exact_text any_text Scenarios.signed_out
             (DrizzleProcedures.Delete route_1) quiet_env (start sample_db))
      = Normal (DrizzleProcedures.Routes []))
  /\ (forall id, DrizzleProcedures.Delete route_1 = DrizzleProcedures.Get id ->
                 exists e,
                   snd (DrizzleProcedures.serve exact_text any_text
                          Scenarios.signed_out
                          (DrizzleProcedures.Delete route_1) quiet_env
                          (start sample_db)) = Throw e).
Proof.
  apply (signed_out_reaches_no_statement exact_text any_text
           Scenarios.signed_out (DrizzleProcedures.Delete route_1) quiet_env
           (start sample_db)).
  left. reflexivity.
Defined.

Lemma list_returns_own_routes_newest_first_witness :
  exists s' result,
    DrizzleProcedures.list as_alice quiet_env (start sample_db)
    = (s', Normal result)
    /\ db s' = sample_db /\ commits s' = []
    /\ Permutation (map fst result)
         (filter (fun r => option_string_eqb (r_user_id r) (Some alice))
            (routes sample_db))
    /\ DrizzleProcedures.newest_first (map fst result)
    /\ Forall (fun entry =>
                 Permutation (snd entry)
                   (waypoints_of (r_id (fst entry)) sample_db)
                 /\ DrizzleProcedures.by_position (snd entry))
         result.
Proof.
  apply (list_returns_own_routes_newest_first as_alice alice quiet_env
           sample_db).
  - reflexivity.
  - discriminate.
  - reflexivity.
Defined.

Lemma create_succeeds_on_the_globe_witness :
  exists s' route rows,
    DrizzleRouter.create exact_text as_alice trip quiet_env (start sample_db)
    = (s', Normal route)
    /\ r_user_id route = Some alice /\ r_name route = c_name trip
    /\ r_description route = c_description trip
    /\ routes (db s') = routes sample_db ++ [route]
    /\ waypoints (db s') = waypoints sample_db ++ rows
    /\ stores exact_text (r_id route) (c_waypoints trip) rows.
Proof.
  apply (create_succeeds_on_the_globe exact_text as_alice alice trip quiet_env
           sample_db).
  - reflexivity.
  - discriminate.
  - discriminate.
  - reflexivity.
  - repeat constructor; vm_compute; discriminate.
  - reflexivity.
  - reflexivity.
  - reflexivity.
  - repeat constructor; simpl; intuition discriminate.
  - intros j Hj. simpl in Hj.
    destruct j as [|[|j]]; [reflexivity|reflexivity|lia].
Defined.

End ProcedureFacts.
(** ** Positions stay distinct within a route *)

Module NumberingFacts.
Import JS Storage Trpc Persisted StorageFacts KeyFacts.

Abbreviation distinct_positions := DrizzleProcedures.distinct_positions.
Abbreviation well_numbered := DrizzleProcedures.well_numbered.
Abbreviation keeps_numbering := DrizzleProcedures.keeps_numbering.
(** No condition on the database, no promise about the value. *)
Abbreviation keeps c := (keeps_numbering (fun _ => True) c (fun _ _ => True)).

(** *** Statements *)

Lemma filter_swap {A} (p q : A -> bool) (l : list A) :
  filter p (filter q l) = filter q (filter p l).
Proof.
  induction l as [|x l IH]; simpl; [reflexivity|].
  destruct (p x) eqn:Hp, (q x) eqn:Hq; simpl; rewrite ?Hp, ?Hq, IH; reflexivity.
Qed.

(** Taking rows out of the waypoints table leaves the positions
    distinct. *)
Lemma distinct_after_filter (keep : WaypointRow -> bool) (r : list RouteRow)
      (d : Database) :
  distinct_positions d ->
  distinct_positions {| routes := r; waypoints := filter keep (waypoints d) |}.
Proof.
  intros Hd route. unfold waypoints_of. cbn [waypoints].
  rewrite filter_swap. apply NoDup_map_filter. apply Hd.
Qed.

Lemma distinct_same_waypoints (d d' : Database) :
  waypoints d' = waypoints d -> distinct_positions d -> distinct_positions d'.
Proof. intros Hw Hd route. unfold waypoints_of. rewrite Hw. apply Hd. Qed.

(** Rows of one route that come on top of the table. *)
Lemma waypoints_of_added (route id : uuid) (d d' : Database)
      (rows : list WaypointRow) :
  waypoints d' = waypoints d ++ rows ->
  Forall (fun row => w_route_id row = id) rows ->
  waypoints_of route d'
  = waypoints_of route d ++ (if String.eqb id route then rows else []).
Proof.
  intros Hw Hrows. unfold waypoints_of. rewrite Hw, filter_app. f_equal.
  destruct (String.eqb_spec id route) as [<-|Hne].
  - apply filter_all. eapply Forall_impl; [|exact Hrows].
    intros row ->. apply String.eqb_refl.
  - apply filter_none. eapply Forall_impl; [|exact Hrows].
    intros row ->. now apply String.eqb_neq.
Qed.

Lemma insert_route_ri (id : uuid) (t : N) (user : option string) (n : string)
      (dsc : option string) (d d' : Database) (row : RouteRow) :
  insert_route id t user n dsc d = Normal (d', row) ->
  referential_integrity d -> referential_integrity d'.
Proof.
  unfold insert_route. destruct (has_route id d); [discriminate|].
  intros [= <- _] Hri. unfold referential_integrity in *. cbn [waypoints].
  eapply Forall_impl; [|exact Hri]. intros w Hhas.
  unfold has_route in *. cbn [routes]. rewrite existsb_app, Hhas. reflexivity.
Qed.

(** The foreign key is checked row by row. *)
Lemma insert_waypoints_ri (gen : nat -> uuid) (values : list NewWaypoint) :
  forall (j : nat) (d d' : Database) (rows : list WaypointRow),
    insert_waypoints gen j values d = Normal (d', rows) ->
    referential_integrity d -> referential_integrity d'.
Proof.
  induction values as [|v values IH]; intros j d d' rows; simpl.
  - intros [= <- _]. auto.
  - destruct (to_decimal 10 (nw_latitude v)) as [lat|]; [|discriminate].
    destruct (to_decimal 11 (nw_longitude v)) as [lng|]; [|discriminate].
    cbn [bind].
    destruct (has_route (nw_route_id v) d) eqn:Hfk; [|discriminate].
    cbn [negb].
    destruct (has_waypoint (gen j) d); [discriminate|].
    destruct (insert_waypoints gen (S j) values _) as [[d2 rest]|] eqn:Hrest;
      [|discriminate].
    cbn [bind fst snd]. intros [= <- _] Hri.
    apply (IH _ _ _ _ Hrest). unfold referential_integrity in *.
    cbn [waypoints]. apply Forall_app. split.
    + eapply Forall_impl; [|exact Hri]. intros w Hhas. exact Hhas.
    + repeat constructor. exact Hfk.
Qed.

Lemma delete_waypoints_numbered (cond : WaypointRow -> bool) (d : Database) :
  well_numbered d -> well_numbered (fst (delete_waypoints cond d)).
Proof.
  intros [Hri Hd]. split; cbn [delete_waypoints fst].
  - unfold referential_integrity in *. cbn [waypoints].
    rewrite Forall_forall in *. intros w Hin. apply filter_In in Hin.
    exact (Hri w (proj1 Hin)).
  - now apply distinct_after_filter.
Qed.

(** ON DELETE CASCADE is what keeps the reference when a route goes. *)
Lemma delete_routes_numbered (cond : RouteRow -> bool) (d : Database) :
  well_numbered d -> well_numbered (fst (delete_routes cond d)).
Proof.
  intros [Hri Hd]. unfold delete_routes. cbv zeta. split; cbn [fst].
  - unfold referential_integrity in *. cbn [waypoints].
    rewrite Forall_forall in *. intros w Hin. apply filter_In in Hin.
    destruct Hin as [Hin Hkept]. specialize (Hri w Hin).
    unfold has_route in *. cbn [routes].
    apply existsb_exists in Hri. destruct Hri as (r & Hrin & Hid).
    apply existsb_exists. exists r. split; [|assumption].
    apply filter_In. split; [assumption|].
    destruct (cond r) eqn:Hc; [|reflexivity]. exfalso.
    apply Bool.negb_true_iff in Hkept.
    assert (Hgone : existsb (fun r0 => String.eqb (r_id r0) (w_route_id w))
                      (filter cond (routes d)) = true).
    { apply existsb_exists. exists r. split; [|assumption].
      apply filter_In. auto. }
    congruence.
  - now apply distinct_after_filter.
Qed.

Lemma update_routes_numbered (cond : RouteRow -> bool)
      (assign : RouteRow -> RouteRow) (d : Database) :
  (forall r, r_id (assign r) = r_id r) ->
  well_numbered d -> well_numbered (fst (update_routes cond assign d)).
Proof.
  intros Hid [Hri Hd].
  assert (Hids : map r_id (map (fun r => if cond r then assign r else r)
                             (routes d)) = map r_id (routes d)).
  { rewrite map_map. apply map_ext. intros r.
    destruct (cond r); [apply Hid|reflexivity]. }
  split; cbn [update_routes fst].
  - unfold referential_integrity in *. cbn [waypoints].
    eapply Forall_impl; [|exact Hri]. intros w Hhas.
    apply has_route_In. cbn [routes]. rewrite Hids.
    now apply has_route_In.
  - now apply (distinct_same_waypoints d).
Qed.

(** A new route has no waypoints yet. *)
Lemma insert_route_numbered (id : uuid) (t : N) (user : option string)
      (n : string) (dsc : option string) (d d' : Database) (row : RouteRow) :
  insert_route id t user n dsc d = Normal (d', row) ->
  well_numbered d ->
  well_numbered d' /\ waypoints_of (r_id row) d' = [].
Proof.
  intros Hins [Hri Hd]. pose proof (insert_route_ri _ _ _ _ _ _ _ _ Hins Hri).
  unfold insert_route in Hins.
  destruct (has_route id d) eqn:Hfresh; [discriminate|].
  injection Hins as <- <-. split; [split|].
  - assumption.
  - now apply (distinct_same_waypoints d).
  - cbn [r_id]. now apply (fresh_route_has_no_waypoints id d).
Qed.

Lemma NoDup_indices (start n : nat) : NoDup (map Z.of_nat (seq start n)).
Proof.
  apply Finite.Injective_map_NoDup; [|apply seq_NoDup].
  intros a b. apply Nat2Z.inj.
Qed.

Section Numbering.

Variable toString : number -> Q.
Variable is_uuid : string -> bool.

(** The rows of [create] and of [update] carry their array indices: on a
    route without waypoints they are distinct. *)
Lemma insert_indexed_numbered (gen : nat -> uuid) (j : nat) (id : uuid)
      (supplied : list WaypointInput) (d d' : Database)
      (rows : list WaypointRow) :
  insert_waypoints gen j (DrizzleRouter.waypointsData toString id supplied) d
  = Normal (d', rows) ->
  waypoints_of id d = [] -> well_numbered d -> well_numbered d'.
Proof.
  intros Hins Hnone [Hri Hd].
  split; [exact (insert_waypoints_ri _ _ _ _ _ _ Hins Hri)|].
  destruct (insert_waypoints_spec _ _ _ _ _ _ Hins) as (_ & Hw & Hrows).
  destruct (stored_rows_store toString _ _ _ Hrows) as (_ & Hpos & Hroute).
  intros route. rewrite (waypoints_of_added route id d d' rows Hw Hroute).
  destruct (String.eqb_spec id route) as [<-|_].
  - rewrite Hnone. cbn [app]. rewrite Hpos. apply NoDup_indices.
  - rewrite app_nil_r. apply Hd.
Qed.

(** The row of [addWaypoint] is numbered above the rows that were read. *)
Lemma insert_next_numbered (gen : nat -> uuid) (j : nat) (id : uuid)
      (lat lng : Q) (n : option string) (existing : list WaypointRow)
      (d d' : Database) (rows : list WaypointRow) :
  insert_waypoints gen j
    [{| nw_route_id := id; nw_latitude := lat; nw_longitude := lng;
        nw_name := n;
        nw_position := DrizzleProcedures.nextPosition existing |}] d
  = Normal (d', rows) ->
  Permutation existing (waypoints_of id d) ->
  well_numbered d -> well_numbered d'.
Proof.
  intros Hins Hread [Hri Hd].
  split; [exact (insert_waypoints_ri _ _ _ _ _ _ Hins Hri)|].
  destruct (insert_waypoints_spec _ _ _ _ _ _ Hins) as (_ & Hw & Hrows).
  inversion Hrows as [|v row vs rest Hrow Hrest]; subst.
  inversion Hrest; subst.
  destruct Hrow as (Hroute & Hpos & _). cbn [nw_route_id nw_position] in *.
  intros route.
  rewrite (waypoints_of_added route id d d' [row] Hw)
    by (constructor; [assumption|constructor]).
  destruct (String.eqb_spec id route) as [<-|_].
  - rewrite map_app. cbn [map]. apply NoDup_snoc; [apply Hd|].
    intros Hin. apply in_map_iff in Hin. destruct Hin as (w & Hsame & Hw').
    pose proof (ProcedureFacts.nextPosition_above existing) as Habove.
    rewrite Forall_forall in Habove.
    assert (Hlt : w_position w < DrizzleProcedures.nextPosition existing).
    { apply Habove. apply (Permutation_in _ (Permutation_sym Hread)).
      exact Hw'. }
    lia.
  - rewrite app_nil_r. apply Hd.
Qed.

(** *** The request monad *)

Lemma kn_weaken {A} (pre pre' : Database -> Prop) (c : M A)
      (post post' : A -> Database -> Prop) :
  (forall d, pre' d -> pre d) -> (forall a d, post a d -> post' a d) ->
  keeps_numbering pre c post -> keeps_numbering pre' c post'.
Proof.
  intros Hpre Hpost Hc env s Hp Hd Hcs.
  destruct (Hc env s (Hpre _ Hp) Hd Hcs) as (H1 & H2 & H3). auto.
Qed.

(** The promise about the value is dropped. *)
Lemma kn_forget {A} (pre : Database -> Prop) (c : M A)
      (post : A -> Database -> Prop) :
  keeps_numbering pre c post -> keeps_numbering pre c (fun _ _ => True).
Proof. apply kn_weaken; auto. Qed.

Lemma kn_done {A} (pre : Database -> Prop) (a : A) :
  keeps_numbering pre (ret a) (fun _ _ => True).
Proof. intros env s Hp Hd Hcs. cbn [ret fst snd]. auto. Qed.

Lemma kn_throw {A} (pre : Database -> Prop) (e : exn)
      (post : A -> Database -> Prop) :
  keeps_numbering pre (@throw A e) post.
Proof.
  intros env s Hp Hd Hcs. cbn [throw fst snd].
  split; [assumption|]. split; [assumption|]. discriminate.
Qed.

Lemma kn_bind {A B} (pre : Database -> Prop) (c : M A)
      (mid : A -> Database -> Prop) (k : A -> M B)
      (post : B -> Database -> Prop) :
  keeps_numbering pre c mid ->
  (forall a, keeps_numbering (mid a) (k a) post) ->
  keeps_numbering pre (mbind c k) post.
Proof.
  intros Hc Hk env s Hp Hd Hcs. unfold mbind.
  destruct (Hc env s Hp Hd Hcs) as (H1 & H2 & H3).
  destruct (c env s) as [s' [a|e]]; cbn [fst snd] in *.
  - apply Hk; auto.
  - split; [assumption|]. split; [assumption|]. discriminate.
Qed.

(** A read leaves the database as it is. *)
Lemma kn_query {A} (pre : Database -> Prop) (select : Database -> A) :
  keeps_numbering pre (query select) (fun _ d => pre d).
Proof.
  intros env s Hp Hd Hcs. unfold query.
  destruct (transport_fails env (tick s)); cbn [fst snd db commits]; auto.
Qed.

Lemma kn_query_rows {A} (pre : Database -> Prop)
      (select : (uuid -> Z) -> Database -> A) :
  keeps_numbering pre (query_rows select)
    (fun a d => pre d /\ exists place, a = select place d).
Proof.
  intros env s Hp Hd Hcs. unfold query_rows.
  destruct (transport_fails env (tick s)); cbn [fst snd db commits].
  - split; [assumption|]. split; [assumption|]. discriminate.
  - split; [assumption|]. split; [assumption|].
    intros a [= <-]. split; [assumption|]. now exists (place env (tick s)).
Qed.

(** A write that goes through commits the state it leaves. *)
Lemma kn_execute {A} (pre : Database -> Prop)
      (statement : Env -> nat -> Database -> completion (Database * A))
      (post : A -> Database -> Prop) :
  (forall env k d d' a,
      statement env k d = Normal (d', a) -> pre d -> well_numbered d ->
      well_numbered d' /\ post a d') ->
  keeps_numbering pre (execute statement) post.
Proof.
  intros Hst env s Hp Hd Hcs. unfold execute.
  destruct (transport_fails env (tick s)); cbn [fst snd db commits].
  - split; [assumption|]. split; [assumption|]. discriminate.
  - destruct (statement env (tick s) (db s)) as [[d' a]|e] eqn:Hrun;
      cbn [fst snd db commits].
    + destruct (Hst _ _ _ _ _ Hrun Hp Hd) as [Hd' Hpost].
      split; [assumption|]. split.
      * apply Forall_app. auto.
      * now intros a' [= <-].
    + split; [assumption|]. split; [assumption|]. discriminate.
Qed.

(** Inside a transaction nothing is published; the one state that COMMIT
    publishes is the one the body has left. *)
Lemma kn_transaction {A} (pre : Database -> Prop) (body : M A)
      (post : A -> Database -> Prop) :
  keeps_numbering pre body post -> keeps_numbering pre (transaction body) post.
Proof.
  intros Hb env s Hp Hd Hcs. unfold transaction.
  destruct (Hb env {| db := db s; tick := tick s; commits := [] |} Hp Hd
               (Forall_nil _)) as (H1 & H2 & H3).
  destruct (body env _) as [s' [a|e]]; cbn [fst snd] in *.
  - destruct (transport_fails env (tick s')); cbn [fst snd db commits].
    + split; [assumption|]. split; [assumption|]. discriminate.
    + split; [assumption|]. split.
      * apply Forall_app. auto.
      * intros a' [= <-]. now apply H3.
  - split; [assumption|]. split; [assumption|]. discriminate.
Qed.

Lemma kn_input {A} (pre : Database -> Prop) (valid : bool) (c : M A)
      (post : A -> Database -> Prop) :
  keeps_numbering pre c post -> keeps_numbering pre (input valid c) post.
Proof. intros Hc. unfold input. destruct valid; [assumption|apply kn_throw]. Qed.

Lemma kn_protected {A} (pre : Database -> Prop) (ctx : Context)
      (resolver : string -> M A) (post : A -> Database -> Prop) :
  (forall user, keeps_numbering pre (resolver user) post) ->
  keeps_numbering pre (protectedProcedure ctx resolver) post.
Proof.
  intros Hr. unfold protectedProcedure.
  destruct (userId ctx) as [[|c u]|]; try apply kn_throw. apply Hr.
Qed.

Lemma kn_promise_all {A B} (f : A -> M B) (items : list A) :
  (forall a, keeps (f a)) -> keeps (DrizzleProcedures.promise_all f items).
Proof.
  intros Hf. induction items as [|item rest IH]; intros env s Hp Hd Hcs; simpl.
  - auto.
  - destruct (Hf item env s I Hd Hcs) as (H1 & H2 & _).
    destruct (f item env s) as [s1 first]. cbn [fst] in *.
    destruct (IH env s1 I H1 H2) as (H3 & H4 & _).
    destruct (DrizzleProcedures.promise_all f rest env s1) as [s2 others].
    cbn [fst snd] in *. auto.
Qed.

(** *** The repositories *)

Lemma kn_createRoute (user n : string) (dsc : option string) :
  keeps_numbering (fun _ => True) (RouteRepository.createRoute user n dsc)
    (fun route d => waypoints_of (r_id route) d = []).
Proof.
  apply kn_execute. intros env k d d' row Hins _ Hd.
  exact (insert_route_numbered _ _ _ _ _ _ _ _ Hins Hd).
Qed.

Lemma kn_getRouteWithWaypoints (id : uuid) (user : string) :
  keeps (RouteRepository.getRouteWithWaypoints id user).
Proof.
  unfold RouteRepository.getRouteWithWaypoints.
  eapply kn_bind; [apply kn_query|].
  intros [|route rest]; [apply kn_done|].
  eapply kn_bind; [apply kn_query_rows|].
  intros rows. apply kn_done.
Qed.

Lemma kn_getWaypointsByRouteId (id : uuid) :
  keeps_numbering (fun _ => True) (WaypointRepository.getWaypointsByRouteId id)
    (fun rows d => Permutation rows (waypoints_of id d)).
Proof.
  unfold WaypointRepository.getWaypointsByRouteId.
  apply kn_weaken with (pre := fun _ => True)
                       (post := fun rows d =>
                                  True /\ exists place,
                                      rows = select_by_position place id d);
    [auto| |apply kn_query_rows].
  intros rows d (_ & place & ->). apply select_by_position_perm.
Qed.

Lemma kn_updateRoute (id : uuid) (user : string) (n dsc : option string) :
  keeps (RouteRepository.updateRoute id user n dsc).
Proof.
  unfold RouteRepository.updateRoute.
  eapply kn_bind with (mid := fun _ _ => True);
    [|intros a; apply kn_done].
  apply kn_execute. intros env k d d' rows [= <- _] _ Hd.
  split; [|exact I]. now apply update_routes_numbered.
Qed.

Lemma kn_deleteRoute (id : uuid) (user : string) :
  keeps (RouteRepository.deleteRoute id user).
Proof.
  unfold RouteRepository.deleteRoute.
  eapply kn_bind with (mid := fun _ _ => True);
    [|intros a; apply kn_done].
  apply kn_execute. intros env k d d' rows [= <- _] _ Hd.
  split; [|exact I]. now apply delete_routes_numbered.
Qed.

Lemma kn_deleteWaypoint (id : uuid) :
  keeps (WaypointRepository.deleteWaypoint id).
Proof.
  unfold WaypointRepository.deleteWaypoint.
  eapply kn_bind with (mid := fun _ _ => True);
    [|intros a; apply kn_done].
  apply kn_execute. intros env k d d' rows [= <- _] _ Hd.
  split; [|exact I]. now apply delete_waypoints_numbered.
Qed.

(** [createWaypoints] with the rows of [create], on a route that has no
    waypoints. *)
Lemma kn_createWaypoints (id : uuid) (supplied : list WaypointInput) :
  keeps_numbering (fun d => waypoints_of id d = [])
    (WaypointRepository.createWaypoints
       (DrizzleRouter.waypointsData toString id supplied))
    (fun _ _ => True).
Proof.
  unfold WaypointRepository.createWaypoints.
  destruct (DrizzleRouter.waypointsData toString id supplied) eqn:Hdata.
  - apply kn_done.
  - rewrite <- Hdata. apply kn_execute. intros env k d d' rows Hins Hnone Hd.
    split; [|exact I]. exact (insert_indexed_numbered _ _ _ _ _ _ _ Hins Hnone Hd).
Qed.

(** [replaceWaypoints] with the rows of [update]: the delete leaves the
    route without waypoints, the insert numbers the new ones. *)
Lemma kn_replaceWaypoints (id : uuid) (supplied : list WaypointInput) :
  keeps (WaypointRepository.replaceWaypoints id
           (DrizzleRouter.waypointsData toString id supplied)).
Proof.
  unfold WaypointRepository.replaceWaypoints. apply kn_transaction.
  eapply kn_bind with (mid := fun _ d => waypoints_of id d = []).
  - apply kn_execute. intros env k d d' rows [= <- _] _ Hd.
    split; [now apply delete_waypoints_numbered|].
    unfold waypoints_of. cbn [delete_waypoints fst waypoints].
    rewrite filter_swap. apply filter_none. apply Forall_forall.
    intros w Hw. apply filter_In in Hw. destruct Hw as [_ Hw].
    now rewrite Hw.
  - intros _.
    destruct (DrizzleRouter.waypointsData toString id supplied) eqn:Hdata.
    + apply kn_done.
    + rewrite <- Hdata.
      eapply kn_bind with (mid := fun _ _ => True);
    [|intros a; apply kn_done].
      apply kn_execute. intros env k d d' rows Hins Hnone Hd.
      split; [|exact I].
      exact (insert_indexed_numbered _ _ _ _ _ _ _ Hins Hnone Hd).
Qed.

(** *** The procedures *)

Abbreviation serve' := (DrizzleProcedures.serve toString is_uuid).
Abbreviation serve_all' := (DrizzleProcedures.serve_all toString is_uuid).

Lemma kn_create (ctx : Context) (i : CreateInput) :
  keeps (DrizzleRouter.create toString ctx i).
Proof.
  unfold DrizzleRouter.create. apply kn_protected. intros user.
  apply kn_input. eapply kn_bind; [apply kn_createRoute|]. intros route.
  eapply kn_bind with (mid := fun _ _ => True);
    [|intros a; apply kn_done].
  destruct (c_waypoints i) as [|wp rest] eqn:Hws.
  - apply kn_done.
  - rewrite <- Hws.
    eapply kn_bind; [apply kn_createWaypoints|].
    intros a. apply kn_done.
Qed.

Lemma kn_get (ctx : Context) (id : uuid) :
  keeps (DrizzleRouter.get is_uuid ctx id).
Proof.
  unfold DrizzleRouter.get. apply kn_input.
  destruct (userId ctx) as [[|c u]|]; try apply kn_throw.
  eapply kn_bind; [apply kn_getRouteWithWaypoints|].
  intros [r|]; [apply kn_done|apply kn_throw].
Qed.

Lemma kn_update (ctx : Context) (i : UpdateInput) :
  keeps (DrizzleRouter.update toString is_uuid ctx i).
Proof.
  unfold DrizzleRouter.update. apply kn_protected. intros user.
  apply kn_input. eapply kn_bind with (mid := fun _ _ => True).
  - assert (Hmeta : keeps
                      (let* updated :=
                         RouteRepository.updateRoute (u_id i) user (u_name i)
                           (u_description i) in
                       match updated with
                       | None =>
                           throw (Error "Unauthorized: You can only update your own routes")
                       | Some _ => ret tt
                       end)).
    { eapply kn_bind; [apply kn_updateRoute|].
      intros [r|]; [apply kn_done|apply kn_throw]. }
    destruct (u_name i), (u_description i); try exact Hmeta.
    apply kn_done.
  - intros _. eapply kn_bind with (mid := fun _ _ => True);
    [|intros a; apply kn_done].
    destruct (u_waypoints i) as [ws|];
      [apply kn_replaceWaypoints|apply kn_done].
Qed.

Lemma kn_delete (ctx : Context) (id : uuid) :
  keeps (DrizzleRouter.delete is_uuid ctx id).
Proof.
  unfold DrizzleRouter.delete. apply kn_protected. intros user.
  apply kn_input. eapply kn_bind; [apply kn_deleteRoute|].
  intros [r|]; [apply kn_done|apply kn_throw].
Qed.

Lemma kn_removeWaypoint (ctx : Context) (id : uuid) :
  keeps (DrizzleRouter.removeWaypoint is_uuid ctx id).
Proof.
  unfold DrizzleRouter.removeWaypoint. apply kn_protected. intros user.
  apply kn_input. eapply kn_bind; [apply kn_deleteWaypoint|].
  intros [r|]; [apply kn_done|apply kn_throw].
Qed.

(** [addWaypoint] reads the waypoints of the route and numbers the new
    one above the largest position it has read. *)
Lemma kn_addWaypoint (ctx : Context) (i : DrizzleProcedures.AddWaypointInput) :
  keeps (DrizzleProcedures.addWaypoint toString is_uuid ctx i).
Proof.
  unfold DrizzleProcedures.addWaypoint. apply kn_protected. intros user.
  apply kn_input. eapply kn_bind; [apply kn_getRouteWithWaypoints|].
  intros [r|]; [|apply kn_throw].
  eapply kn_bind; [apply kn_getWaypointsByRouteId|]. intros existing.
  eapply kn_bind with (mid := fun _ _ => True);
    [|intros a; apply kn_done].
  unfold WaypointRepository.createWaypoint.
  eapply kn_bind with (mid := fun _ _ => True);
    [|intros a; apply kn_done].
  apply kn_execute. intros env k d d' rows Hins Hread Hd.
  split; [|exact I].
  exact (insert_next_numbered _ _ _ _ _ _ _ _ _ _ Hins Hread Hd).
Qed.

Lemma kn_list (ctx : Context) : keeps (DrizzleProcedures.list ctx).
Proof.
  unfold DrizzleProcedures.list.
  destruct (userId ctx) as [[|c u]|]; try apply kn_done.
  eapply kn_bind with (mid := fun _ _ => True).
  - unfold DrizzleProcedures.getRoutesByUserId.
    eapply kn_forget, kn_query_rows.
  - intros found. apply kn_promise_all. intros route.
    eapply kn_bind with (mid := fun _ _ => True).
    + eapply kn_forget, kn_getWaypointsByRouteId.
    + intros a. apply kn_done.
Qed.

Lemma kn_serve (ctx : Context) (r : DrizzleProcedures.request) :
  keeps (serve' ctx r).
Proof.
  destruct r; cbn [DrizzleProcedures.serve];
    (eapply kn_bind with (mid := fun _ _ => True);
     [|intros a; apply kn_done]);
    auto using kn_create, kn_list, kn_get, kn_update, kn_delete,
      kn_addWaypoint, kn_removeWaypoint.
Qed.

(** X12. Served one after the other, the requests to the router keep the
    positions distinct within each route, although the schema does not ask
    for it.  Starting from a database in which every waypoint references a
    stored route and no two waypoints of one route have the same position,
    after any sequence of requests (create, list, get, update, delete,
    addWaypoint, removeWaypoint), by any callers, with any inputs and any
    failures of the connection, no two waypoints of one route have the
    same position, in the database and in every state that was committed
    on the way. *)
Theorem requests_keep_positions_distinct
        (requests : list (Context * DrizzleProcedures.request * Env))
        (d : Database) :
  referential_integrity d -> distinct_positions d ->
  distinct_positions (db (serve_all' requests (start d)))
  /\ Forall distinct_positions (commits (serve_all' requests (start d))).
Proof.
  intros Hri Hd. unfold DrizzleProcedures.serve_all.
  assert (Hgen : forall s,
             well_numbered (db s) -> Forall well_numbered (commits s) ->
             let s' :=
               fold_left
                 (fun s0 '(ctx, r, env) =>
                    let s1 := fst (serve' ctx r env (start (db s0))) in
                    {| db := db s1; tick := 0;
                       commits := commits s0 ++ commits s1 |})
                 requests s in
             well_numbered (db s') /\ Forall well_numbered (commits s')).
  { induction requests as [|[[ctx r] env] rest IH]; intros s Hs Hc; simpl.
    - auto.
    - destruct (kn_serve ctx r env (start (db s)) I Hs (Forall_nil _))
        as (Hdb & Hcs & _).
      apply IH; cbn [db commits]; [assumption|].
      apply Forall_app. auto. }
  destruct (Hgen (start d)) as [Hdb Hcs]; [split; assumption|constructor|].
  split; [exact (proj2 Hdb)|].
  eapply Forall_impl; [|exact Hcs]. intros c Hc. exact (proj2 Hc).
Qed.

End Numbering.

Lemma sample_db_distinct : distinct_positions sample_db.
Proof.
  intros route. unfold waypoints_of. cbn [sample_db waypoints alices_waypoints
                                            filter w_route_id].
  destruct (String.eqb "route-1" route); repeat constructor; simpl;
    intuition discriminate.
Qed.

Lemma requests_keep_positions_distinct_witness :
  distinct_positions
    (db (DrizzleProcedures.serve_all exact_text any_text Scenarios.a_day
           (start sample_db)))
  /\ Forall distinct_positions
       (commits (DrizzleProcedures.serve_all exact_text any_text
                   Scenarios.a_day (start sample_db))).
Proof.
  apply (requests_keep_positions_distinct exact_text any_text Scenarios.a_day
           sample_db).
  - repeat constructor.
  - intros route. unfold waypoints_of.
    cbn [sample_db waypoints alices_waypoints filter w_route_id].
    destruct (String.eqb "route-1" route); repeat constructor; simpl;
      intuition discriminate.
Defined.

(** The first router does not keep the positions distinct: when the
    position lookup of its [addWaypoint] fails, the new waypoint gets
    position 0 on a route that has one there. *)
Example anonymous_addWaypoint_breaks_numbering :
  distinct_positions sample_db
  /\ ~ distinct_positions
         (db (fst (AnonymousProcedures.addWaypoint exact_text any_text
                     Scenarios.an_anonymous_stop Scenarios.lookup_fails
                     (start sample_db)))).
Proof.
  split; [exact sample_db_distinct|]. intros H.
  specialize (H route_1). vm_compute in H.
  inversion H as [|x l Hnot _]; subst. apply Hnot. right. now left.
Qed.

End NumberingFacts.
(** ** Facts about [delete] and [addWaypoint] of the first router *)

Module AnonymousFacts.
Import JS Storage Trpc Supabase Persisted StorageFacts.

(** The last row of a list in order of position has the largest
    position. *)
Lemma last_by_position (l : list WaypointRow) (x : WaypointRow) :
  DrizzleProcedures.by_position (l ++ [x]) ->
  Forall (fun w => w_position w <= w_position x) l.
Proof.
  unfold DrizzleProcedures.by_position. intros Hs.
  apply Sorted_StronglySorted in Hs; [|intros a b c; lia].
  induction l as [|y l IH]; [constructor|].
  simpl in Hs. inversion Hs as [|? ? Hrest Hall]; subst.
  constructor; [|auto].
  rewrite Forall_forall in Hall. apply Hall. apply in_or_app. right. now left.
Qed.

Lemma max_position_first (place : uuid -> Z) (route : uuid) (d : Database)
      (x : WaypointRow) (rest : list WaypointRow) :
  rev (select_by_position place route d) = x :: rest ->
  Forall (fun w => w_position w <= w_position x) (waypoints_of route d).
Proof.
  intros Hrev.
  assert (Hsorted : select_by_position place route d = rev rest ++ [x]).
  { rewrite <- (rev_involutive (select_by_position place route d)), Hrev.
    reflexivity. }
  pose proof (ProcedureFacts.select_by_position_by_position place route d)
    as Hby.
  rewrite Hsorted in Hby.
  pose proof (last_by_position _ _ Hby) as Hle.
  rewrite Forall_forall in *. intros w Hw.
  assert (Hin : In w (select_by_position place route d))
    by (apply (Permutation_in _
                 (Permutation_sym (select_by_position_perm place route d)));
        exact Hw).
  rewrite Hsorted in Hin. apply in_app_or in Hin.
  destruct Hin as [Hin|[<-|[]]]; [now apply Hle|lia].
Qed.

Section Procedures.

Variable toString : number -> Q.
Variable is_uuid : string -> bool.

Abbreviation delete' := (AnonymousProcedures.delete is_uuid).
Abbreviation addWaypoint' := (AnonymousProcedures.addWaypoint toString is_uuid).

(** X23. [delete] of the first router asks neither who calls nor whether
    the route exists: for any valid id on a reachable database it
    succeeds, and afterwards no route with that id and none of its
    waypoints is stored, while all other routes keep their waypoints. *)
Theorem anonymous_delete_always_succeeds (id : uuid) (env : Env) (d : Database) :
  referential_integrity d ->
  is_uuid id = true -> transport_fails env 0 = false ->
  exists s',
    delete' id env (start d) = (s', Normal tt)
    /\ has_route id (db s') = false
    /\ waypoints_of id (db s') = []
    /\ (forall x, In x (routes (db s')) <-> In x (routes d) /\ r_id x <> id)
    /\ (forall other, other <> id ->
                      waypoints_of other (db s') = waypoints_of other d).
Proof.
  intros Hri Huuid Hnet.
  unfold AnonymousProcedures.delete, input, AnonymousProcedures.delete_route_call,
    call, mbind, execute, throw_if_error.
  rewrite Huuid. cbn [start tick db commits]. rewrite Hnet.
  cbn [error snd ret fst]. eexists. split; [reflexivity|].
  unfold delete_routes. cbv zeta. cbn [fst db routes waypoints].
  set (gone := filter (fun r => String.eqb (r_id r) id) (routes d)).
  assert (Hgone : forall w,
             existsb (fun r => String.eqb (r_id r) (w_route_id w)) gone = true
             <-> w_route_id w = id /\ has_route id d = true).
  { intros w. rewrite existsb_exists. unfold gone, has_route. split.
    - intros (r & Hr & Heq). apply filter_In in Hr. destruct Hr as [Hr Hid].
      apply String.eqb_eq in Hid, Heq. split; [congruence|].
      apply existsb_exists. exists r. split; [assumption|].
      now apply String.eqb_eq.
    - intros [Hw Hhas]. apply existsb_exists in Hhas.
      destruct Hhas as (r & Hr & Hid). exists r. split.
      + apply filter_In. auto.
      + apply String.eqb_eq in Hid. apply String.eqb_eq. congruence. }
  assert (Hroutes : forall x,
             In x (filter (fun r => negb (String.eqb (r_id r) id)) (routes d))
             <-> In x (routes d) /\ r_id x <> id).
  { intros x. rewrite filter_In, Bool.negb_true_iff, String.eqb_neq. tauto. }
  split; [|split; [|split]].
  - unfold has_route. cbn [routes].
    destruct (existsb _ _) eqn:He; [|reflexivity].
    apply existsb_exists in He. destruct He as (x & Hx & Hxid).
    apply Hroutes in Hx. apply String.eqb_eq in Hxid. tauto.
  - unfold waypoints_of. cbn [waypoints]. apply filter_none.
    apply Forall_forall. intros w Hw. apply filter_In in Hw.
    destruct Hw as [Hin Hkept]. apply Bool.negb_true_iff in Hkept.
    destruct (String.eqb_spec (w_route_id w) id) as [Heq|]; [|reflexivity].
    exfalso. unfold referential_integrity in Hri.
    rewrite Forall_forall in Hri. specialize (Hri w Hin). rewrite Heq in Hri.
    assert (existsb (fun r => String.eqb (r_id r) (w_route_id w)) gone = true)
      by (apply Hgone; auto).
    congruence.
  - exact Hroutes.
  - intros other Hne. unfold waypoints_of. cbn [waypoints].
    induction (waypoints d) as [|w l IH]; [reflexivity|]. simpl.
    destruct (existsb _ gone) eqn:He; simpl.
    + apply Hgone in He. destruct He as [Hw _].
      destruct (String.eqb_spec (w_route_id w) other); [congruence|exact IH].
    + now rewrite IH.
Qed.

(** X24. [addWaypoint] of the first router numbers the new waypoint from
    the answer of its position lookup and does not read the error of that
    lookup: when the lookup answers, the new position is above every
    position of the route (0 for a route without waypoints); when the
    lookup fails, the waypoint is stored all the same, at position 0. *)
Theorem anonymous_addWaypoint_position
        (i : AnonymousProcedures.AddWaypointInput) (env : Env) (d : Database) :
  is_uuid (AnonymousProcedures.a_routeId i) = true ->
  z_number (AnonymousProcedures.a_latitude i) = true ->
  z_number (AnonymousProcedures.a_longitude i) = true ->
  (Qabs (toString (AnonymousProcedures.a_latitude i)) <= 90)%Q ->
  (Qabs (toString (AnonymousProcedures.a_longitude i)) <= 180)%Q ->
  has_route (AnonymousProcedures.a_routeId i) d = true ->
  Forall (fun w => w_position w < 2 ^ 31 - 1)
    (waypoints_of (AnonymousProcedures.a_routeId i) d) ->
  transport_fails env 1 = false ->
  has_waypoint (gen_random_uuid env 1%nat 0%nat) d = false ->
  exists s' row,
    addWaypoint' i env (start d) = (s', Normal (Some row))
    /\ waypoints (db s') = waypoints d ++ [row]
    /\ w_route_id row = AnonymousProcedures.a_routeId i
    /\ (transport_fails env 0 = true -> w_position row = 0)
    /\ (transport_fails env 0 = false ->
        Forall (fun w => w_position w < w_position row)
          (waypoints_of (AnonymousProcedures.a_routeId i) d)
        /\ (waypoints_of (AnonymousProcedures.a_routeId i) d = [] ->
            w_position row = 0)).
Proof.
  intros Huuid Hzlat Hzlng Hlat Hlng Hroute _ Hnet Hfresh.
  set (id := AnonymousProcedures.a_routeId i) in *.
  destruct (ProcedureFacts.to_decimal_fits 10 90 _ Hlat) as [lat Hl];
    [reflexivity|].
  destruct (ProcedureFacts.to_decimal_fits 11 180 _ Hlng) as [lng Hg];
    [reflexivity|].
  unfold AnonymousProcedures.addWaypoint, input. fold id.
  rewrite Huuid, Hzlat, Hzlng. cbn [andb].
  unfold AnonymousProcedures.select_max_position,
    AnonymousProcedures.insert_waypoint_single, call, mbind, query_rows, execute,
    throw_if_error.
  cbn [start tick db commits].
  destruct (transport_fails env 0) eqn:Hlookup;
    cbn [tick db commits data fst AnonymousProcedures.nextPosition
           insert_waypoints nw_latitude nw_longitude nw_route_id nw_position
           nw_name];
    rewrite Hnet, Hl, Hg; cbn [bind]; rewrite Hroute; cbn [negb];
    rewrite Hfresh; cbn [bind fst snd single error ret data].
  - eexists. eexists. split; [reflexivity|]. cbn [db waypoints w_route_id
                                                     w_position].
    repeat split; try reflexivity. discriminate.
  - eexists. eexists. split; [reflexivity|]. cbn [db waypoints w_route_id
                                                     w_position].
    split; [reflexivity|]. split; [reflexivity|]. split; [discriminate|].
    intros _.
    destruct (rev (select_by_position (place env 0) id d))
      as [|top rest] eqn:Hrev; cbn [map firstn].
    + assert (Hempty : waypoints_of id d = []).
      { apply (f_equal (@rev _)) in Hrev. rewrite rev_involutive in Hrev.
        simpl in Hrev.
        apply Permutation_nil. rewrite <- Hrev.
        apply select_by_position_perm. }
      rewrite Hempty. split; [constructor|reflexivity].
    + pose proof (max_position_first _ _ _ _ _ Hrev) as Hmax. split.
      * eapply Forall_impl; [|exact Hmax]. cbv beta. intros; lia.
      * intros Hempty.
        pose proof (select_by_position_perm (place env 0) id d) as Hperm.
        rewrite Hempty in Hperm. apply Permutation_sym, Permutation_nil in Hperm.
        rewrite Hperm in Hrev. discriminate.
Qed.

End Procedures.

Lemma anonymous_delete_always_succeeds_witness :
  exists s',
    AnonymousProcedures.delete any_text route_1 quiet_env (start sample_db)
    = (s', Normal tt)
    /\ has_route route_1 (db s') = false
    /\ waypoints_of route_1 (db s') = []
    /\ (forall x, In x (routes (db s'))
                  <-> In x (routes sample_db) /\ r_id x <> route_1)
    /\ (forall other, other <> route_1 ->
                      waypoints_of other (db s') = waypoints_of other sample_db).
Proof.
  apply (anonymous_delete_always_succeeds any_text route_1 quiet_env sample_db).
  - repeat constructor.
  - reflexivity.
  - reflexivity.
Defined.

Lemma anonymous_addWaypoint_position_witness :
  exists s' row,
    AnonymousProcedures.addWaypoint exact_text any_text
      Scenarios.an_anonymous_stop Scenarios.lookup_fails (start sample_db)
    = (s', Normal (Some row))
    /\ waypoints (db s') = waypoints sample_db ++ [row]
    /\ w_route_id row = route_1
    /\ (transport_fails Scenarios.lookup_fails 0 = true -> w_position row = 0)
    /\ (transport_fails Scenarios.lookup_fails 0 = false ->
        Forall (fun w => w_position w < w_position row)
          (waypoints_of route_1 sample_db)
        /\ (waypoints_of route_1 sample_db = [] -> w_position row = 0)).
Proof.
  apply (anonymous_addWaypoint_position exact_text any_text
           Scenarios.an_anonymous_stop Scenarios.lookup_fails sample_db).
  - reflexivity.
  - reflexivity.
  - reflexivity.
  - vm_compute. discriminate.
  - vm_compute. discriminate.
  - reflexivity.
  - repeat constructor.
  - reflexivity.
  - reflexivity.
Defined.

(** With the lookup failing, the third waypoint of the route is stored at
    position 0, beside the first. *)
Example anonymous_addWaypoint_duplicate_position :
  map w_position
    (waypoints_of route_1
       (db (fst (AnonymousProcedures.addWaypoint exact_text any_text
                   Scenarios.an_anonymous_stop Scenarios.lookup_fails
                   (start sample_db)))))
  = [0; 1; 0].
Proof. vm_compute. reflexivity. Qed.

(** Waypoints with equal positions are read in the order of the scan:
    two reads of that route can return its rows in different orders. *)
Example equal_positions_read_in_scan_order :
  map w_id
    (select_by_position (fun _ => 0) route_1
       (db (fst (AnonymousProcedures.addWaypoint exact_text any_text
                   Scenarios.an_anonymous_stop Scenarios.lookup_fails
                   (start sample_db)))))
  = ["wp-1"; "uuid-1-0"; "wp-2"]%string
  /\ map w_id
       (select_by_position
          (fun id => if String.eqb id "wp-1" then 1 else 0) route_1
          (db (fst (AnonymousProcedures.addWaypoint exact_text any_text
                      Scenarios.an_anonymous_stop Scenarios.lookup_fails
                      (start sample_db)))))
     = ["uuid-1-0"; "wp-1"; "wp-2"]%string.
Proof. split; vm_compute; reflexivity. Qed.

End AnonymousFacts.
